(** * Mailman/Queue/MaildirRunner.py: the maildir pre-queue runner

    A shallow embedding of [MaildirRunner.__init__],
    [MaildirRunner._oneloop] and [MaildirRunner._cleanup] and of the
    list-address pattern [lre], with the properties of the claim, route,
    select and dispatch loop.

    Layout: strings and the pattern; the parts of the [email] package the
    runner calls; router and destination selector; the maildir, the
    switchboards and the log as one state, with the calls that read and
    change it; the runner; then the lemmas and theorems. *)

From Stdlib Require Import Ascii String.
From stdpp Require Import gmap strings list fin_maps.

(** ** Characters and strings

    The message is read with [email.message_from_binary_file], which
    decodes the header bytes as ASCII (a byte above 127 becomes a lone
    surrogate, no letter).  On such text the letter case of
    [re.IGNORECASE] and of [str.lower] is that of ASCII: [A]-[Z] against
    [a]-[z] and nothing else.  Characters are those of [ascii]. *)

Definition is_upper (c : ascii) : bool :=
  let n := nat_of_ascii c in (65 <=? n)%nat && (n <=? 90)%nat.

Definition lower_ascii (c : ascii) : ascii :=
  if is_upper c then ascii_of_nat (nat_of_ascii c + 32) else c.

(** [str.lower] *)
Fixpoint lower (s : string) : string :=
  match s with
  | EmptyString => EmptyString
  | String c s' => String (lower_ascii c) (lower s')
  end.

(** ** The pattern [lre]

<<
   ^ (?P<listname>[^+@]+?) (?: - (?P<subq> admin|bounces|...|unsubscribe) )? [+@]
>>
    compiled with [re.VERBOSE | re.IGNORECASE] and used through
    [lre.match].  The functions follow the backtracking search of the
    engine: the shortest listname first; at each listname the group before
    its absence; inside the group the alternatives in the order written. *)

Module lre.

(** [[+@]] *)
Definition is_delim (c : ascii) : bool :=
  bool_decide (c = "+"%char) || bool_decide (c = "@"%char).

(** The alternatives of [subq], in the order of the pattern. *)
Definition subq_tokens : list string :=
  ["admin"; "bounces"; "confirm"; "join"; "leave"; "owner"; "request";
   "subscribe"; "unsubscribe"].

(** A literal of the pattern against the head of [s], letter case ignored:
    the text matched, as written in [s], and what follows it. *)
Fixpoint literal (tok s : string) : option (string * string) :=
  match tok with
  | EmptyString => Some (EmptyString, s)
  | String a tok' =>
      match s with
      | EmptyString => None
      | String c s' =>
          if bool_decide (lower_ascii a = lower_ascii c)
          then match literal tok' s' with
               | Some (m, r) => Some (String c m, r)
               | None => None
               end
          else None
      end
  end.

(** [(?P<subq>...)] followed by [[+@]], at the text after the dash: the
    first alternative after which a delimiter stands. *)
Fixpoint alternatives (toks : list string) (s : string) : option string :=
  match toks with
  | [] => None
  | t :: toks' =>
      match literal t s with
      | Some (m, String c _) =>
          if is_delim c then Some m else alternatives toks' s
      | _ => alternatives toks' s
      end
  end.

(** [(?:-(?P<subq>...))?[+@]] at [s]: [Some (Some m)] when the group took
    part with text [m], [Some None] when the delimiter stands at once. *)
Definition tail (s : string) : option (option string) :=
  let group :=
    match s with
    | String c s' =>
        if bool_decide (c = "-"%char) then alternatives subq_tokens s'
        else None
    | EmptyString => None
    end in
  match group with
  | Some m => Some (Some m)
  | None =>
      match s with
      | String c _ => if is_delim c then Some None else None
      | EmptyString => None
      end
  end.

(** The rest of the search once the listname has its first character:
    stop at the first position where [tail] matches, otherwise take one
    more character that is neither [+] nor [@]. *)
Fixpoint more (s : string) : option (string * option string) :=
  match tail s with
  | Some subq => Some (EmptyString, subq)
  | None =>
      match s with
      | EmptyString => None
      | String c s' =>
          if is_delim c then None
          else match more s' with
               | Some (l, subq) => Some (String c l, subq)
               | None => None
               end
      end
  end.

(** [mo = lre.match(to)] with [mo.group('listname', 'subq')]: [None] when
    there is no match object. *)
Definition match_ (to : string) : option (string * option string) :=
  match to with
  | EmptyString => None
  | String c s' =>
      if is_delim c then None
      else match more s' with
           | Some (l, subq) => Some (String c l, subq)
           | None => None
           end
  end.

End lre.

(** ** The [email] package, as far as the runner calls it *)

(** A parsed message: its header fields in the order of the file. *)
Definition Message : Type := list (string * string).

(** [Message.get_all(name, failobj)]: the values of the fields named
    [name], letter case of the name ignored, in the order of the message;
    [failobj] when there is none. *)
Definition get_all (msg : Message) (name : string) (failobj : list string)
  : list string :=
  let values :=
    (filter (λ kv : string * string, lower kv.1 = lower name) msg).*2 in
  match values with
  | [] => failobj
  | _ => values
  end.

(** *** [email.utils.parseaddr]

    The runner takes [parseaddr] from the standard library.  The general
    statements below hold for every function in its place.  The examples
    need one to run: [parseaddr] here is the library's on header values
    written as addr-specs separated by commas (no display name, comment,
    quoting or angle bracket, no blank inside an address), which is how
    Delivered-To and the like are written. *)

Module email_utils.

Fixpoint split_commas (s : string) : list string :=
  match s with
  | EmptyString => [EmptyString]
  | String c s' =>
      if bool_decide (c = ","%char) then EmptyString :: split_commas s'
      else match split_commas s' with
           | w :: ws => String c w :: ws
           | [] => [String c EmptyString]
           end
  end.

Fixpoint lstrip (s : string) : string :=
  match s with
  | String " "%char s' => lstrip s'
  | _ => s
  end.

Definition strip (s : string) : string :=
  String.rev (lstrip (String.rev (lstrip s))).

(** [_AddressList(field).addresslist]: the (realname, address) pairs of
    the value. *)
Definition addresslist (field : string) : list (string * string) :=
  (λ a, (EmptyString, a)) <$>
    filter (λ a, a ≠ EmptyString) (strip <$> split_commas field).

(** [parseaddr(addr)]: the first pair of the address list, or a pair of
    empty strings when there is none.  Since the releases that made
    [strict=True] the default, a value with more than one address also gives
    the pair of empty strings. *)
Definition parseaddr (strict : bool) (addr : string) : string * string :=
  match addresslist addr with
  | [] => (EmptyString, EmptyString)
  | a :: more =>
      if strict && negb (bool_decide (more = []))
      then (EmptyString, EmptyString)
      else a
  end.

End email_utils.

(** ** Recipient router: lines 150-171 of [_oneloop] *)

(** The tuple of header names the runner walks. *)
Definition recipient_headers : list string :=
  ["delivered-to"; "envelope-to"; "apparently-to"].

(** [vals = []; for header in (...): vals.extend(msg.get_all(header, []))] *)
Definition header_values (msg : Message) : list string :=
  foldl (λ vals header, vals ++ get_all msg header []) [] recipient_headers.

Section Router.

Variable parseaddr : string → string * string.
Variable listnames : list string.

(** [for field in vals: ... else: ...].  [Some (listname, subq)] is the
    state at the [break]; [None] is the [else] clause of the loop. *)
Fixpoint route (vals : list string) : option (string * option string) :=
  match vals with
  | [] => None
  | field :: vals' =>
      let to := (parseaddr field).2 in
      if bool_decide (to = EmptyString) then route vals'
      else match lre.match_ to with
           | None => route vals'
           | Some (listname, subq) =>
               if bool_decide (listname ∈ listnames)
               then Some (listname, subq)
               else route vals'
           end
  end.

End Router.

(** ** Destination selector: lines 173-202 of [_oneloop] *)

(** The three switchboards, named by the [mm_cfg] directory handed to
    [get_switchboard]. *)
Inductive qdir := BOUNCEQUEUE_DIR | CMDQUEUE_DIR | INQUEUE_DIR.

(** Values stored in [msgdata]. *)
Inductive pyval :=
  | VInt (n : Z)
  | VStr (s : string)
  | VList (l : list string).

Global Instance qdir_eq_dec : EqDecision qdir.
Proof. solve_decision. Defined.
Global Instance pyval_eq_dec : EqDecision pyval.
Proof. solve_decision. Defined.

Section Selector.

(** [mm_cfg.OWNER_PIPELINE] and [Utils.get_site_email(extra='bounces')]:
    configuration of the site, defined outside this module. *)
Variable OWNER_PIPELINE : list string.
Variable site_bounces : string.

(** The [if]/[elif] chain on [subq]: the switchboard and [msgdata], or
    [None] for the final [else] (unknown sub-queue). *)
Definition select (listname : string) (subq : option string)
  : option (qdir * gmap string pyval) :=
  let msgdata : gmap string pyval := {[ "listname" := VStr listname ]} in
  if bool_decide (subq ∈ [Some "bounces"; Some "admin"]) then
    Some (BOUNCEQUEUE_DIR, msgdata)
  else if bool_decide (subq = Some "confirm") then
    Some (CMDQUEUE_DIR, <["toconfirm" := VInt 1]> msgdata)
  else if bool_decide (subq ∈ [Some "join"; Some "subscribe"]) then
    Some (CMDQUEUE_DIR, <["tojoin" := VInt 1]> msgdata)
  else if bool_decide (subq ∈ [Some "leave"; Some "unsubscribe"]) then
    Some (CMDQUEUE_DIR, <["toleave" := VInt 1]> msgdata)
  else if bool_decide (subq = Some "owner") then
    Some (INQUEUE_DIR,
          <["pipeline" := VList OWNER_PIPELINE]>
            (<["envsender" := VStr site_bounces]>
               (<["toowner" := VInt 1]> msgdata)))
  else if bool_decide (subq = None) then
    Some (INQUEUE_DIR, <["tolist" := VInt 1]> msgdata)
  else if bool_decide (subq = Some "request") then
    Some (CMDQUEUE_DIR, <["torequest" := VInt 1]> msgdata)
  else None.

End Selector.

(** ** The world the runner acts on *)

(** Error numbers.  [ENOENT] and [EEXIST] follow from the state of the
    maildir; a [fault] is a failure whose cause lies outside it. *)
Inductive fault := EACCES | EIO | ENOSPC | EROFS.
Inductive errno := ENOENT | EEXIST | errno_of (f : fault).

(** Exceptions: [OSError] with its [errno], or any other [Exception],
    named by its class. *)
Inductive exn :=
  | OSError (e : errno)
  | Exception (cls : string).

Inductive result (A : Type) :=
  | Ok (a : A)
  | Raise (e : exn).
Arguments Ok {A} a.
Arguments Raise {A} e.

Global Instance fault_eq_dec : EqDecision fault.
Proof. solve_decision. Defined.
Global Instance errno_eq_dec : EqDecision errno.
Proof. solve_decision. Defined.
Global Instance exn_eq_dec : EqDecision exn.
Proof. solve_decision. Defined.
Global Instance result_eq_dec `{EqDecision A} : EqDecision (result A).
Proof. solve_decision. Defined.

(** A file of the maildir: its identity, and what opening it and
    [email.message_from_binary_file] make of its bytes. *)
Record mailfile := File { ino : nat; content : result Message }.

Global Instance mailfile_eq_dec : EqDecision mailfile.
Proof. solve_decision. Defined.

(** The maildir: [self._dir] (new) and [self._cur] (cur), each absent or a
    finite map from entry name to file. *)
Inductive dir := New | Cur.

Global Instance dir_eq_dec : EqDecision dir.
Proof. solve_decision. Defined.

Record FS := mkFS {
  new : option (gmap string mailfile);
  cur : option (gmap string mailfile)
}.

(** [os.path.join(d, name)] for the two directories. *)
Definition path : Type := dir * string.

Definition entries (d : dir) (fs : FS) : option (gmap string mailfile) :=
  match d with New => new fs | Cur => cur fs end.

Definition set_entries (d : dir) (m : gmap string mailfile) (fs : FS) : FS :=
  match d with
  | New => mkFS (Some m) (cur fs)
  | Cur => mkFS (new fs) (Some m)
  end.

(** The file at a path, if any. *)
Definition at_path (p : path) (fs : FS) : option mailfile :=
  m ← entries p.1 fs; m !! p.2.

(** [rename(2)]: [ENOENT] when the source or the directory of the target
    is missing; when source and target are links to one file nothing is
    done and the call succeeds; otherwise the source is removed and the
    target holds its file, replacing what was there.  Two paths are links
    to one file when they hold the same [mailfile]. *)
Definition fs_rename (src dst : path) (fs : FS) : errno + (unit * FS) :=
  match entries src.1 fs with
  | None => inl ENOENT
  | Some ms =>
      match ms !! src.2 with
      | None => inl ENOENT
      | Some f =>
          if decide (at_path dst fs = Some f) then inr (tt, fs)
          else
            let fs1 := set_entries src.1 (delete src.2 ms) fs in
            match entries dst.1 fs1 with
            | None => inl ENOENT
            | Some md => inr (tt, set_entries dst.1 (<[dst.2 := f]> md) fs1)
            end
      end
  end.

Definition fs_unlink (p : path) (fs : FS) : errno + (unit * FS) :=
  match entries p.1 fs with
  | None => inl ENOENT
  | Some m =>
      match m !! p.2 with
      | None => inl ENOENT
      | Some _ => inr (tt, set_entries p.1 (delete p.2 m) fs)
      end
  end.

Definition fs_listdir (d : dir) (fs : FS) : errno + (list string * FS) :=
  match entries d fs with
  | None => inl ENOENT
  | Some m => inr ((map_to_list m).*1, fs)
  end.

Definition fs_open (p : path) (fs : FS) : errno + (mailfile * FS) :=
  match at_path p fs with
  | None => inl ENOENT
  | Some f => inr (f, fs)
  end.

Definition fs_makedirs (d : dir) (fs : FS) : errno + (unit * FS) :=
  match entries d fs with
  | Some _ => inl EEXIST
  | None => inr (tt, set_entries d ∅ fs)
  end.

(** The calls the runner makes on what lies outside it. *)
Inductive call :=
  | Listdir (d : dir)
  | Rename (src dst : path)
  | Open (p : path)
  | Unlink (p : path)
  | Exists (d : dir)
  | Makedirs (d : dir)
  | Enqueue (q : qdir)
  | RunnerInit.

Global Instance call_eq_dec : EqDecision call.
Proof. solve_decision. Defined.

(** The [syslog] calls of the module, one constructor per call site. *)
Inductive log_entry :=
  | init_start                                  (* debug, line 102 *)
  | init_complete                               (* debug, line 111 *)
  | init_failed (e : exn)                       (* error, line 113 *)
  | listing_error (e : exn)                     (* error, line 125 *)
  | claim_error (srcname : path)                (* error, line 141 *)
  | not_for_any_list (xdstname : path)          (* error, line 168 *)
  | unknown_subq (subq : option string)         (* error, line 200 *)
  | processing_error (file : string) (e : exn)  (* error, line 210 *)
  | processed (file : string).                  (* debug, line 207 *)

Global Instance log_entry_eq_dec : EqDecision log_entry.
Proof. solve_decision. Defined.

(** State: the maildir, what the switchboards were given (in order), the
    log, and the calls made so far. *)
Record World := mkWorld {
  fs : FS;
  queued : list (qdir * Message * gmap string pyval);
  log : list log_entry;
  calls : list call
}.

(** What the runner does not control.  Before its [n]-th call other
    processes (other runners, the MTA, an operator) change the maildir by
    [interfere n]; the call can meet the fault [os_fault n]; a call into
    Mailman ([Runner.__init__], [Switchboard.enqueue]) can raise
    [lib_fault n]. *)
Record Env := mkEnv {
  interfere : nat → FS → FS;
  os_fault : nat → option fault;
  lib_fault : nat → option exn
}.

(** *** State and exceptions *)

Definition M (A : Type) : Type := World → result A * World.

Global Instance M_ret : MRet M := λ A a w, (Ok a, w).
Global Instance M_bind : MBind M := λ A B f m w,
  match m w with
  | (Ok a, w') => f a w'
  | (Raise e, w') => (Raise e, w')
  end.

Definition raise {A} (e : exn) : M A := λ w, (Raise e, w).

(** [try: m  except Exception as e: h e] *)
Definition try_except {A} (m : M A) (h : exn → M A) : M A := λ w,
  match m w with
  | (Raise e, w') => h e w'
  | r => r
  end.

Definition add_log (entry : log_entry) (w : World) : World :=
  mkWorld (fs w) (queued w) (log w ++ [entry]) (calls w).

Definition syslog (entry : log_entry) : M unit := λ w,
  (Ok tt, add_log entry w).

Section Calls.

Variable env : Env.

(** The world as a call finds it: the others have moved, the call is
    recorded. *)
Definition enter (c : call) (w : World) : World :=
  mkWorld (interfere env (length (calls w)) (fs w)) (queued w) (log w)
          (calls w ++ [c]).

(** A call of [os]: it raises [OSError] or returns with the maildir
    changed. *)
Definition os_call {A} (c : call) (op : FS → errno + (A * FS)) : M A := λ w,
  let w1 := enter c w in
  match os_fault env (length (calls w)) with
  | Some f => (Raise (OSError (errno_of f)), w1)
  | None =>
      match op (fs w1) with
      | inl e => (Raise (OSError e), w1)
      | inr (a, fs2) => (Ok a, mkWorld fs2 (queued w1) (log w1) (calls w1))
      end
  end.

Definition os_listdir (d : dir) : M (list string) :=
  os_call (Listdir d) (fs_listdir d).
Definition os_rename (src dst : path) : M unit :=
  os_call (Rename src dst) (fs_rename src dst).
Definition os_unlink (p : path) : M unit :=
  os_call (Unlink p) (fs_unlink p).
Definition os_makedirs (d : dir) : M unit :=
  os_call (Makedirs d) (fs_makedirs d).

(** [os.path.exists]: false on any error of the underlying [stat]. *)
Definition os_path_exists (d : dir) : M bool := λ w,
  let w1 := enter (Exists d) w in
  match os_fault env (length (calls w)) with
  | Some _ => (Ok false, w1)
  | None => (Ok (bool_decide (is_Some (entries d (fs w1)))), w1)
  end.

(** [with open(p, 'rb') as fp: msg = email.message_from_binary_file(fp)] *)
Definition load (p : path) : M Message :=
  f ← os_call (Open p) (fs_open p);
  match content f with
  | Ok msg => mret msg
  | Raise e => raise e
  end.

(** A call into Mailman that touches nothing of this state but can fail. *)
Definition lib_call (c : call) : M unit := λ w,
  let w1 := enter c w in
  match lib_fault env (length (calls w)) with
  | Some e => (Raise e, w1)
  | None => (Ok tt, w1)
  end.

Definition store (q : qdir) (msg : Message) (msgdata : gmap string pyval)
  : M unit := λ w,
  (Ok tt, mkWorld (fs w) (queued w ++ [(q, msg, msgdata)]) (log w) (calls w)).

(** [get_switchboard(q).enqueue(msg, msgdata)] *)
Definition enqueue (q : qdir) (msg : Message) (msgdata : gmap string pyval)
  : M unit :=
  lib_call (Enqueue q);; store q msg msgdata.

End Calls.

(** ** The runner *)

Module MaildirRunner.

Section Runner.

Variable parseaddr : string → string * string.
Variable OWNER_PIPELINE : list string.
Variable site_bounces : string.
Variable env : Env.

(** [if not os.path.exists(d): os.makedirs(d)] *)
Definition ensure_dir (d : dir) : M unit :=
  b ← os_path_exists env d;
  if negb b then os_makedirs env d else mret tt.

(** Lines 104-111: the body of the [try] of [__init__]. *)
Definition init_body : M unit :=
  lib_call env RunnerInit;;
  ensure_dir New;;
  ensure_dir Cur;;
  syslog init_complete.

(** [__init__] *)
Definition __init__ : M unit :=
  syslog init_start;;
  try_except init_body (λ e, syslog (init_failed e);; raise e).

Section Pass.

(** [listnames = Utils.list_names()] *)
Variable listnames : list string.

(** Lines 146-207: the body of the [try] for a claimed file. *)
Definition process (file : string) (dstname xdstname : path) : M unit :=
  msg ← load env dstname;
  match route parseaddr listnames (header_values msg) with
  | None =>
      syslog (not_for_any_list xdstname);;
      os_rename env dstname xdstname
  | Some (listname, subq) =>
      match select OWNER_PIPELINE site_bounces listname subq with
      | None =>
          syslog (unknown_subq subq);;
          os_rename env dstname xdstname
      | Some (queue, msgdata) =>
          enqueue env queue msg msgdata;;
          os_unlink env dstname;;
          syslog (processed file)
      end
  end.

(** Lines 135-142: the claim.  [true] when the rename went through,
    [false] for the [continue] on [ENOENT]. *)
Definition claim (srcname dstname : path) : M bool :=
  try_except
    (os_rename env srcname dstname;; mret true)
    (λ e,
       match e with
       | OSError ENOENT => mret false
       | OSError _ => syslog (claim_error srcname);; raise e
       | _ => raise e
       end).

(** Lines 209-215: the handler of the [try]. *)
Definition quarantine (file : string) (dstname xdstname : path) (e : exn)
  : M unit :=
  syslog (processing_error file e);;
  try_except
    (os_rename env dstname xdstname)
    (λ e', match e' with OSError _ => mret tt | _ => raise e' end).

(** Lines 144-215: the [try] statement, entered once the file is
    claimed. *)
Definition claimed (file : string) (dstname xdstname : path) : M unit :=
  try_except (process file dstname xdstname)
             (quarantine file dstname xdstname).

(** Lines 131-215: the body of [for file in files]. *)
Definition one_file (file : string) : M unit :=
  let srcname := (New, file) in
  let dstname := (Cur, file +:+ ":1,P") in
  let xdstname := (Cur, file +:+ ":1,X") in
  won ← claim srcname dstname;
  if (won : bool) then claimed file dstname xdstname else mret tt.

Fixpoint for_files (files : list string) : M unit :=
  match files with
  | [] => mret tt
  | file :: files' => one_file file;; for_files files'
  end.

(** [_oneloop] *)
Definition _oneloop : M nat :=
  files ← try_except
    (files ← os_listdir env New; mret (Some files))
    (λ e,
       match e with
       | OSError ENOENT => mret None
       | OSError _ => syslog (listing_error e);; raise e
       | _ => raise e
       end);
  match files with
  | None => mret 0
  | Some files => for_files files;; mret (length files)
  end.

End Pass.

End Runner.

End MaildirRunner.

(** ** Vocabulary of the statements *)

Section RouterSpec.

Variable parseaddr : string → string * string.
Variable listnames : list string.

(** A header value is accepted with result [r] when the address
    [parseaddr] takes from it is not empty, the pattern matches it with
    groups [r], and the listname is one of [listnames]. *)
Definition accepts (field : string) (r : string * option string) : Prop :=
  (parseaddr field).2 ≠ EmptyString ∧
  lre.match_ (parseaddr field).2 = Some r ∧
  r.1 ∈ listnames.

End RouterSpec.

(** No other process touches the maildir during the run. *)
Definition quiet (env : Env) : Prop := ∀ n fs, interfere env n fs = fs.

(** No call of [os] meets a fault from outside the maildir. *)
Definition faultless (env : Env) : Prop := ∀ n, os_fault env n = None.

(** No call into the library meets one. *)
Definition reliable (env : Env) : Prop := ∀ n, lib_fault env n = None.


(** A file is linked at one path at most. *)
Definition linked_once (fv : mailfile) (fs : FS) : Prop :=
  ∀ p q, at_path p fs = Some fv → at_path q fs = Some fv → p = q.

(** A computation only adds to the history, the log and the
    switchboards, and the calls it adds all satisfy [P]. *)
Definition grows_by (P : call → Prop) (w w' : World) : Prop :=
  ∃ cs l q, calls w' = calls w ++ cs ∧ Forall P cs ∧
    log w' = log w ++ l ∧ queued w' = queued w ++ q.

Definition emits {A} (P : call → Prop) (m : M A) : Prop :=
  ∀ w, grows_by P w (m w).2.

(** A file is linked nowhere. *)
Definition gone (fv : mailfile) (fs : FS) : Prop :=
  ∀ p, at_path p fs ≠ Some fv.

(** The paths the runner uses for the file named [file] in new/. *)
Definition paths_of (file : string) : list path :=
  [(New, file); (Cur, file +:+ ":1,P"); (Cur, file +:+ ":1,X")].

(** Other processes leave the file [fv], named [name] in new/, alone
    from the [k]-th call of the runner on: whatever they do to the
    maildir, the three paths of the file hold what they held, and the
    file is neither linked a second time nor brought back once gone.
    Other runners at work on other files, and an MTA delivering new
    files, are of this kind. *)
Definition alone_from (env : Env) (k : nat) (name : string) (fv : mailfile)
  : Prop :=
  ∀ n fs, k ≤ n →
    (∀ p, p ∈ paths_of name → at_path p (interfere env n fs) = at_path p fs) ∧
    (linked_once fv fs → linked_once fv (interfere env n fs)) ∧
    (gone fv fs → gone fv (interfere env n fs)).

(** A change of the maildir that, among the paths of [name], touches
    those in [ps] only, links [fv] no second time and does not bring it
    back. *)
Definition fs_confined (name : string) (fv : mailfile) (ps : list path)
    (fs fs' : FS) : Prop :=
  (∀ p, p ∈ paths_of name → p ∉ ps → at_path p fs' = at_path p fs) ∧
  (linked_once fv fs → linked_once fv fs') ∧
  (gone fv fs → gone fv fs').

(** From the [k]-th call on, a computation changes the maildir in that
    way. *)
Definition after (k : nat) (name : string) (fv : mailfile) (ps : list path)
    (w w' : World) : Prop :=
  k ≤ length (calls w) →
  k ≤ length (calls w') ∧ fs_confined name fv ps (fs w) (fs w').

Definition confined {A} (k : nat) (name : string) (fv : mailfile)
    (ps : list path) (m : M A) : Prop :=
  ∀ w, after k name fv ps w (m w).2.

(** The states of a mail-drop file named [f] in new/: where the file
    [fv] is found. *)
Inductive state := unclaimed | in_progress | quarantined | removed.

Definition in_state (f : string) (fv : mailfile) (fs : FS) (s : state) : Prop :=
  match s with
  | unclaimed => at_path (New, f) fs = Some fv
  | in_progress => at_path (Cur, f +:+ ":1,P") fs = Some fv
  | quarantined => at_path (Cur, f +:+ ":1,X") fs = Some fv
  | removed => gone fv fs
  end.

(** A log entry that reports the exception [e]. *)
Definition reports (e : exn) (entry : log_entry) : Prop :=
  match entry with
  | init_failed e' | listing_error e' | processing_error _ e' => e' = e
  | _ => False
  end.

Definition is_listdir (c : call) : Prop :=
  match c with Listdir _ => True | _ => False end.

(** A call made for the file named [file]: on its three paths, or to a
    switchboard. *)
Definition own (file : string) (c : call) : Prop :=
  match c with
  | Rename src dst => src ∈ paths_of file ∧ dst ∈ paths_of file
  | Open p | Unlink p => p ∈ paths_of file
  | Enqueue _ => True
  | _ => False
  end.

(** Between [w] and [w'] the message of the file [fv] named [name] was
    handed to a switchboard and the success was logged. *)
Definition dispatched (name : string) (fv : mailfile) (w w' : World) : Prop :=
  (∃ l, log w' = log w ++ l ∧ processed name ∈ l) ∧
  ∃ q qd msg msgdata,
    queued w' = queued w ++ q ∧ content fv = Ok msg ∧ (qd, msg, msgdata) ∈ q.

(** The states in the order of the protocol: a file moves from
    unclaimed to in progress, and from there to quarantined or removed,
    never back. *)
Definition advance (s s' : state) : Prop :=
  match s, s' with
  | unclaimed, _ => True
  | in_progress, unclaimed => False
  | in_progress, _ => True
  | quarantined, quarantined => True
  | removed, removed => True
  | _, _ => False
  end.

(** The file [fv], delivered as new/[name], is where the protocol puts
    it: linked once at most, in the state [s], and no other file has its
    name in new/. *)
Definition placed (name : string) (fv : mailfile) (fs : FS) (s : state)
  : Prop :=
  linked_once fv fs ∧ in_state name fv fs s ∧
  ∀ f, at_path (New, name) fs = Some f → f = fv.

(** The other processes are workers on the same maildir: whatever they
    do between two calls of the runner, the file stays placed and has
    only moved on (another runner claims it, quarantines it, removes
    it), and no file is delivered under its name again. *)
Definition workers (env : Env) (name : string) (fv : mailfile) : Prop :=
  ∀ n fs s, placed name fv fs s →
    ∃ s', advance s s' ∧ placed name fv (interfere env n fs) s'.

(** The other processes do not remove cur/. *)
Definition keeps_cur (env : Env) : Prop :=
  ∀ n fs, is_Some (cur fs) → is_Some (cur (interfere env n fs)).

(** The calls by which the runner handles the file it has claimed. *)
Definition handles (name : string) (c : call) : Prop :=
  c = Open (Cur, name +:+ ":1,P") ∨
  c = Unlink (Cur, name +:+ ":1,P") ∨
  c = Rename (Cur, name +:+ ":1,P") (Cur, name +:+ ":1,X").


(** Between [w] and [w'] the file has only moved on, and cur/ has
    stayed. *)
Definition drifts (name : string) (fv : mailfile) (w w' : World) : Prop :=
  (∀ s, placed name fv (fs w) s →
        ∃ s', advance s s' ∧ placed name fv (fs w') s') ∧
  (is_Some (cur (fs w)) → is_Some (cur (fs w'))).

Definition drifting {A} (name : string) (fv : mailfile) (m : M A) : Prop :=
  ∀ w, drifts name fv w (m w).2.



(** Between [w] and [w'] the rename of the file to its [:1,X] name met a
    fault. *)
Definition quarantine_failed (env : Env) (name : string) (w w' : World)
  : Prop :=
  ∃ k ft, length (calls w) ≤ k ∧
    calls w' !! k =
      Some (Rename (Cur, name +:+ ":1,P") (Cur, name +:+ ":1,X")) ∧
    os_fault env k = Some ft.

(** What became of the file between [w] and [w'] when the runner won
    its claim: linked once at most, and in progress after a failed
    quarantine, or quarantined, or gone with its message dispatched. *)
Definition won (env : Env) (name : string) (fv : mailfile) (w w' : World)
  : Prop :=
  linked_once fv (fs w') ∧
  ((at_path (Cur, name +:+ ":1,P") (fs w') = Some fv ∧
    quarantine_failed env name w w') ∨
   at_path (Cur, name +:+ ":1,X") (fs w') = Some fv ∨
   (gone fv (fs w') ∧ dispatched name fv w w')).


(** ** A site for the examples *)

Module Demo.

Definition parseaddr : string → string * string := email_utils.parseaddr true.

Definition OWNER_PIPELINE : list string :=
  ["SpamDetect"; "Replybot"; "CleanseDKIM"; "OwnerRecips"; "ToOutgoing"].

Definition site_bounces : string := "mailman-bounces@lists.example.com".

(** One list, [mylist], as [Utils.list_names()] gives it. *)
Definition listnames : list string := ["mylist"].

(** A message delivered for [addr]. *)
Definition mail (addr : string) : Message :=
  [("Return-Path", "<someone@example.net>"); ("Delivered-To", addr);
   ("Subject", "hello")].

(** A world whose new/ holds the given files, with an empty cur/, empty
    switchboards and an empty log. *)
Definition maildir (files : list (string * result Message)) : World :=
  mkWorld
    (mkFS (Some (list_to_map (imap (λ i nc, (nc.1, File i nc.2)) files)))
          (Some ∅))
    [] [] [].

(** Nothing from outside: no other process, no fault. *)
Definition calm : Env :=
  mkEnv (λ _ fs, fs) (λ _, None) (λ _, None).

(** The faults [fts], by number of the call, and no other process. *)
Definition faulty (fts : list (nat * fault)) : Env :=
  mkEnv (λ _ fs, fs) (λ n, (list_to_map fts : gmap nat fault) !! n)
        (λ _, None).

(** Another runner claims [name] just before our [n]-th call. *)
Definition other_claims (name : string) (fs : FS) : FS :=
  match fs_rename (New, name) (Cur, name +:+ ":1,P") fs with
  | inr (_, fs') => fs'
  | inl _ => fs
  end.

Definition racing (n : nat) (name : string) : Env :=
  mkEnv (λ k fs, if bool_decide (k = n) then other_claims name fs else fs)
        (λ _, None) (λ _, None).

Definition _oneloop (env : Env) : M nat :=
  MaildirRunner._oneloop parseaddr OWNER_PIPELINE site_bounces env listnames.

Definition for_files (env : Env) : list string → M unit :=
  MaildirRunner.for_files parseaddr OWNER_PIPELINE site_bounces env listnames.

Definition process (env : Env) : string → path → path → M unit :=
  MaildirRunner.process parseaddr OWNER_PIPELINE site_bounces env listnames.

Definition claimed (env : Env) : string → path → path → M unit :=
  MaildirRunner.claimed parseaddr OWNER_PIPELINE site_bounces env listnames.

(** Three files: one for the list, one for nobody, one for the owners. *)
Definition three : World :=
  maildir [("msg1", Ok (mail "mylist@lists.example.com"));
           ("msg2", Ok (mail "nobody@lists.example.com"));
           ("msg3", Ok (mail "mylist-owner@lists.example.com"))].

(** One file, for an address of another site. *)
Definition stray : World :=
  maildir [("msg1", Ok (mail "someone@othersite.example"))].

(** One file, for the list. *)
Definition post : World :=
  maildir [("msg1", Ok (mail "mylist@lists.example.com"))].

End Demo.

(** ** [_cleanup]: lines 219-228 *)

(** The [syslog] calls of [_cleanup], one constructor per call site. *)
Inductive cleanup_entry :=
  | cleanup_start                  (* debug, line 221 *)
  | cleanup_failed (e : exn)       (* error, line 226 *)
  | cleanup_complete.              (* debug, line 228 *)

Global Instance cleanup_entry_eq_dec : EqDecision cleanup_entry.
Proof. solve_decision. Defined.

(** [_cleanup] acts on the state of the base class, of type [S], through
    [Runner._cleanup] (defined outside this module), and on the log. *)
Definition CM (S A : Type) : Type :=
  S * list cleanup_entry → result A * (S * list cleanup_entry).

Global Instance CM_ret {S} : MRet (CM S) := λ A a st, (Ok a, st).
Global Instance CM_bind {S} : MBind (CM S) := λ A B f m st,
  match m st with
  | (Ok a, st') => f a st'
  | (Raise e, st') => (Raise e, st')
  end.

(** [try: m  except Exception as e: h e] *)
Definition cleanup_try {S A} (m : CM S A) (h : exn → CM S A) : CM S A :=
  λ st,
    match m st with
    | (Raise e, st') => h e st'
    | r => r
    end.

Definition cleanup_syslog {S} (entry : cleanup_entry) : CM S unit :=
  λ st, (Ok tt, (st.1, st.2 ++ [entry])).

Section Cleanup.

Context {S : Type}.

(** [super(MaildirRunner, self)._cleanup()] *)
Variable super_cleanup : S → result unit * S.

Definition call_super : CM S unit :=
  λ st, let '(r, s') := super_cleanup st.1 in (r, (s', st.2)).

(** [_cleanup] *)
Definition _cleanup : CM S unit :=
  cleanup_syslog cleanup_start;;
  cleanup_try call_super (λ e, cleanup_syslog (cleanup_failed e));;
  cleanup_syslog cleanup_complete.

End Cleanup.

(** ** Vocabulary of the further properties *)

(** *** The address before its first delimiter *)

(** The text of an address before its first [+] or [@]; [None] when the
    address has neither. *)
Fixpoint before_delim (s : string) : option string :=
  match s with
  | EmptyString => None
  | String c s' =>
      if lre.is_delim c then Some EmptyString
      else String c <$> before_delim s'
  end.

(** The text the optional group of the pattern takes for [subq]. *)
Definition subq_text (subq : option string) : string :=
  match subq with
  | Some t => String "-" t
  | None => EmptyString
  end.

(** Some character of [s] satisfies [P]. *)
Fixpoint has (P : ascii → bool) (s : string) : bool :=
  match s with
  | EmptyString => false
  | String c s' => P c || has P s'
  end.

(** [-] *)
Definition is_dash (c : ascii) : bool := bool_decide (c = "-"%char).

(** *** Messages and files *)

(** The fields of a message the router reads: those named Delivered-To,
    Envelope-To or Apparently-To in any letter case, in the order of the
    message, the name in lower case. *)
Definition recipient_fields (msg : Message) : list (string * string) :=
  (λ kv : string * string, (lower kv.1, kv.2)) <$>
    filter (λ kv : string * string, lower kv.1 ∈ recipient_headers) msg.

Section Destination.

Variable parseaddr : string → string * string.
Variable OWNER_PIPELINE : list string.
Variable site_bounces : string.
Variable listnames : list string.

(** What the router and the selector make of a file: the switchboard
    entry of its message, or [None] when the file cannot be parsed, is
    for no list, or names an unknown sub-queue. *)
Definition destination (fv : mailfile)
  : option (qdir * Message * gmap string pyval) :=
  match content fv with
  | Ok msg =>
      match route parseaddr listnames (header_values msg) with
      | Some (listname, subq) =>
          match select OWNER_PIPELINE site_bounces listname subq with
          | Some (queue, msgdata) => Some (queue, msg, msgdata)
          | None => None
          end
      | None => None
      end
  | Raise _ => None
  end.

(** The entry the runner logs for a claimed file it handles without a
    fault: the success, or why the file is set aside. *)
Definition report (file : string) (fv : mailfile) : log_entry :=
  match content fv with
  | Ok msg =>
      match route parseaddr listnames (header_values msg) with
      | Some (listname, subq) =>
          match select OWNER_PIPELINE site_bounces listname subq with
          | Some _ => processed file
          | None => unknown_subq subq
          end
      | None => not_for_any_list (Cur, file +:+ ":1,X")
      end
  | Raise e => processing_error file e
  end.

End Destination.

(** *** What a pass changes *)

(** A change of the maildir that leaves every path outside [ps] as it
    was and creates or removes no directory. *)
Definition untouched (ps : list path) (fs fs' : FS) : Prop :=
  (∀ p, p ∉ ps → at_path p fs' = at_path p fs) ∧
  (∀ d, is_Some (entries d fs') ↔ is_Some (entries d fs)).

(** A computation that changes the maildir at the paths [ps] only. *)
Definition keeps {A} (ps : list path) (m : M A) : Prop :=
  ∀ w, untouched ps (fs w) (fs (m w).2).

Section Routed.

Variable parseaddr : string → string * string.
Variable OWNER_PIPELINE : list string.
Variable site_bounces : string.
Variable listnames : list string.

(** A switchboard entry the router and the selector answer for: the
    message has a recipient value accepted for a list of the site, and
    the switchboard and the metadata are those the selector gives for
    it. *)
Definition routed (item : qdir * Message * gmap string pyval) : Prop :=
  let '(queue, msg, msgdata) := item in
  ∃ listname subq,
    route parseaddr listnames (header_values msg) = Some (listname, subq) ∧
    select OWNER_PIPELINE site_bounces listname subq = Some (queue, msgdata) ∧
    listname ∈ listnames ∧
    msgdata !! "listname" = Some (VStr listname).

End Routed.

(** A call that hands a message to a switchboard. *)
Definition is_enqueue (c : call) : Prop :=
  match c with Enqueue _ => True | _ => False end.

(** The calls the runner makes for the file named [file]: the claim, the
    reading, the handing over, the unlink and the quarantine. *)
Definition step_of (file : string) (c : call) : Prop :=
  match c with
  | Rename src dst =>
      (src = (New, file) ∧ dst = (Cur, file +:+ ":1,P")) ∨
      (src = (Cur, file +:+ ":1,P") ∧ dst = (Cur, file +:+ ":1,X"))
  | Open p | Unlink p => p = (Cur, file +:+ ":1,P")
  | Enqueue _ => True
  | _ => False
  end.

(** The runner at work on the file named [file]: it makes the claim
    and then only calls that handle the claimed file or hand a message
    over, and the switchboards receive nothing or one entry; they
    receive one, which satisfies [Q], only when the calls after the
    claim are the opening of the file, the handing over to the
    switchboard of the entry, and then no other handing over. *)
Definition file_step (Q : qdir * Message * gmap string pyval → Prop)
    (file : string) (w w' : World) : Prop :=
  ∃ cs q,
    calls w' = calls w ++ Rename (New, file) (Cur, file +:+ ":1,P") :: cs ∧
    Forall (λ c, handles file c ∨ is_enqueue c) cs ∧
    queued w' = queued w ++ q ∧
    (q = [] ∨
     ∃ queue msg msgdata cs',
       q = [(queue, msg, msgdata)] ∧ Q (queue, msg, msgdata) ∧
       cs = Open (Cur, file +:+ ":1,P") :: Enqueue queue :: cs' ∧
       Forall (λ c, ¬ is_enqueue c) cs').

(** The runner at work on the files [files]: one step for each file, in
    the order of the list, up to the end of the list or to some file of
    it; outside the steps no call is made and the switchboards receive
    nothing. *)
Inductive file_steps (Q : qdir * Message * gmap string pyval → Prop)
  : list string → World → World → Prop :=
  | steps_end files w w' :
      calls w' = calls w → queued w' = queued w →
      file_steps Q files w w'
  | steps_next file files w w1 w' :
      file_step Q file w w1 → file_steps Q files w1 w' →
      file_steps Q (file :: files) w w'.



(** ** More scenes for the examples *)

Module Scenes.

(** Another process creates the directory [d] just before our [n]-th
    call. *)
Definition creating (n : nat) (d : dir) : Env :=
  mkEnv (λ k fs, if bool_decide (k = n)
                 then match entries d fs with
                      | None => set_entries d ∅ fs
                      | Some _ => fs
                      end
                 else fs)
        (λ _, None) (λ _, None).

(** A maildir with cur/ and no new/. *)
Definition no_new : World := mkWorld (mkFS None (Some ∅)) [] [] [].

(** The three files of [Demo.three] in a maildir without cur/. *)
Definition no_cur : World :=
  mkWorld (mkFS (new (fs Demo.three)) None) [] [] [].

(** A base class whose cleanup fails, counting its calls. *)
Definition failing_super (n : nat) : result unit * nat :=
  (Raise (Exception "RuntimeError"), S n).

End Scenes.

(** * Properties *)

(** ** Letter case *)

Lemma lower_ascii_idemp c : lower_ascii (lower_ascii c) = lower_ascii c.
Proof. by destruct c as [[] [] [] [] [] [] [] []]. Qed.

Lemma is_delim_lower c : lre.is_delim (lower_ascii c) = lre.is_delim c.
Proof. by destruct c as [[] [] [] [] [] [] [] []]. Qed.

Lemma is_dash_lower c : lower_ascii c = "-"%char ↔ c = "-"%char.
Proof. destruct c as [[] [] [] [] [] [] [] []]; by split. Qed.

Lemma lower_idemp s : lower (lower s) = lower s.
Proof. induction s as [|c s IH]; simpl; [done|]. by rewrite lower_ascii_idemp, IH. Qed.

Lemma lower_app s1 s2 : lower (s1 +:+ s2) = lower s1 +:+ lower s2.
Proof. induction s1 as [|c s1 IH]; simpl; [done|]. by rewrite IH. Qed.

(** ** The pattern *)

Module lre_facts.
Import lre.

Lemma literal_split tok s m r :
  literal tok s = Some (m, r) → s = m +:+ r ∧ lower m = lower tok.
Proof.
  revert s m r. induction tok as [|a tok IH]; intros s m r; simpl.
  - by intros [= <- <-].
  - destruct s as [|c s]; [done|].
    case_bool_decide as Hc; [|done].
    destruct (literal tok s) as [[m' r']|] eqn:E; [|done].
    intros [= <- <-]. apply IH in E as [-> E]. simpl. by rewrite E, Hc.
Qed.

Lemma literal_lower tok s :
  literal tok (lower s) =
  match literal tok s with
  | Some (m, r) => Some (lower m, lower r)
  | None => None
  end.
Proof.
  revert s. induction tok as [|a tok IH]; intros s; simpl; [done|].
  destruct s as [|c s]; simpl; [done|].
  rewrite lower_ascii_idemp. case_bool_decide; [|done].
  rewrite IH. by destruct (literal tok s) as [[m r]|].
Qed.

Lemma alternatives_token toks s m :
  alternatives toks s = Some m → ∃ t, t ∈ toks ∧ lower m = lower t.
Proof.
  induction toks as [|t toks IH]; simpl; [done|].
  assert (alternatives toks s = Some m →
          ∃ t0, t0 ∈ t :: toks ∧ lower m = lower t0) as Hnext.
  { intros H. destruct (IH H) as (t' & ? & ?).
    exists t'. split; [by apply elem_of_cons; right|done]. }
  destruct (literal t s) as [[m' r]|] eqn:E; [|done].
  destruct r as [|c r]; [done|].
  destruct (is_delim c); [|done].
  intros [= <-]. apply literal_split in E as [_ E].
  exists t. split; [by apply elem_of_cons; left|done].
Qed.

Lemma alternatives_lower toks s :
  alternatives toks (lower s) = lower <$> alternatives toks s.
Proof.
  induction toks as [|t toks IH]; simpl; [done|].
  rewrite literal_lower. destruct (literal t s) as [[m r]|]; [|done].
  destruct r as [|c r]; simpl; [done|].
  rewrite is_delim_lower. by destruct (is_delim c).
Qed.

Lemma tail_lower s :
  tail (lower s) =
  match tail s with
  | Some subq => Some (lower <$> subq)
  | None => None
  end.
Proof.
  unfold tail. destruct s as [|c s]; [done|]. cbn [lower].
  rewrite is_delim_lower, alternatives_lower.
  destruct (decide (c = "-"%char)) as [->|Hc].
  - rewrite !bool_decide_eq_true_2 by done.
    by destruct (alternatives subq_tokens s).
  - rewrite !bool_decide_eq_false_2 by (by rewrite ?is_dash_lower).
    by destruct (is_delim c).
Qed.

Lemma more_lower s :
  more (lower s) =
  match more s with
  | Some (l, subq) => Some (lower l, lower <$> subq)
  | None => None
  end.
Proof.
  induction s as [|c s IH]; [done|].
  change (lower (String c s)) with (String (lower_ascii c) (lower s)).
  unfold more; fold more.
  change (String (lower_ascii c) (lower s)) with (lower (String c s)).
  rewrite tail_lower. destruct (tail (String c s)) as [subq|]; simpl; [done|].
  rewrite is_delim_lower. destruct (is_delim c); [done|].
  rewrite IH. by destruct (more s) as [[l subq]|].
Qed.

(** The search at work: the shortest listname wins, so a listname ending
    like a token is cut there; a token counts only right before [+] or
    [@]; the groups come back as written. *)
Example match_confirm :
  match_ "mylist-confirm@example.com" = Some ("mylist", Some "confirm").
Proof. reflexivity. Qed.

Example match_plain : match_ "mylist@example.com" = Some ("mylist", None).
Proof. reflexivity. Qed.

Example match_plus :
  match_ "mylist-unsubscribe+x@h" = Some ("mylist", Some "unsubscribe").
Proof. reflexivity. Qed.

Example match_shortest : match_ "x-join@h" = Some ("x", Some "join").
Proof. reflexivity. Qed.

Example match_two_tokens :
  match_ "x-join-leave+abc@example.com" = Some ("x-join", Some "leave").
Proof. reflexivity. Qed.

Example match_double_dash : match_ "a--join@h" = Some ("a-", Some "join").
Proof. reflexivity. Qed.

Example match_not_a_token : match_ "a-adminx@x" = Some ("a-adminx", None).
Proof. reflexivity. Qed.

Example match_token_then_dash :
  match_ "a-subscribe-@h" = Some ("a-subscribe-", None).
Proof. reflexivity. Qed.

Example match_leading_dash : match_ "-admin@x" = Some ("-admin", None).
Proof. reflexivity. Qed.

Example match_upper_token :
  match_ "mylist-BOUNCES@example.com" = Some ("mylist", Some "BOUNCES").
Proof. reflexivity. Qed.

Example match_upper_list :
  match_ "MYLIST-bounces@h" = Some ("MYLIST", Some "bounces").
Proof. reflexivity. Qed.

Example match_no_listname : match_ "@x" = None.
Proof. reflexivity. Qed.

Example match_no_delimiter : match_ "a-join" = None.
Proof. reflexivity. Qed.

(** The pattern ignores letter case: an address and its lower-case form
    match together, and give the same listname and sub-queue text up to
    letter case, each as written in the address matched. *)
Lemma match_lower to :
  match_ (lower to) =
  match match_ to with
  | Some (l, subq) => Some (lower l, lower <$> subq)
  | None => None
  end.
Proof.
  destruct to as [|c s]; simpl; [done|].
  rewrite is_delim_lower. destruct (is_delim c); [done|].
  rewrite more_lower. by destruct (more s) as [[l subq]|].
Qed.

Lemma tokens_lower t : t ∈ subq_tokens → lower t = t.
Proof.
  revert t. apply Forall_forall. unfold subq_tokens.
  repeat (constructor; [reflexivity|]). constructor.
Qed.

Lemma tail_token s t : tail s = Some (Some t) → lower t ∈ subq_tokens.
Proof.
  unfold tail. intros H.
  assert (∃ s', alternatives subq_tokens s' = Some t) as [s' Hs'].
  { destruct s as [|c s]; [done|].
    case_bool_decide.
    - destruct (alternatives subq_tokens s) eqn:E; [exists s; congruence|].
      by destruct (is_delim c).
    - by destruct (is_delim c). }
  apply alternatives_token in Hs' as (t' & Ht' & ->).
  by rewrite (tokens_lower t').
Qed.

Lemma more_token s l t : more s = Some (l, Some t) → lower t ∈ subq_tokens.
Proof.
  revert l. induction s as [|c s IH]; intros l.
  - done.
  - unfold more; fold more.
    destruct (tail (String c s)) as [subq|] eqn:E.
    + intros [= <- ->]. by eapply tail_token.
    + destruct (is_delim c); [done|].
      destruct (more s) as [[l' subq]|]; [|done].
      intros [= <- ->]. by eapply IH.
Qed.

(** The text of the [subq] group is one of the nine tokens up to letter
    case. *)
Lemma match_token to l t :
  match_ to = Some (l, Some t) → lower t ∈ subq_tokens.
Proof.
  destruct to as [|c s]; simpl; [done|].
  destruct (is_delim c); [done|].
  destruct (more s) as [[l' subq]|] eqn:E; [|done].
  intros [= <- ->]. by eapply more_token.
Qed.

End lre_facts.

(** ** Destination selector *)

Section SelectorFacts.

Variable OWNER_PIPELINE : list string.
Variable site_bounces : string.

Abbreviation select := (select OWNER_PIPELINE site_bounces).

Lemma select_listname listname subq :
  match select listname subq with
  | Some (_, msgdata) => msgdata !! "listname" = Some (VStr listname)
  | None => True
  end.
Proof.
  unfold select. repeat case_bool_decide; try done; by simplify_map_eq.
Qed.

Lemma select_token listname t :
  t ∈ lre.subq_tokens → is_Some (select listname (Some t)).
Proof.
  revert t. apply Forall_forall. unfold lre.subq_tokens.
  repeat (constructor; [by eexists|]). constructor.
Qed.

Lemma select_unknown listname subq :
  select listname subq = None ↔ ∃ t, subq = Some t ∧ t ∉ lre.subq_tokens.
Proof.
  split.
  - destruct subq as [t|]; [|done]. intros H. exists t. split; [done|].
    intros Ht. apply (select_token listname) in Ht as [? Ht]. congruence.
  - intros (t & -> & Ht). unfold select.
    repeat case_bool_decide; try done; exfalso; apply Ht;
      repeat match goal with
        | H : _ ∈ _ :: _ |- _ => apply elem_of_cons in H as [H|H]
        | H : _ ∈ [] |- _ => by apply elem_of_nil in H
        | H : Some _ = Some _ |- _ => injection H as ->
        end;
      by apply (bool_decide_unpack _).
Qed.

(** C2.  The selector is a function of [subq] alone (besides the listname
    it copies), defined on the nine tokens and on the absence of a token,
    with exactly the switchboard and the [msgdata] of the decision table;
    whatever it selects, [msgdata] carries the listname. *)
Theorem select_table listname :
  let base : gmap string pyval := {[ "listname" := VStr listname ]} in
  select listname (Some "bounces") = Some (BOUNCEQUEUE_DIR, base) ∧
  select listname (Some "admin") = Some (BOUNCEQUEUE_DIR, base) ∧
  select listname (Some "confirm") =
    Some (CMDQUEUE_DIR, <["toconfirm" := VInt 1]> base) ∧
  select listname (Some "join") =
    Some (CMDQUEUE_DIR, <["tojoin" := VInt 1]> base) ∧
  select listname (Some "subscribe") =
    Some (CMDQUEUE_DIR, <["tojoin" := VInt 1]> base) ∧
  select listname (Some "leave") =
    Some (CMDQUEUE_DIR, <["toleave" := VInt 1]> base) ∧
  select listname (Some "unsubscribe") =
    Some (CMDQUEUE_DIR, <["toleave" := VInt 1]> base) ∧
  select listname (Some "owner") =
    Some (INQUEUE_DIR,
          <["toowner" := VInt 1]>
            (<["envsender" := VStr site_bounces]>
               (<["pipeline" := VList OWNER_PIPELINE]> base))) ∧
  select listname None = Some (INQUEUE_DIR, <["tolist" := VInt 1]> base) ∧
  select listname (Some "request") =
    Some (CMDQUEUE_DIR, <["torequest" := VInt 1]> base) ∧
  Forall (λ t, is_Some (select listname (Some t))) lre.subq_tokens ∧
  ∀ subq,
    match select listname subq with
    | Some (_, msgdata) => msgdata !! "listname" = Some (VStr listname)
    | None => True
    end.
Proof.
  intros base. split_and!; try reflexivity.
  - apply Forall_forall. intros t. apply select_token.
  - apply select_listname.
Qed.

End SelectorFacts.

(** ** Recipient router *)

Lemma get_all_values msg name :
  get_all msg name [] =
  (filter (λ kv : string * string, lower kv.1 = lower name) msg).*2.
Proof. unfold get_all. by destruct (_.*2). Qed.

Lemma header_values_order msg :
  header_values msg =
  get_all msg "delivered-to" [] ++ get_all msg "envelope-to" [] ++
  get_all msg "apparently-to" [].
Proof. unfold header_values. simpl. by rewrite <- app_assoc. Qed.

Section RouterFacts.

Variable parseaddr : string → string * string.
Variable listnames : list string.

Abbreviation route := (route parseaddr listnames).
Abbreviation accepts := (accepts parseaddr listnames).

Lemma accepts_dec field :
  (∃ r, accepts field r) ∨ (∀ r, ¬ accepts field r).
Proof.
  unfold accepts.
  destruct (decide ((parseaddr field).2 = EmptyString)) as [E|E];
    [right; by intros r (H & _)|].
  destruct (lre.match_ (parseaddr field).2) as [r|] eqn:Hm;
    [|right; by intros r (_ & H & _)].
  destruct (decide (r.1 ∈ listnames)).
  - left. by exists r.
  - right. by intros r' (_ & [= <-] & ?).
Qed.

Lemma route_cons_accepts field vals r :
  accepts field r → route (field :: vals) = Some r.
Proof.
  intros (Hto & Hm & Hl). simpl.
  rewrite bool_decide_eq_false_2 by done. rewrite Hm. destruct r as [l subq].
  by rewrite bool_decide_eq_true_2.
Qed.

Lemma route_cons_rejects field vals :
  (∀ r, ¬ accepts field r) → route (field :: vals) = route vals.
Proof.
  intros Hno. simpl. case_bool_decide as Hto; [done|].
  destruct (lre.match_ (parseaddr field).2) as [[l subq]|] eqn:Hm; [|done].
  case_bool_decide as Hl; [|done]. by destruct (Hno (l, subq)).
Qed.

Lemma route_None vals :
  route vals = None ↔ ∀ field r, field ∈ vals → ¬ accepts field r.
Proof.
  induction vals as [|field vals IH].
  - split; [|done]. intros _ field r H. by apply elem_of_nil in H.
  - destruct (accepts_dec field) as [[r Hr]|Hno].
    + rewrite (route_cons_accepts _ _ _ Hr). split; [done|].
      intros H. destruct (H field r); [by left|done].
    + rewrite (route_cons_rejects _ _ Hno), IH. split.
      * intros H f r [->|Hf]%elem_of_cons; [apply Hno|by apply H].
      * intros H f r Hf. apply H. by right.
Qed.

Lemma route_Some vals r :
  route vals = Some r ↔
  ∃ i field, vals !! i = Some field ∧ accepts field r ∧
    ∀ j field' r', j < i → vals !! j = Some field' → ¬ accepts field' r'.
Proof.
  induction vals as [|field vals IH].
  - split; [done|]. by intros (i & f & Hi & _).
  - destruct (accepts_dec field) as [[r0 Hr0]|Hno].
    + rewrite (route_cons_accepts _ _ _ Hr0). split.
      * intros [= <-]. exists 0, field. split; [done|]. split; [done|]. lia.
      * intros (i & f & Hi & Hacc & Hbefore). destruct i as [|i].
        -- injection Hi as <-. destruct Hr0 as (_ & Hm0 & _).
           destruct Hacc as (_ & Hm & _). congruence.
        -- destruct (Hbefore 0 field r0); [lia|done|done].
    + rewrite (route_cons_rejects _ _ Hno), IH. split.
      * intros (i & f & Hi & Hacc & Hbefore). exists (S i), f.
        split; [done|]. split; [done|].
        intros [|j] f' r' Hj Hf'; [injection Hf' as <-; apply Hno|].
        apply (Hbefore j); [lia|done].
      * intros (i & f & Hi & Hacc & Hbefore). destruct i as [|i].
        -- injection Hi as <-. by destruct (Hno r).
        -- exists i, f. split; [done|]. split; [done|].
           intros j f' r' Hj Hf'. apply (Hbefore (S j)); [lia|done].
Qed.

End RouterFacts.

(** ** The maildir *)

Lemma at_path_set_entries p d m fs :
  at_path p (set_entries d m fs) =
  if decide (p.1 = d) then m !! p.2 else at_path p fs.
Proof.
  destruct p as [d' n]. unfold at_path, set_entries. simpl.
  destruct d, d'; by case_decide.
Qed.

Lemma entries_set_entries d' d m fs :
  entries d' (set_entries d m fs) =
  if decide (d' = d) then Some m else entries d' fs.
Proof. destruct d, d'; by case_decide. Qed.

Lemma at_path_entries p fs m :
  entries p.1 fs = Some m → at_path p fs = m !! p.2.
Proof. unfold at_path. by intros ->. Qed.

(** What a rename that goes through does: the file of the source is at
    the target; the source is gone unless it was a second link to the
    file of the target; every other path is as before, and no directory
    appears or disappears. *)

Lemma fs_rename_ok src dst fs fs' :
  fs_rename src dst fs = inr (tt, fs') →
  ∃ f, at_path src fs = Some f ∧
    (∀ p, at_path p fs' =
          if decide (p = dst) then Some f
          else if decide (p = src) then
                 if decide (at_path dst fs = Some f) then Some f else None
               else at_path p fs) ∧
    (∀ d, is_Some (entries d fs') ↔ is_Some (entries d fs)).
Proof.
  destruct src as [sd sn], dst as [dd dn]. unfold fs_rename. simpl.
  destruct (entries sd fs) as [ms|] eqn:Es; [|done].
  destruct (ms !! sn) as [f|] eqn:Ef; [|done].
  assert (at_path (sd, sn) fs = Some f) as Hsrc
    by by rewrite (at_path_entries (sd, sn) _ _ Es).
  destruct (decide (at_path (dd, dn) fs = Some f)) as [Hlink|Hlink].
  { intros [= <-]. exists f. split_and!; try done.
    intros p. repeat case_decide; by subst. }
  rewrite entries_set_entries.
  destruct (decide (dd = sd)) as [->|Ed].
  - intros [= <-]. exists f. split_and!.
    + done.
    + intros [pd pn]. rewrite !at_path_set_entries. simpl.
      destruct (decide (pd = sd)) as [->|Hd].
      * rewrite (at_path_entries (sd, pn) _ _ Es). simpl.
        destruct (decide (pn = dn)) as [->|]; [by simplify_map_eq|].
        rewrite decide_False by congruence.
        destruct (decide (pn = sn)) as [->|]; [by simplify_map_eq|].
        rewrite decide_False by congruence. by simplify_map_eq.
      * rewrite !decide_False by congruence. done.
    + intros d. rewrite !entries_set_entries.
      repeat case_decide; subst; rewrite ?Es; split; by eauto.
  - destruct (entries dd fs) as [md|] eqn:Ed'; [|done].
    intros [= <-]. exists f. split_and!.
    + done.
    + intros [pd pn]. rewrite !at_path_set_entries. simpl.
      destruct (decide (pd = dd)) as [->|Hd].
      * rewrite (decide_False (P:=(dd, pn) = (sd, sn))) by congruence.
        destruct (decide (pn = dn)) as [->|]; [by simplify_map_eq|].
        rewrite decide_False by congruence.
        rewrite (at_path_entries (dd, pn) _ _ Ed'). by simplify_map_eq.
      * rewrite (decide_False (P:=(pd, pn) = (dd, dn))) by congruence.
        destruct (decide (pd = sd)) as [->|Hs].
        -- rewrite (at_path_entries (sd, pn) _ _ Es). simpl.
           destruct (decide (pn = sn)) as [->|]; [by simplify_map_eq|].
           rewrite decide_False by congruence. by simplify_map_eq.
        -- rewrite decide_False by congruence. done.
    + intros d. rewrite !entries_set_entries.
      repeat case_decide; subst; rewrite ?Es, ?Ed'; split; by eauto.
Qed.

(** Either nothing was done, or the file has moved. *)
Lemma fs_rename_cases src dst fs fs' :
  fs_rename src dst fs = inr (tt, fs') →
  ∃ f, at_path src fs = Some f ∧
    ((fs' = fs ∧ at_path dst fs = Some f) ∨
     (at_path dst fs ≠ Some f ∧
      ∀ p, at_path p fs' =
           if decide (p = dst) then Some f
           else if decide (p = src) then None else at_path p fs)).
Proof.
  intros H. pose proof H as (f & Hf & Hat & _)%fs_rename_ok.
  exists f. split; [done|].
  destruct (decide (at_path dst fs = Some f)) as [Hl|Hl]; [left|by right].
  split; [|done]. revert H. unfold fs_rename.
  destruct (entries src.1 fs) as [ms|] eqn:Es; [|done].
  destruct (ms !! src.2) as [f'|] eqn:Ef; [|done].
  assert (f' = f) as ->.
  { unfold at_path in Hf. rewrite Es in Hf. simpl in Hf. congruence. }
  rewrite decide_True by done. by intros [= <-].
Qed.

(** After a rename the target holds the file of the source; the paths
    that are neither source nor target are as before. *)
Lemma fs_rename_target src dst fs fs' f :
  fs_rename src dst fs = inr (tt, fs') → at_path src fs = Some f →
  at_path dst fs' = Some f.
Proof.
  intros (f' & Hf & Hat & _)%fs_rename_ok Hsrc.
  rewrite Hat, decide_True by done. congruence.
Qed.

Lemma fs_rename_frame src dst fs fs' p :
  fs_rename src dst fs = inr (tt, fs') → p ≠ src → p ≠ dst →
  at_path p fs' = at_path p fs.
Proof.
  intros (f & _ & Hat & _)%fs_rename_ok Hs Hd.
  by rewrite Hat, !decide_False.
Qed.

(** The source is vacated when the target was no link to its file. *)
Lemma fs_rename_source src dst fs fs' f :
  fs_rename src dst fs = inr (tt, fs') → at_path src fs = Some f →
  src ≠ dst → at_path dst fs ≠ Some f → at_path src fs' = None.
Proof.
  intros (f' & Hf & Hat & _)%fs_rename_ok Hsrc Hne Hdst.
  assert (f' = f) as -> by congruence.
  by rewrite Hat, decide_False, decide_True, decide_False.
Qed.

(** A rename fails in the maildir with [ENOENT] only: the source or the
    directory of the target is missing. *)
Lemma fs_rename_err src dst fs e :
  fs_rename src dst fs = inl e →
  e = ENOENT ∧ (at_path src fs = None ∨ entries dst.1 fs = None).
Proof.
  unfold fs_rename.
  destruct (entries src.1 fs) as [ms|] eqn:Es.
  2: { intros [= <-]. split; [done|]. left. unfold at_path. by rewrite Es. }
  destruct (ms !! src.2) as [f|] eqn:Ef.
  2: { intros [= <-]. split; [done|]. left. unfold at_path. by rewrite Es. }
  case_decide; [done|].
  rewrite entries_set_entries. case_decide as Ed; [done|].
  destruct (entries dst.1 fs); [done|]. intros [= <-]. by auto.
Qed.

Lemma fs_unlink_ok p fs fs' :
  fs_unlink p fs = inr (tt, fs') →
  (∀ q, at_path q fs' = if decide (q = p) then None else at_path q fs) ∧
  (∀ d, is_Some (entries d fs') ↔ is_Some (entries d fs)).
Proof.
  destruct p as [pd pn]. unfold fs_unlink. simpl.
  destruct (entries pd fs) as [m|] eqn:Em; [|done].
  destruct (m !! pn) as [f|] eqn:Ef; [|done].
  intros [= <-]. split.
  - intros [qd qn]. rewrite at_path_set_entries. simpl.
    destruct (decide (qd = pd)) as [->|Hd].
    + rewrite (at_path_entries (pd, qn) _ _ Em). simpl.
      destruct (decide (qn = pn)) as [->|]; [by simplify_map_eq|].
      rewrite decide_False by congruence. by simplify_map_eq.
    + by rewrite decide_False by congruence.
  - intros d. rewrite entries_set_entries.
    case_decide; subst; rewrite ?Em; split; by eauto.
Qed.

Lemma fs_unlink_err p fs e :
  fs_unlink p fs = inl e → e = ENOENT ∧ at_path p fs = None.
Proof.
  unfold fs_unlink, at_path.
  destruct (entries p.1 fs) as [m|]; simpl; [|by intros [= <-]].
  destruct (m !! p.2); [done|]. by intros [= <-].
Qed.

Lemma fs_open_ok p fs f fs' :
  fs_open p fs = inr (f, fs') → fs' = fs ∧ at_path p fs = Some f.
Proof.
  unfold fs_open. destruct (at_path p fs); [|done]. by intros [= <- <-].
Qed.

Lemma fs_listdir_ok d fs files fs' :
  fs_listdir d fs = inr (files, fs') →
  fs' = fs ∧ NoDup files ∧
  ∀ name, name ∈ files ↔ is_Some (at_path (d, name) fs).
Proof.
  unfold fs_listdir, at_path. simpl.
  destruct (entries d fs) as [m|]; [|done]. intros [= <- <-].
  split; [done|]. split; [apply NoDup_fst_map_to_list|].
  intros name. simpl. rewrite list_elem_of_fmap. split.
  - intros ([n f] & -> & H%elem_of_map_to_list). by eexists.
  - intros [f Hf]. exists (name, f). by rewrite elem_of_map_to_list.
Qed.

Lemma fs_listdir_err d fs e :
  fs_listdir d fs = inl e → e = ENOENT ∧ entries d fs = None.
Proof.
  unfold fs_listdir. destruct (entries d fs); [done|]. by intros [= <-].
Qed.


(** Renaming and unlinking never link a file twice. *)
Lemma linked_once_rename fv src dst fs fs' :
  fs_rename src dst fs = inr (tt, fs') → linked_once fv fs → linked_once fv fs'.
Proof.
  intros (f & Hf & [[-> _]|[_ Hat]])%fs_rename_cases Hu p q; [by apply Hu|].
  rewrite !Hat.
  destruct (decide (p = dst)) as [->|Hp], (decide (q = dst)) as [->|Hq];
    try done.
  - intros [= ->]. destruct (decide (q = src)) as [->|Hqs]; [done|].
    intros Hq'. destruct Hqs. by apply Hu.
  - destruct (decide (p = src)) as [->|Hps]; [done|].
    intros Hp' [= ->]. destruct Hps. by apply Hu.
  - destruct (decide (p = src)); [done|]. destruct (decide (q = src)); [done|].
    apply Hu.
Qed.

Lemma gone_rename fv src dst fs fs' :
  fs_rename src dst fs = inr (tt, fs') → gone fv fs → gone fv fs'.
Proof.
  intros (f & Hf & [[-> _]|[_ Hat]])%fs_rename_cases Hg p; [by apply Hg|].
  rewrite Hat.
  repeat case_decide; try done. intros [= ->]. by apply (Hg src).
Qed.

Lemma gone_unlink fv p fs fs' :
  fs_unlink p fs = inr (tt, fs') → gone fv fs → gone fv fs'.
Proof.
  intros [Hat _]%fs_unlink_ok Hg q. rewrite Hat. by case_decide.
Qed.

Lemma linked_once_unlink fv p fs fs' :
  fs_unlink p fs = inr (tt, fs') → linked_once fv fs → linked_once fv fs'.
Proof.
  intros [Hat _]%fs_unlink_ok Hu q1 q2. rewrite !Hat.
  repeat case_decide; try done. apply Hu.
Qed.


(** ** File names *)

Lemma app_empty t : "" +:+ t = t.
Proof. done. Qed.

Lemma app_String c s t : String c s +:+ t = String c (s +:+ t).
Proof. done. Qed.

Lemma length_app s t :
  String.length (s +:+ t) = String.length s + String.length t.
Proof.
  induction s as [|c s IH]; [done|].
  rewrite app_String. simpl. by rewrite IH.
Qed.

Lemma app_inj_len s1 s2 t1 t2 :
  String.length t1 = String.length t2 →
  s1 +:+ t1 = s2 +:+ t2 → s1 = s2 ∧ t1 = t2.
Proof.
  intros Hlen. revert s2. induction s1 as [|c s1 IH]; intros [|c' s2];
    rewrite ?app_empty, ?app_String.
  - done.
  - intros ->. simpl in Hlen. rewrite length_app in Hlen. lia.
  - intros <-. simpl in Hlen. rewrite length_app in Hlen. lia.
  - intros [= -> H]. by destruct (IH _ H) as [-> ->].
Qed.

(** The in-progress and quarantine names of different files never
    coincide, and no in-progress name is a quarantine name. *)
Lemma suffix_inj s1 s2 t : s1 +:+ t = s2 +:+ t → s1 = s2.
Proof. intros H. by apply app_inj_len in H as [-> _]. Qed.

Lemma suffix_P_X s1 s2 : s1 +:+ ":1,P" ≠ s2 +:+ ":1,X".
Proof. intros H. by apply app_inj_len in H as [_ ?]. Qed.

Lemma paths_of_new file : (New, file) ∈ paths_of file.
Proof. apply elem_of_cons. by left. Qed.

Lemma paths_of_P file : (Cur, file +:+ ":1,P") ∈ paths_of file.
Proof. apply elem_of_cons. right. apply elem_of_cons. by left. Qed.

Lemma paths_of_X file : (Cur, file +:+ ":1,X") ∈ paths_of file.
Proof. do 2 (apply elem_of_cons; right). apply elem_of_cons. by left. Qed.

(** The paths of different files are different. *)
Lemma paths_of_disjoint f g p : f ≠ g → p ∈ paths_of f → p ∉ paths_of g.
Proof.
  unfold paths_of. intros Hfg Hf Hg.
  repeat match goal with
    | H : _ ∈ _ :: _ |- _ => apply elem_of_cons in H as [H|H]
    | H : _ ∈ [] |- _ => by apply elem_of_nil in H
    end; subst; try done; injection Hg as Hg;
    first [by apply suffix_inj in Hg
          |by apply suffix_P_X in Hg
          |by symmetry in Hg; apply suffix_P_X in Hg
          |done].
Qed.

(** ** State and exceptions *)

Lemma bind_eq {A B} (m : M A) (f : A → M B) w :
  (m ≫= f) w =
  match m w with
  | (Ok a, w') => f a w'
  | (Raise e, w') => (Raise e, w')
  end.
Proof. done. Qed.

Lemma try_except_eq {A} (m : M A) (h : exn → M A) w :
  try_except m h w =
  match m w with
  | (Raise e, w') => h e w'
  | (Ok a, w') => (Ok a, w')
  end.
Proof. unfold try_except. by destruct (m w) as [[a|e] w']. Qed.

Lemma grows_by_refl P w : grows_by P w w.
Proof. exists [], [], []. by rewrite !app_nil_r. Qed.

Lemma grows_by_trans P w1 w2 w3 :
  grows_by P w1 w2 → grows_by P w2 w3 → grows_by P w1 w3.
Proof.
  intros (cs & l & q & Hc & HP & Hl & Hq) (cs' & l' & q' & Hc' & HP' & Hl' & Hq').
  exists (cs ++ cs'), (l ++ l'), (q ++ q').
  rewrite Hc', Hl', Hq', Hc, Hl, Hq, !app_assoc.
  split_and!; try done. by apply Forall_app.
Qed.

Lemma grows_by_weaken (P Q : call → Prop) w w' :
  (∀ c, P c → Q c) → grows_by P w w' → grows_by Q w w'.
Proof.
  intros HPQ (cs & l & q & Hc & HP & Hl & Hq). exists cs, l, q.
  split_and!; try done. eapply Forall_impl; eauto.
Qed.

Lemma fs_confined_refl name fv ps fs : fs_confined name fv ps fs fs.
Proof. by split_and!. Qed.

Lemma fs_confined_trans name fv ps fs1 fs2 fs3 :
  fs_confined name fv ps fs1 fs2 → fs_confined name fv ps fs2 fs3 →
  fs_confined name fv ps fs1 fs3.
Proof.
  intros (Hat & Hu & Hg) (Hat' & Hu' & Hg'). split_and!.
  - intros p Hp Hps. by rewrite Hat', Hat.
  - intros H. by apply Hu', Hu.
  - intros H. by apply Hg', Hg.
Qed.

Lemma fs_confined_weaken name fv ps qs fs fs' :
  ps ⊆ qs → fs_confined name fv ps fs fs' → fs_confined name fv qs fs fs'.
Proof.
  intros Hsub (Hat & Hu & Hg). split_and!; try done.
  intros p Hp Hq. apply Hat; [done|]. intros Hin. apply Hq. by apply Hsub.
Qed.

Lemma fs_confined_rename name fv ps src dst fs fs' :
  src ∈ ps → dst ∈ ps →
  fs_rename src dst fs = inr (tt, fs') → fs_confined name fv ps fs fs'.
Proof.
  intros Hs Hd E. split_and!.
  - apply fs_rename_ok in E as (f & _ & Hat & _). intros p _ Hp.
    rewrite Hat, !decide_False; [done|..]; by intros ->.
  - by apply (linked_once_rename _ _ _ _ _ E).
  - by apply (gone_rename _ _ _ _ _ E).
Qed.

Lemma fs_confined_unlink name fv ps p fs fs' :
  p ∈ ps → fs_unlink p fs = inr (tt, fs') → fs_confined name fv ps fs fs'.
Proof.
  intros Hp E. split_and!.
  - apply fs_unlink_ok in E as [Hat _]. intros q _ Hq.
    rewrite Hat, decide_False; [done|]. by intros ->.
  - by apply (linked_once_unlink _ _ _ _ E).
  - by apply (gone_unlink _ _ _ _ E).
Qed.

Section Compose.

Context {A B : Type}.
Variable R : World → World → Prop.
Hypothesis R_refl : ∀ w, R w w.
Hypothesis R_trans : ∀ w1 w2 w3, R w1 w2 → R w2 w3 → R w1 w3.

(** A reflexive and transitive relation between the world before and
    after that holds for the parts holds for what is built from them. *)
Lemma step_ret (a : A) w : R w ((mret a : M A) w).2.
Proof. apply R_refl. Qed.

Lemma step_raise (e : exn) w : R w ((raise e : M A) w).2.
Proof. apply R_refl. Qed.

Lemma step_bind (m : M A) (f : A → M B) :
  (∀ w, R w (m w).2) → (∀ a w, R w (f a w).2) → ∀ w, R w ((m ≫= f) w).2.
Proof.
  intros Hm Hf w. rewrite bind_eq. specialize (Hm w).
  destruct (m w) as [[a|e] w']; simpl in *; [|done].
  eapply R_trans; [done|apply Hf].
Qed.

Lemma step_try (m : M A) (h : exn → M A) :
  (∀ w, R w (m w).2) → (∀ e w, R w (h e w).2) →
  ∀ w, R w (try_except m h w).2.
Proof.
  intros Hm Hh w. rewrite try_except_eq. specialize (Hm w).
  destruct (m w) as [[a|e] w']; simpl in *; [done|].
  eapply R_trans; [done|apply Hh].
Qed.

End Compose.


(** ** The calls *)

Section CallFacts.

Variable env : Env.

(** What a call of [os] can do: it is recorded; it returns when no fault
    strikes and the maildir allows it; otherwise it raises [OSError] and
    leaves the maildir as it found it. *)
Lemma os_call_inv {A} c (op : FS → errno + (A * FS)) w r w' :
  os_call env c op w = (r, w') →
  let n := length (calls w) in
  let fs1 := interfere env n (fs w) in
  log w' = log w ∧ queued w' = queued w ∧ calls w' = calls w ++ [c] ∧
  match r with
  | Ok a => os_fault env n = None ∧ op fs1 = inr (a, fs w')
  | Raise e =>
      fs w' = fs1 ∧
      ∃ en, e = OSError en ∧
        ((∃ f, os_fault env n = Some f ∧ en = errno_of f) ∨
         (os_fault env n = None ∧ op fs1 = inl en))
  end.
Proof.
  unfold os_call, enter. simpl.
  destruct (os_fault env (length (calls w))) as [f|] eqn:Ef.
  - intros [= <- <-]. simpl. split_and!; try done.
    exists (errno_of f). split; [done|]. left. by exists f.
  - destruct (op (interfere env (length (calls w)) (fs w)))
      as [en|[a fs2]] eqn:Eop.
    + intros [= <- <-]. simpl. split_and!; try done.
      exists en. split; [done|]. by right.
    + intros [= <- <-]. by simpl.
Qed.

Lemma lib_call_inv c w r w' :
  lib_call env c w = (r, w') →
  let n := length (calls w) in
  log w' = log w ∧ queued w' = queued w ∧ calls w' = calls w ++ [c] ∧
  fs w' = interfere env n (fs w) ∧
  r = match lib_fault env n with Some e => Raise e | None => Ok tt end.
Proof.
  unfold lib_call, enter. simpl.
  destruct (lib_fault env (length (calls w))); by intros [= <- <-].
Qed.

Lemma os_path_exists_inv d w r w' :
  os_path_exists env d w = (r, w') →
  let n := length (calls w) in
  log w' = log w ∧ queued w' = queued w ∧ calls w' = calls w ++ [Exists d] ∧
  fs w' = interfere env n (fs w) ∧
  ∃ b, r = Ok b ∧ (b = true → is_Some (entries d (fs w'))) ∧
    (os_fault env n = None → b = false → entries d (fs w') = None).
Proof.
  unfold os_path_exists, enter. simpl.
  destruct (os_fault env (length (calls w))).
  - intros [= <- <-]. simpl. split_and!; try done. by exists false.
  - intros [= <- <-]. simpl. split_and!; try done.
    eexists. split; [done|]. split.
    + by intros ?%bool_decide_eq_true.
    + intros _ H%bool_decide_eq_false. by apply eq_None_not_Some.
Qed.

(** *** Growth of history, log and switchboards *)

Lemma emits_os_call {A} (P : call → Prop) c (op : FS → errno + (A * FS)) :
  P c → emits P (os_call env c op).
Proof.
  intros HP w. destruct (os_call env c op w) as [r w'] eqn:E.
  apply os_call_inv in E as (Hl & Hq & Hc & _). simpl.
  exists [c], [], []. rewrite Hl, Hq, Hc, !app_nil_r.
  split_and!; try done. by constructor.
Qed.

Lemma emits_lib_call (P : call → Prop) c : P c → emits P (lib_call env c).
Proof.
  intros HP w. destruct (lib_call env c w) as [r w'] eqn:E.
  apply lib_call_inv in E as (Hl & Hq & Hc & _). simpl.
  exists [c], [], []. rewrite Hl, Hq, Hc, !app_nil_r.
  split_and!; try done. by constructor.
Qed.

Lemma emits_os_path_exists (P : call → Prop) d :
  P (Exists d) → emits P (os_path_exists env d).
Proof.
  intros HP w. destruct (os_path_exists env d w) as [r w'] eqn:E.
  apply os_path_exists_inv in E as (Hl & Hq & Hc & _). simpl.
  exists [Exists d], [], []. rewrite Hl, Hq, Hc, !app_nil_r.
  split_and!; try done. by constructor.
Qed.

Lemma emits_syslog (P : call → Prop) entry : emits P (syslog entry).
Proof. intros w. exists [], [entry], []. by rewrite !app_nil_r. Qed.

Lemma emits_store (P : call → Prop) q msg msgdata :
  emits P (store q msg msgdata).
Proof. intros w. exists [], [], [(q, msg, msgdata)]. by rewrite !app_nil_r. Qed.

Lemma emits_ret {A} (P : call → Prop) (a : A) : emits P (mret a : M A).
Proof. intros w. apply grows_by_refl. Qed.

Lemma emits_raise {A} (P : call → Prop) e : emits P (raise e : M A).
Proof. intros w. apply grows_by_refl. Qed.

Lemma emits_bind {A B} (P : call → Prop) (m : M A) (f : A → M B) :
  emits P m → (∀ a, emits P (f a)) → emits P (m ≫= f).
Proof.
  intros Hm Hf. unfold emits.
  apply (step_bind (grows_by P)); [apply grows_by_trans|done|].
  intros a w. apply Hf.
Qed.

Lemma emits_try {A} (P : call → Prop) (m : M A) (h : exn → M A) :
  emits P m → (∀ e, emits P (h e)) → emits P (try_except m h).
Proof.
  intros Hm Hh. unfold emits.
  apply (step_try (grows_by P)); [apply grows_by_trans|done|].
  intros e w. apply Hh.
Qed.

(** *** The maildir when the others leave a file alone *)

Section Alone.

Variable k : nat.
Variable name : string.
Variable fv : mailfile.
Hypothesis alone : alone_from env k name fv.

Lemma after_refl ps w : after k name fv ps w w.
Proof. intros Hk. split; [done|apply fs_confined_refl]. Qed.

Lemma after_trans ps w1 w2 w3 :
  after k name fv ps w1 w2 → after k name fv ps w2 w3 →
  after k name fv ps w1 w3.
Proof.
  intros H1 H2 Hk. destruct (H1 Hk) as [Hk2 Hc1].
  destruct (H2 Hk2) as [Hk3 Hc2]. split; [done|].
  by eapply fs_confined_trans.
Qed.

Lemma after_weaken ps qs w w' :
  ps ⊆ qs → after k name fv ps w w' → after k name fv qs w w'.
Proof.
  intros Hsub H Hk. destruct (H Hk) as [Hk' Hc]. split; [done|].
  by eapply fs_confined_weaken.
Qed.

Lemma fs_confined_interfere n fs ps :
  k ≤ n → fs_confined name fv ps fs (interfere env n fs).
Proof.
  intros Hn. destruct (alone n fs Hn) as (Hat & Hu & Hg).
  split_and!; try done. intros p Hp _. by apply Hat.
Qed.

Lemma confined_os_call {A} c (op : FS → errno + (A * FS)) ps :
  (∀ fs a fs', op fs = inr (a, fs') → fs_confined name fv ps fs fs') →
  confined k name fv ps (os_call env c op).
Proof.
  intros Hop w Hk. destruct (os_call env c op w) as [r w'] eqn:E.
  apply os_call_inv in E as (_ & _ & Hc & E). simpl in *.
  split; [rewrite Hc, List.length_app; lia|].
  eapply fs_confined_trans; [by apply fs_confined_interfere|].
  destruct r as [a|e].
  - destruct E as [_ E]. by eapply Hop.
  - destruct E as [-> _]. apply fs_confined_refl.
Qed.

Lemma confined_rename src dst ps :
  src ∈ ps → dst ∈ ps → confined k name fv ps (os_rename env src dst).
Proof.
  intros Hs Hd. apply confined_os_call. intros fs [] fs'.
  by apply fs_confined_rename.
Qed.

Lemma confined_unlink p ps :
  p ∈ ps → confined k name fv ps (os_unlink env p).
Proof.
  intros Hp. apply confined_os_call. intros fs [] fs'.
  by apply fs_confined_unlink.
Qed.

Lemma confined_open p ps :
  confined k name fv ps (os_call env (Open p) (fs_open p)).
Proof.
  apply confined_os_call. intros fs f fs' [-> _]%fs_open_ok.
  apply fs_confined_refl.
Qed.

Lemma confined_listdir d ps : confined k name fv ps (os_listdir env d).
Proof.
  apply confined_os_call. intros fs l fs' [-> _]%fs_listdir_ok.
  apply fs_confined_refl.
Qed.

Lemma confined_lib_call c ps : confined k name fv ps (lib_call env c).
Proof.
  intros w Hk. destruct (lib_call env c w) as [r w'] eqn:E.
  apply lib_call_inv in E as (_ & _ & Hc & E & _). simpl.
  split; [rewrite Hc, List.length_app; lia|].
  rewrite E. by apply fs_confined_interfere.
Qed.

Lemma confined_pure {A} (m : M A) ps :
  (∀ w, fs (m w).2 = fs w ∧ calls (m w).2 = calls w) →
  confined k name fv ps m.
Proof.
  intros H w Hk. destruct (H w) as [-> ->]. split; [done|].
  apply fs_confined_refl.
Qed.

Lemma confined_bind {A B} ps (m : M A) (f : A → M B) :
  confined k name fv ps m → (∀ a, confined k name fv ps (f a)) →
  confined k name fv ps (m ≫= f).
Proof.
  intros Hm Hf. unfold confined.
  apply (step_bind (after k name fv ps));
    [intros w1 w2 w3; apply after_trans|done|].
  intros a w. apply Hf.
Qed.

Lemma confined_try {A} ps (m : M A) (h : exn → M A) :
  confined k name fv ps m → (∀ e, confined k name fv ps (h e)) →
  confined k name fv ps (try_except m h).
Proof.
  intros Hm Hh. unfold confined.
  apply (step_try (after k name fv ps));
    [intros w1 w2 w3; apply after_trans|done|].
  intros e w. apply Hh.
Qed.



End Alone.

Lemma quiet_alone k name fv : quiet env → alone_from env k name fv.
Proof. intros Hq n fs _. by rewrite Hq. Qed.

End CallFacts.


(** ** The runner *)

Section RunnerFacts.

Import MaildirRunner.

Variable parseaddr : string → string * string.
Variable OWNER_PIPELINE : list string.
Variable site_bounces : string.
Variable env : Env.
Variable listnames : list string.

Abbreviation process :=
  (process parseaddr OWNER_PIPELINE site_bounces env listnames).
Abbreviation claim := (claim env).
Abbreviation quarantine := (quarantine env).
Abbreviation one_file :=
  (one_file parseaddr OWNER_PIPELINE site_bounces env listnames).
Abbreviation for_files :=
  (for_files parseaddr OWNER_PIPELINE site_bounces env listnames).
Abbreviation _oneloop :=
  (_oneloop parseaddr OWNER_PIPELINE site_bounces env listnames).

Abbreviation claimed file :=
  (claimed parseaddr OWNER_PIPELINE site_bounces env listnames file
     (Cur, file +:+ ":1,P") (Cur, file +:+ ":1,X")).

(** *** Equations of the control flow *)

Lemma os_rename_raises src dst w e w' :
  os_rename env src dst w = (Raise e, w') → ∃ en, e = OSError en.
Proof. intros (_ & _ & _ & _ & en & -> & _)%os_call_inv. by exists en. Qed.

Lemma claim_eq src dst w :
  claim src dst w =
  match os_rename env src dst w with
  | (Ok _, w1) => (Ok true, w1)
  | (Raise (OSError en), w1) =>
      if decide (en = ENOENT) then (Ok false, w1)
      else (Raise (OSError en), add_log (claim_error src) w1)
  | (Raise e, w1) => (Raise e, w1)
  end.
Proof.
  unfold MaildirRunner.claim. rewrite try_except_eq, bind_eq.
  destruct (os_rename env src dst w) as [[[]|[en|cls]] w1]; try done.
  by destruct en.
Qed.

Lemma one_file_eq file w :
  one_file file w =
  match os_rename env (New, file) (Cur, file +:+ ":1,P") w with
  | (Ok _, w1) => claimed file w1
  | (Raise (OSError en), w1) =>
      if decide (en = ENOENT) then (Ok tt, w1)
      else (Raise (OSError en), add_log (claim_error (New, file)) w1)
  | (Raise e, w1) => (Raise e, w1)
  end.
Proof.
  unfold MaildirRunner.one_file. rewrite bind_eq, claim_eq.
  destruct (os_rename env _ _ w) as [[[]|[en|cls]] w1]; try done.
  by case_decide.
Qed.

Lemma quarantine_eq file dst xdst e w :
  quarantine file dst xdst e w =
  (Ok tt, (os_rename env dst xdst (add_log (processing_error file e) w)).2).
Proof.
  unfold MaildirRunner.quarantine. rewrite bind_eq. simpl.
  rewrite try_except_eq.
  destruct (os_rename env dst xdst _) as [[[]|e'] w'] eqn:E; [done|].
  by apply os_rename_raises in E as [en ->].
Qed.

Lemma claimed_eq file w :
  claimed file w =
  match process file (Cur, file +:+ ":1,P") (Cur, file +:+ ":1,X") w with
  | (Ok _, w1) => (Ok tt, w1)
  | (Raise e, w1) =>
      (Ok tt, (os_rename env (Cur, file +:+ ":1,P") (Cur, file +:+ ":1,X")
                 (add_log (processing_error file e) w1)).2)
  end.
Proof.
  unfold MaildirRunner.claimed. rewrite try_except_eq.
  destruct (process _ _ _ w) as [[[]|e] w1]; [done|]. apply quarantine_eq.
Qed.

Lemma claimed_ok file w : (claimed file w).1 = Ok tt.
Proof. rewrite claimed_eq. by destruct (process _ _ _ w) as [[[]|e] w1]. Qed.

Lemma for_files_app pre post w :
  for_files (pre ++ post) w = (for_files pre;; for_files post) w.
Proof.
  revert w. induction pre as [|file pre IH]; intros w; [done|].
  simpl. rewrite !bind_eq. destruct (one_file file w) as [[[]|e] w1]; [|done].
  by rewrite IH, bind_eq.
Qed.

Lemma oneloop_eq w :
  _oneloop w =
  match os_listdir env New w with
  | (Ok files, wl) => (for_files files;; mret (length files)) wl
  | (Raise (OSError en), wl) =>
      if decide (en = ENOENT) then (Ok 0, wl)
      else (Raise (OSError en), add_log (listing_error (OSError en)) wl)
  | (Raise e, wl) => (Raise e, wl)
  end.
Proof.
  unfold MaildirRunner._oneloop. rewrite bind_eq, try_except_eq, bind_eq.
  destruct (os_listdir env New w) as [[files|[en|cls]] wl]; try done.
  by destruct en.
Qed.

(** *** What a pass adds to history, log and switchboards *)

(** The calls made for a file are on the paths of that file. *)
Lemma emits_claimed file : emits (own file) (claimed file).
Proof.
  pose proof (paths_of_P file) as HP. pose proof (paths_of_X file) as HX.
  unfold MaildirRunner.claimed, MaildirRunner.process,
    MaildirRunner.quarantine, load, enqueue, os_rename, os_unlink.
  repeat (intros; lazymatch goal with
    | |- emits _ (_ ≫= _) => apply emits_bind
    | |- emits _ (try_except _ _) => apply emits_try
    | |- emits _ (os_call _ _ _) => by apply emits_os_call
    | |- emits _ (lib_call _ _) => by apply emits_lib_call
    | |- emits _ (syslog _) => apply emits_syslog
    | |- emits _ (store _ _ _) => apply emits_store
    | |- emits _ (mret _) => apply emits_ret
    | |- emits _ (raise _) => apply emits_raise
    | |- emits _ (match ?x with _ => _ end) => destruct x
    end).
Qed.

Lemma emits_one_file file : emits (own file) (one_file file).
Proof.
  intros w. rewrite one_file_eq.
  pose proof (emits_os_call env (own file)
    (Rename (New, file) (Cur, file +:+ ":1,P"))
    (fs_rename (New, file) (Cur, file +:+ ":1,P"))
    (conj (paths_of_new file) (paths_of_P file)) w) as Hr.
  fold (os_rename env (New, file) (Cur, file +:+ ":1,P")) in Hr.
  destruct (os_rename env _ _ w) as [[[]|[en|cls]] w1]; simpl in *; try done.
  - eapply grows_by_trans; [done|]. apply emits_claimed.
  - case_decide; simpl; [done|].
    eapply grows_by_trans; [done|]. apply (emits_syslog _ _ w1).
Qed.

(** A pass over [files] acts on the paths of these files only: a file
    it did not list, it never touches. *)
Lemma emits_for_files files :
  emits (λ c, ∃ file, file ∈ files ∧ own file c) (for_files files).
Proof.
  induction files as [|file files IH]; cbn [MaildirRunner.for_files].
  - apply emits_ret.
  - apply emits_bind.
    + intros w. eapply grows_by_weaken; [|apply emits_one_file].
      intros c Hc. exists file. split; [by left|done].
    + intros _ w. eapply grows_by_weaken; [|apply IH].
      intros c (g & Hg & Hc). exists g. split; [by right|done].
Qed.

Lemma own_not_listdir file c : own file c → ¬ is_listdir c.
Proof. destruct c; simpl; tauto. Qed.

(** *** How a pass can end *)

Lemma one_file_result file w :
  let '(r, w') := one_file file w in
  r = Ok tt ∨
  ∃ en, en ≠ ENOENT ∧ r = Raise (OSError en) ∧
    last (log w') = Some (claim_error (New, file)) ∧
    ∃ f, os_fault env (length (calls w)) = Some f.
Proof.
  rewrite one_file_eq.
  destruct (os_rename env _ _ w) as [[[]|e] w1] eqn:E.
  - pose proof (claimed_ok file w1). destruct (claimed file w1) as [r w2].
    by left.
  - pose proof E as (_ & _ & _ & _ & en & -> & Hen)%os_call_inv.
    case_decide as Hd; [by left|]. right. exists en. split_and!; try done.
    + simpl. by rewrite last_snoc.
    + destruct Hen as [(f & Hf & _)|[_ [? _]%fs_rename_err]]; [by eauto|done].
Qed.

Lemma for_files_result files w :
  let '(r, w') := for_files files w in
  r = Ok tt ∨
  ∃ file en, file ∈ files ∧ en ≠ ENOENT ∧ r = Raise (OSError en) ∧
    last (log w') = Some (claim_error (New, file)) ∧
    ∃ n f, os_fault env n = Some f.
Proof.
  revert w. induction files as [|file files IH]; intros w; simpl.
  - by left.
  - rewrite bind_eq. pose proof (one_file_result file w) as H1.
    destruct (one_file file w) as [[[]|e] w1].
    + specialize (IH w1). destruct (for_files files w1) as [r w'].
      destruct IH as [->|(f' & en & Hin & ? & ? & ? & ?)]; [by left|].
      right. exists f', en. split_and!; try done. by right.
    + destruct H1 as [?|(en & ? & ? & ? & f & ?)]; [done|].
      right. exists file, en. split_and!; try done; [by left|by eauto].
Qed.

(** *** The claim *)

(** C3.  For a file at any place of the listing, reached with the files
    before it handled: the claim is one call, the rename of the
    unclaimed path to the in-progress path (the name with [:1,P]
    appended).  When it goes through the pass goes on with this file.
    When it raises [OSError] with [ENOENT] nothing is logged and the pass
    goes on with the next file.  When it raises [OSError] with another
    [errno] the error is logged and the pass ends there, raising it. *)
Theorem claim_rename w0 wl pre file files w :
  let srcname := (New, file) in
  let dstname := (Cur, file +:+ ":1,P") in
  os_listdir env New w0 = (Ok (pre ++ file :: files), wl) →
  for_files pre wl = (Ok tt, w) →
  let '(r, w1) := os_rename env srcname dstname w in
  calls w1 = calls w ++ [Rename srcname dstname] ∧
  match r with
  | Ok _ =>
      _oneloop w0 =
      (claimed file;; for_files files;;
       mret (length (pre ++ file :: files))) w1
  | Raise (OSError en) =>
      if decide (en = ENOENT) then
        log w1 = log w ∧ queued w1 = queued w ∧
        _oneloop w0 =
        (for_files files;; mret (length (pre ++ file :: files))) w1
      else
        _oneloop w0 = (Raise (OSError en), add_log (claim_error srcname) w1)
  | Raise (Exception _) => False
  end.
Proof.
  intros srcname dstname Hlist Hpre. subst srcname dstname.
  rewrite oneloop_eq, Hlist, bind_eq, for_files_app, bind_eq, Hpre.
  simpl. rewrite !bind_eq, one_file_eq.
  destruct (os_rename env _ _ w) as [[[]|e] w1] eqn:E.
  - apply os_call_inv in E as (_ & _ & Hc & _). split; [done|].
    rewrite (bind_eq (claimed file)).
    destruct (claimed file w1) as [[[]|e] w2]; [|done]. by rewrite bind_eq.
  - pose proof E as (Hl & Hq & Hc & _ & en & -> & _)%os_call_inv.
    split; [done|]. case_decide; [|done]. by rewrite bind_eq.
Qed.

(** *** The count *)

Lemma oneloop_calls w :
  ∃ cs, calls (_oneloop w).2 = calls w ++ Listdir New :: cs ∧
    Forall (λ c, ¬ is_listdir c) cs.
Proof.
  rewrite oneloop_eq.
  destruct (os_listdir env New w) as [[files|e] wl] eqn:E.
  - apply os_call_inv in E as (_ & _ & Hc & _).
    destruct (emits_bind _ (for_files files) (λ _, mret (length files))
      (emits_for_files files) (λ _, emits_ret _ _) wl)
      as (cs & _ & _ & Hcs & HP & _).
    exists cs. split; [by rewrite Hcs, Hc, <- app_assoc|].
    eapply Forall_impl; [done|].
    intros c (g & _ & Hown). by apply (own_not_listdir g).
  - apply os_call_inv in E as (_ & _ & Hc & _ & en & -> & _).
    exists []. split; [|done]. by case_decide.
Qed.

(** C4.  A pass makes one call of [os.listdir], on new/, and none
    after it.  When that call raises [ENOENT] (the directory is absent)
    the pass returns 0 and does nothing more.  When it returns the
    listing, the pass returns the length of the listing, unless a claim
    raised an error other than [ENOENT]; with no fault from outside the
    maildir it always does, whatever became of each file. *)
Theorem oneloop_count w :
  let n := length (calls w) in
  let '(r0, w0) := os_listdir env New w in
  let '(r, w') := _oneloop w in
  (∃ cs, calls w' = calls w ++ Listdir New :: cs ∧
     Forall (λ c, ¬ is_listdir c) cs) ∧
  (os_fault env n = None → new (interfere env n (fs w)) = None →
   r0 = Raise (OSError ENOENT)) ∧
  match r0 with
  | Ok files =>
      (r = Ok (length files) ∨
       ∃ file en, file ∈ files ∧ en ≠ ENOENT ∧ r = Raise (OSError en) ∧
         last (log w') = Some (claim_error (New, file))) ∧
      (faultless env → r = Ok (length files))
  | Raise (OSError en) =>
      if decide (en = ENOENT) then
        r = Ok 0 ∧ w' = w0 ∧ new (fs w0) = None
      else r = Raise (OSError en) ∧ w' = add_log (listing_error (OSError en)) w0
  | Raise (Exception _) => False
  end.
Proof.
  intros n. pose proof (oneloop_calls w) as Hcalls. revert Hcalls.
  rewrite oneloop_eq.
  destruct (os_listdir env New w) as [[files|e] w0] eqn:E.
  - rewrite bind_eq. pose proof (for_files_result files w0) as Hres.
    destruct (for_files files w0) as [[[]|e] w']; simpl; intros Hcalls.
    + split; [done|]. split; [|split; [by left|done]].
      intros Hf Hn. apply os_call_inv in E as (_ & _ & _ & _ & E).
      fold n in E. unfold fs_listdir in E. simpl in E. by rewrite Hn in E.
    + split; [done|]. split.
      { intros Hf Hn. apply os_call_inv in E as (_ & _ & _ & _ & E).
        fold n in E. unfold fs_listdir in E. simpl in E. by rewrite Hn in E. }
      destruct Hres as [?|(file & en & ? & ? & [= ->] & ? & k & f & Hk)];
        [done|].
      split; [right; exists file, en; by split_and!|].
      intros Hfl. by rewrite Hfl in Hk.
  - pose proof E as (_ & _ & _ & Hfs & en & -> & Hen)%os_call_inv.
    fold n in Hfs, Hen. intros Hcalls.
    assert (os_fault env n = None →
            new (interfere env n (fs w)) = None →
            @Raise (list string) (OSError en) = Raise (OSError ENOENT)) as Habs.
    { intros Hf Hn. destruct Hen as [(f & ? & _)|[_ Hen]]; [congruence|].
      by apply fs_listdir_err in Hen as [-> _]. }
    destruct (decide (en = ENOENT)) as [->|Hd]; simpl in *; [|done].
    split_and!; try done.
    destruct Hen as [(f & _ & ?)|[_ Hen]]; [done|].
    apply fs_listdir_err in Hen as [_ Hen]. by rewrite Hfs.
Qed.

(** *** Failure after the claim *)

(** C6, as the runner has it.  When anything raises after the claim went
    through, the error is logged with the name of the file, one rename
    of the in-progress path to the [:1,X] path is attempted, and the pass
    goes on with the next file.  When that rename goes through the file
    is quarantined: the [:1,X] name holds it, and the in-progress name is
    vacated unless the [:1,X] name was a link to the same file already.
    When it raises, nothing more is logged and the runner leaves the
    maildir as it was. *)
Theorem failure_after_claim file files w0 w e w1 :
  let srcname := (New, file) in
  let dstname := (Cur, file +:+ ":1,P") in
  let xdstname := (Cur, file +:+ ":1,X") in
  os_rename env srcname dstname w0 = (Ok tt, w) →
  process file dstname xdstname w = (Raise e, w1) →
  let fs1 := interfere env (length (calls w1)) (fs w1) in
  let '(r, w2) :=
    os_rename env dstname xdstname (add_log (processing_error file e) w1) in
  for_files (file :: files) w0 = for_files files w2 ∧
  calls w2 = calls w1 ++ [Rename dstname xdstname] ∧
  log w2 = log w1 ++ [processing_error file e] ∧
  queued w2 = queued w1 ∧
  match r with
  | Ok _ =>
      at_path xdstname (fs w2) = at_path dstname fs1 ∧
      is_Some (at_path dstname fs1) ∧
      (at_path xdstname fs1 ≠ at_path dstname fs1 →
       at_path dstname (fs w2) = None)
  | Raise e' => fs w2 = fs1 ∧ ∃ en, e' = OSError en
  end.
Proof.
  intros srcname dstname xdstname Hclaim Hproc fs1.
  subst srcname dstname xdstname.
  assert (for_files (file :: files) w0 =
          for_files files
            (os_rename env (Cur, file +:+ ":1,P") (Cur, file +:+ ":1,X")
               (add_log (processing_error file e) w1)).2) as Hgo.
  { simpl. by rewrite bind_eq, one_file_eq, Hclaim, claimed_eq, Hproc. }
  destruct (os_rename env _ _ (add_log _ w1)) as [r w2] eqn:E.
  pose proof E as (Hl & Hq & Hc & Hr)%os_call_inv. simpl in *.
  split_and!; try done. destruct r as [[]|e'].
  - destruct Hr as [_ Hr]. fold fs1 in Hr.
    pose proof Hr as (f & Hf & Hat & _)%fs_rename_ok.
    rewrite (fs_rename_target _ _ _ _ _ Hr Hf), Hf. split_and!; try done.
    intros Hne. apply (fs_rename_source _ _ _ _ _ Hr Hf); [|done].
    intros [= H]. by apply suffix_P_X in H.
  - destruct Hr as (? & en & ? & _). by eauto.
Qed.

(** *** A file the others leave alone *)

Section Fate.

Variable name : string.
Variable fv : mailfile.

Abbreviation dstname := (Cur, name +:+ ":1,P").
Abbreviation xdstname := (Cur, name +:+ ":1,X").










(** **** Once the claim is won *)

Section Won.

Variable k : nat.
Hypothesis alone : alone_from env k name fv.

Abbreviation confined := (confined k name fv).

Lemma confined_claimed file : confined (paths_of file) (claimed file).
Proof.
  pose proof (paths_of_P file) as HP. pose proof (paths_of_X file) as HX.
  unfold MaildirRunner.claimed, MaildirRunner.process,
    MaildirRunner.quarantine, load, enqueue.
  repeat (intros; lazymatch goal with
    | |- confined _ (_ ≫= _) => apply confined_bind
    | |- confined _ (try_except _ _) => apply confined_try
    | |- confined _ (os_rename _ _ _) => by apply confined_rename
    | |- confined _ (os_unlink _ _) => by apply confined_unlink
    | |- confined _ (os_call _ (Open _) _) => by apply confined_open
    | |- confined _ (lib_call _ _) => by apply confined_lib_call
    | |- confined _ (syslog _) => by apply confined_pure
    | |- confined _ (store _ _ _) => by apply confined_pure
    | |- confined _ (mret _) => by apply confined_pure
    | |- confined _ (raise _) => by apply confined_pure
    | |- confined _ (match ?x with _ => _ end) => destruct x
    end).
Qed.

Lemma confined_one_file file : confined (paths_of file) (one_file file).
Proof.
  intros w. rewrite one_file_eq.
  pose proof (confined_rename env k name fv alone (New, file)
    (Cur, file +:+ ":1,P") (paths_of file)
    (paths_of_new file) (paths_of_P file) w) as Hr.
  destruct (os_rename env _ _ w) as [[[]|[en|cls]] w1]; simpl in *; try done.
  - eapply after_trans; [done|]. apply confined_claimed.
  - case_decide; simpl; [done|]. intros Hk. destruct (Hr Hk). by split.
Qed.

Lemma confined_for_files files :
  confined (files ≫= paths_of) (for_files files).
Proof.
  induction files as [|file files IH].
  - by apply confined_pure.
  - rewrite bind_cons. cbn [MaildirRunner.for_files]. apply confined_bind.
    + intros w. eapply after_weaken; [|apply confined_one_file].
      intros p Hp. apply elem_of_app. by left.
    + intros _ w. eapply after_weaken; [|apply IH].
      intros p Hp. apply elem_of_app. by right.
Qed.




End Won.


(** **** While the others may have it *)

Lemma advance_refl s : advance s s.
Proof. by destruct s. Qed.

Lemma advance_trans s1 s2 s3 : advance s1 s2 → advance s2 s3 → advance s1 s3.
Proof. by destruct s1, s2, s3. Qed.


Lemma drifts_refl w : drifts name fv w w.
Proof.
  split; [|done]. intros s Hs. exists s. split; [apply advance_refl|done].
Qed.

Lemma drifts_trans w1 w2 w3 :
  drifts name fv w1 w2 → drifts name fv w2 w3 → drifts name fv w1 w3.
Proof.
  intros [H1 C1] [H2 C2]. split; [|by auto].
  intros s Hs. destruct (H1 s Hs) as (s' & Ha & Hs').
  destruct (H2 s' Hs') as (s'' & Ha' & Hs''). exists s''.
  split; [by eapply advance_trans|done].
Qed.

(** A change at other paths leaves the file placed as it was. *)
Lemma placed_confined ps fs fs' s :
  fs_confined name fv ps fs fs' →
  (∀ p, p ∈ paths_of name → p ∉ ps) →
  placed name fv fs s → placed name fv fs' s.
Proof.
  intros (Hat & Hu & Hg) Hps (Hl & Hs & Hn).
  assert (∀ p, p ∈ paths_of name → at_path p fs' = at_path p fs) as Hat'
    by (intros p Hp; by apply Hat, Hps).
  split_and!.
  - by apply Hu.
  - destruct s; simpl in *;
      rewrite ?Hat' by (apply paths_of_new || apply paths_of_P ||
                        apply paths_of_X); by auto.
  - intros f. rewrite Hat' by apply paths_of_new. apply Hn.
Qed.

Section Drift.

Hypothesis Hworkers : workers env name fv.
Hypothesis Hcur : keeps_cur env.

Lemma drifts_interfere w c :
  drifts name fv w (enter env c w).
Proof.
  split; simpl; [|apply Hcur]. intros s Hs. by apply Hworkers.
Qed.

Lemma drifting_os_call {A} c (op : FS → errno + (A * FS)) ps :
  (∀ fs a fs', op fs = inr (a, fs') →
     fs_confined name fv ps fs fs' ∧
     (is_Some (cur fs) → is_Some (cur fs'))) →
  (∀ p, p ∈ paths_of name → p ∉ ps) →
  drifting name fv (os_call env c op).
Proof.
  intros Hop Hps w. eapply drifts_trans; [apply (drifts_interfere w c)|].
  unfold os_call.
  destruct (os_fault env _); [apply drifts_refl|].
  destruct (op (fs (enter env c w))) as [e|[a fs2]] eqn:E;
    [apply drifts_refl|].
  destruct (Hop _ _ _ E) as [Hc Hd]. split; simpl; [|done].
  intros s Hs. exists s. split; [apply advance_refl|].
  by eapply placed_confined.
Qed.

Lemma drifting_lib_call c : drifting name fv (lib_call env c).
Proof.
  intros w. unfold lib_call. destruct (lib_fault env _); apply drifts_interfere.
Qed.

Lemma drifting_pure {A} (m : M A) :
  (∀ w, fs (m w).2 = fs w) → drifting name fv m.
Proof.
  intros H w. split; rewrite H; [|done].
  intros s Hs. exists s. split; [apply advance_refl|done].
Qed.

Lemma drifting_bind {A B} (m : M A) (f : A → M B) :
  drifting name fv m → (∀ a, drifting name fv (f a)) →
  drifting name fv (m ≫= f).
Proof.
  intros Hm Hf. unfold drifting.
  apply (step_bind (drifts name fv));
    [intros w1 w2 w3; apply drifts_trans|done|].
  intros a w. apply Hf.
Qed.

Lemma drifting_try {A} (m : M A) (h : exn → M A) :
  drifting name fv m → (∀ e, drifting name fv (h e)) →
  drifting name fv (try_except m h).
Proof.
  intros Hm Hh. unfold drifting.
  apply (step_try (drifts name fv));
    [intros w1 w2 w3; apply drifts_trans|done|].
  intros e w. apply Hh.
Qed.

Lemma drifting_rename g src dst :
  g ≠ name → src ∈ paths_of g → dst ∈ paths_of g →
  drifting name fv (os_rename env src dst).
Proof.
  intros Hg Hs Hd. apply (drifting_os_call _ _ (paths_of g)).
  - intros fs [] fs' E. split; [by apply (fs_confined_rename _ _ _ src dst)|].
    apply fs_rename_ok in E as (_ & _ & _ & Hdir). apply (Hdir Cur).
  - intros p Hp. by apply (paths_of_disjoint name g).
Qed.

Lemma drifting_unlink g p :
  g ≠ name → p ∈ paths_of g → drifting name fv (os_unlink env p).
Proof.
  intros Hg Hp. apply (drifting_os_call _ _ (paths_of g)).
  - intros fs [] fs' E. split; [by apply (fs_confined_unlink _ _ _ p)|].
    apply fs_unlink_ok in E as [_ Hdir]. apply (Hdir Cur).
  - intros q Hq. by apply (paths_of_disjoint name g).
Qed.

Lemma drifting_open p : drifting name fv (os_call env (Open p) (fs_open p)).
Proof.
  apply (drifting_os_call _ _ []).
  - intros fs f fs' [-> _]%fs_open_ok. split; [apply fs_confined_refl|done].
  - intros q _ Hq. by apply elem_of_nil in Hq.
Qed.

Lemma drifting_listdir d : drifting name fv (os_listdir env d).
Proof.
  apply (drifting_os_call _ _ []).
  - intros fs l fs' [-> _]%fs_listdir_ok.
    split; [apply fs_confined_refl|done].
  - intros q _ Hq. by apply elem_of_nil in Hq.
Qed.

(** The runner at work on another file. *)
Lemma drifting_one_file g : g ≠ name → drifting name fv (one_file g).
Proof.
  intros Hg. pose proof (paths_of_new g) as HN.
  pose proof (paths_of_P g) as HP. pose proof (paths_of_X g) as HX.
  unfold MaildirRunner.one_file, MaildirRunner.claim,
    MaildirRunner.claimed, MaildirRunner.process,
    MaildirRunner.quarantine, load, enqueue.
  repeat (intros; lazymatch goal with
    | |- drifting _ _ (_ ≫= _) => apply drifting_bind
    | |- drifting _ _ (try_except _ _) => apply drifting_try
    | |- drifting _ _ (os_rename _ _ _) => by apply (drifting_rename g)
    | |- drifting _ _ (os_unlink _ _) => by apply (drifting_unlink g)
    | |- drifting _ _ (os_call _ (Open _) _) => apply drifting_open
    | |- drifting _ _ (lib_call _ _) => apply drifting_lib_call
    | |- drifting _ _ (syslog _) => by apply drifting_pure
    | |- drifting _ _ (store _ _ _) => by apply drifting_pure
    | |- drifting _ _ (mret _) => by apply drifting_pure
    | |- drifting _ _ (raise _) => by apply drifting_pure
    | |- drifting _ _ (match ?x with _ => _ end) => destruct x
    | |- drifting _ _ (if ?x then _ else _) => destruct x
    end).
Qed.

Lemma drifting_for_files gs : name ∉ gs → drifting name fv (for_files gs).
Proof.
  induction gs as [|g gs IH]; intros Hin; cbn [MaildirRunner.for_files].
  - by apply drifting_pure.
  - apply not_elem_of_cons in Hin as [Hg Hin]. apply drifting_bind.
    + apply drifting_one_file. by intros ->.
    + intros _. by apply IH.
Qed.

End Drift.







(** **** The turn of the file *)

Section Turn.

Hypothesis Hworkers : workers env name fv.
Hypothesis Hcur : keeps_cur env.




End Turn.


End Fate.

(** *** The router in the pass *)

Lemma os_call_run {A} c (op : FS → errno + (A * FS)) w :
  quiet env → faultless env →
  os_call env c op w =
  match op (fs w) with
  | inl e => (Raise (OSError e),
              mkWorld (fs w) (queued w) (log w) (calls w ++ [c]))
  | inr (a, fs') => (Ok a, mkWorld fs' (queued w) (log w) (calls w ++ [c]))
  end.
Proof.
  intros Hq Hf. unfold os_call, enter. simpl. rewrite Hf, Hq.
  by destruct (op (fs w)) as [e|[a fs']].
Qed.

Lemma fs_rename_total src dst fs f :
  at_path src fs = Some f → is_Some (entries dst.1 fs) →
  ∃ fs', fs_rename src dst fs = inr (tt, fs').
Proof.
  intros Hf [md Hd]. unfold fs_rename. pose proof Hf as Hf'.
  unfold at_path in Hf'.
  destruct (entries src.1 fs) as [ms|]; [|done]. simpl in Hf'. rewrite Hf'.
  case_decide; [by eauto|].
  rewrite entries_set_entries. case_decide; [by eauto|].
  rewrite Hd. by eauto.
Qed.

(** C1.  The router walks the values of Delivered-To, then Envelope-To,
    then Apparently-To, each in the order of the message; a value whose
    address is empty, does not match, or names no valid list is passed
    over; the result is that of the first value accepted.  When no value
    is accepted and nothing from outside disturbs the three calls, the
    claimed file is renamed to its [:1,X] name, the fact is logged,
    nothing is enqueued, and the pass goes on with the next file; a
    file that was linked in new/ only has then left its new/ and [:1,P]
    names. *)
Theorem route_first_valid :
  (∀ msg,
     let values h :=
       (filter (λ kv : string * string, lower kv.1 = h) msg).*2 in
     header_values msg =
     values "delivered-to" ++ values "envelope-to" ++ values "apparently-to") ∧
  (∀ vals r,
     route parseaddr listnames vals = Some r ↔
     ∃ i field, vals !! i = Some field ∧
       accepts parseaddr listnames field r ∧
       ∀ j field' r', j < i → vals !! j = Some field' →
         ¬ accepts parseaddr listnames field' r') ∧
  (∀ vals,
     route parseaddr listnames vals = None ↔
     ∀ field r, field ∈ vals → ¬ accepts parseaddr listnames field r) ∧
  (quiet env → faultless env →
   ∀ file files w fv msg,
     let srcname := (New, file) in
     let dstname := (Cur, file +:+ ":1,P") in
     let xdstname := (Cur, file +:+ ":1,X") in
     at_path srcname (fs w) = Some fv →
     is_Some (cur (fs w)) →
     content fv = Ok msg →
     route parseaddr listnames (header_values msg) = None →
     ∃ w',
       for_files (file :: files) w = for_files files w' ∧
       at_path xdstname (fs w') = Some fv ∧
       (linked_once fv (fs w) →
        at_path dstname (fs w') = None ∧ at_path srcname (fs w') = None) ∧
       log w' = log w ++ [not_for_any_list xdstname] ∧
       queued w' = queued w ∧
       calls w' = calls w ++ [Rename srcname dstname; Open dstname;
                              Rename dstname xdstname]).
Proof.
  split_and!.
  - intros msg values. by rewrite header_values_order, !get_all_values.
  - apply route_Some.
  - apply route_None.
  - intros Hq Hf file files w fv msg srcname dstname xdstname Hat Hcur Hc Hr.
    assert (dstname ≠ xdstname) as HPX.
    { intros [= H]. by apply suffix_P_X in H. }
    destruct (fs_rename_total srcname dstname (fs w) fv Hat Hcur)
      as [fs1 Hfs1].
    pose proof (fs_rename_ok _ _ _ _ Hfs1) as (_ & _ & _ & Hd1).
    pose proof (fs_rename_target _ _ _ _ _ Hfs1 Hat) as Hdst1.
    destruct (fs_rename_total dstname xdstname fs1 fv Hdst1) as [fs2 Hfs2].
    { by apply (Hd1 Cur). }
    exists (mkWorld fs2 (queued w) (log w ++ [not_for_any_list xdstname])
              (calls w ++ [Rename srcname dstname; Open dstname;
                           Rename dstname xdstname])).
    split_and!; try done.
    + cbn [MaildirRunner.for_files]. rewrite bind_eq, one_file_eq.
      fold srcname dstname xdstname.
      unfold os_rename at 1. rewrite (os_call_run _ _ _ Hq Hf), Hfs1.
      rewrite claimed_eq. fold dstname xdstname.
      unfold MaildirRunner.process, load. rewrite !bind_eq.
      rewrite (os_call_run _ _ _ Hq Hf). unfold fs_open. simpl.
      rewrite Hdst1. simpl. rewrite Hc. simpl. rewrite Hr, bind_eq. simpl.
      unfold os_rename. rewrite (os_call_run _ _ _ Hq Hf). simpl.
      rewrite Hfs2. simpl. by rewrite <- !app_assoc.
    + simpl. by apply (fs_rename_target _ _ _ _ _ Hfs2).
    + simpl. intros Hu.
      assert (at_path srcname fs1 = None) as Hsrc1.
      { apply (fs_rename_source _ _ _ _ _ Hfs1 Hat); [done|].
        intros H. by pose proof (Hu _ _ Hat H). }
      pose proof (linked_once_rename fv _ _ _ _ Hfs1 Hu) as Hu1.
      split.
      * apply (fs_rename_source _ _ _ _ _ Hfs2 Hdst1); [done|].
        intros H. by pose proof (Hu1 _ _ Hdst1 H).
      * by rewrite (fs_rename_frame _ _ _ _ _ Hfs2).
Qed.

End RunnerFacts.


(** ** Initialisation *)

Section InitFacts.

Import MaildirRunner.

Variable env : Env.

Lemma init_eq w :
  __init__ env w =
  match init_body env (add_log init_start w) with
  | (Ok _, w1) => (Ok tt, w1)
  | (Raise e, w1) => (Raise e, add_log (init_failed e) w1)
  end.
Proof.
  unfold __init__. rewrite bind_eq. simpl. rewrite try_except_eq.
  by destruct (init_body env _) as [[[]|e] w1].
Qed.






End InitFacts.


(** ** Letter case of the sub-queue token *)

Section CaseFacts.

Variable OWNER_PIPELINE : list string.
Variable site_bounces : string.

(** The pattern accepts the token in any letter case and hands it on as
    written; the selector knows the lower-case spellings only.  So the
    final [else] is taken exactly for a token not written in lower case,
    and would never be taken were the token lowered first. *)
Lemma unknown_subq_iff_case to listname t :
  lre.match_ to = Some (listname, Some t) →
  (select OWNER_PIPELINE site_bounces listname (Some t) = None ↔ t ≠ lower t) ∧
  is_Some (select OWNER_PIPELINE site_bounces listname (Some (lower t))).
Proof.
  intros Hm%lre_facts.match_token. split; [|by apply select_token].
  rewrite select_unknown. split.
  - intros (t' & [= <-] & Ht) Heq. apply Ht. by rewrite Heq.
  - intros Hne. exists t. split; [done|].
    intros Ht. apply Hne. symmetry. by apply lre_facts.tokens_lower.
Qed.

End CaseFacts.

(** ** One address for each header value *)

(** C9, as the runner has it.  The router tests one address for each
    header value, the one [parseaddr] returns for it: routing the values
    is routing the list of these addresses, one per value and in the
    same order. *)
Theorem route_one_address_per_value
    (parseaddr : string → string * string) (listnames vals : list string) :
  route parseaddr listnames vals =
  route (λ addr, (EmptyString, addr)) listnames
        ((λ field, (parseaddr field).2) <$> vals).
Proof.
  induction vals as [|field vals IH]; simpl; [done|].
  rewrite IH. case_bool_decide; [done|].
  destruct (lre.match_ (parseaddr field).2) as [[listname subq]|]; [|done].
  by case_bool_decide.
Qed.

(** ** Runs on the example site *)

Module DemoFacts.
Import Demo.

(** C9 fails as stated: a value holding two addresses, the second of
    them the address of a valid list.  The address list of the value has
    both, the second one matches and names [mylist], and the router
    finds nothing, whichever default [parseaddr] runs with. *)
Lemma second_address_not_tested :
  let field := "other@elsewhere.example, mylist@lists.example.com" in
  (email_utils.addresslist field).*2 =
    ["other@elsewhere.example"; "mylist@lists.example.com"] ∧
  lre.match_ "mylist@lists.example.com" = Some ("mylist", None) ∧
  "mylist" ∈ listnames ∧
  route (email_utils.parseaddr true) listnames [field] = None ∧
  route (email_utils.parseaddr false) listnames [field] = None.
Proof. split_and!; try reflexivity. by apply (bool_decide_unpack _). Qed.

(** C5: the runner departs from it.  With [mylist] the only list, the
    address in lower case goes to the bounce switchboard.  With the
    token in upper case the pattern still matches, and the message ends
    in the final [else]: nothing enqueued, the file quarantined.  With
    the listname in upper case the listname is not found among the
    lists: nothing enqueued, the file quarantined. *)
Theorem letter_case_of_address :
  let lower_case :=
    (_oneloop calm
       (maildir [("msg1", Ok (mail "mylist-bounces@lists.example.com"))])).2 in
  let upper_token :=
    (_oneloop calm
       (maildir [("msg1", Ok (mail "mylist-BOUNCES@lists.example.com"))])).2 in
  let upper_list :=
    (_oneloop calm
       (maildir [("msg1", Ok (mail "MYLIST-bounces@lists.example.com"))])).2 in
  queued lower_case =
    [(BOUNCEQUEUE_DIR, mail "mylist-bounces@lists.example.com",
      {[ "listname" := VStr "mylist" ]})] ∧
  log lower_case = [processed "msg1"] ∧
  lre.match_ "mylist-BOUNCES@lists.example.com" =
    Some ("mylist", Some "BOUNCES") ∧
  queued upper_token = [] ∧
  log upper_token = [unknown_subq (Some "BOUNCES")] ∧
  at_path (Cur, "msg1:1,X") (fs upper_token) =
    Some (File 0 (Ok (mail "mylist-BOUNCES@lists.example.com"))) ∧
  lre.match_ "MYLIST-bounces@lists.example.com" =
    Some ("MYLIST", Some "bounces") ∧
  queued upper_list = [] ∧
  log upper_list = [not_for_any_list (Cur, "msg1:1,X")] ∧
  at_path (Cur, "msg1:1,X") (fs upper_list) =
    Some (File 0 (Ok (mail "MYLIST-bounces@lists.example.com"))).
Proof. by vm_compute. Qed.

(** C7: the runner departs from it.  The address [mylist-Owner@...] is
    accepted by the pattern with the token as written; no case of the
    selector handles ["Owner"]; the pass logs the unknown sub-queue and
    quarantines the file. *)
Theorem unknown_subq_reached :
  let w' :=
    (_oneloop calm
       (maildir [("msg1", Ok (mail "mylist-Owner@lists.example.com"))])).2 in
  lre.match_ "mylist-Owner@lists.example.com" = Some ("mylist", Some "Owner") ∧
  select OWNER_PIPELINE site_bounces "mylist" (Some "Owner") = None ∧
  log w' = [unknown_subq (Some "Owner")] ∧
  queued w' = [] ∧
  at_path (Cur, "msg1:1,X") (fs w') =
    Some (File 0 (Ok (mail "mylist-Owner@lists.example.com"))).
Proof. by vm_compute. Qed.

Lemma maildir_linked_once files fv : linked_once fv (fs (maildir files)).
Proof.
  assert (∀ p, at_path p (fs (maildir files)) = Some fv →
    p.1 = New ∧ ∃ k y, files !! k = Some y ∧ p.2 = y.1 ∧ fv = File k y.2)
    as Hwhere.
  { intros [[] n]; unfold at_path; simpl; [|by rewrite lookup_empty].
    intros (k & y & [= -> ->] & Hk)%elem_of_list_to_map_2%elem_of_lookup_imap_1.
    split; [done|]. by exists k, y. }
  intros [d n] [d' n'] (Hd & k & y & Hk & Hn & Hfv)%Hwhere
    (Hd' & k' & y' & Hk' & Hn' & Hfv')%Hwhere.
  simpl in *. subst d d' n n'. rewrite Hfv in Hfv'. injection Hfv' as <- _.
  congruence.
Qed.

(** C6 fails as stated: the file cannot be read (I/O error at the third
    call), and the rename to the [:1,X] name is refused (fourth call).
    The pass returns; the file is left in progress; the log has the one
    entry written before the rename was tried, and no entry reports the
    refusal. *)
Lemma quarantine_failure_not_logged :
  let env := faulty [(2, EIO); (3, EACCES)] in
  let rw := _oneloop env post in
  rw.1 = Ok 1 ∧
  calls rw.2 =
    [Listdir New; Rename (New, "msg1") (Cur, "msg1:1,P");
     Open (Cur, "msg1:1,P"); Rename (Cur, "msg1:1,P") (Cur, "msg1:1,X")] ∧
  os_fault env 3 = Some EACCES ∧
  at_path (Cur, "msg1:1,P") (fs rw.2) =
    Some (File 0 (Ok (mail "mylist@lists.example.com"))) ∧
  log rw.2 = [processing_error "msg1" (OSError (errno_of EIO))] ∧
  ¬ ∃ entry, entry ∈ log rw.2 ∧ reports (OSError (errno_of EACCES)) entry.
Proof.
  split_and!; try by vm_compute.
  intros (entry & Hin & Hrep). vm_compute in Hin.
  apply list_elem_of_singleton in Hin. by subst entry.
Qed.


(** *** The theorems at work *)

(** A message for an address of another site: no route, quarantined. *)
Lemma route_first_valid_witness :
  let fv := File 0 (Ok (mail "someone@othersite.example")) in
  quiet calm ∧ faultless calm ∧
  route parseaddr listnames
    (header_values (mail "someone@othersite.example")) = None ∧
  linked_once fv (fs stray) ∧
  ∃ w',
    for_files calm ["msg1"] stray = for_files calm [] w' ∧
    at_path (Cur, "msg1:1,X") (fs w') = Some fv ∧
    at_path (Cur, "msg1:1,P") (fs w') = None ∧
    at_path (New, "msg1") (fs w') = None ∧
    log w' = [not_for_any_list (Cur, "msg1:1,X")] ∧
    queued w' = [] ∧
    calls w' = [Rename (New, "msg1") (Cur, "msg1:1,P");
                Open (Cur, "msg1:1,P");
                Rename (Cur, "msg1:1,P") (Cur, "msg1:1,X")].
Proof.
  intros fv. split; [done|]. split; [done|]. split; [reflexivity|].
  pose proof (maildir_linked_once _ fv : linked_once fv (fs stray)) as Hu.
  split; [exact Hu|].
  destruct (route_first_valid parseaddr OWNER_PIPELINE site_bounces calm
              listnames) as (_ & _ & _ & H).
  destruct (H ltac:(done) ltac:(done) "msg1" [] stray fv
              (mail "someone@othersite.example"))
    as (w' & Hgo & HX & Hvac & Hl & Hq & Hc);
    [reflexivity|by eexists|reflexivity|reflexivity|].
  destruct (Hvac Hu) as [HP HN]. exists w'. by split_and!.
Defined.

(** Another runner claims msg3, the first file of the listing, just
    before this one tries: the rename raises [ENOENT] and the pass goes
    on with msg1 and msg2. *)
Lemma claim_rename_witness :
  let env := racing 1 "msg3" in
  let wl := (os_listdir env New three).2 in
  os_listdir env New three = (Ok ([] ++ "msg3" :: ["msg1"; "msg2"]), wl) ∧
  for_files env [] wl = (Ok tt, wl) ∧
  (os_rename env (New, "msg3") (Cur, "msg3:1,P") wl).1 =
    Raise (OSError ENOENT) ∧
  let '(r, w1) := os_rename env (New, "msg3") (Cur, "msg3" +:+ ":1,P") wl in
  calls w1 = calls wl ++ [Rename (New, "msg3") (Cur, "msg3" +:+ ":1,P")] ∧
  match r with
  | Ok _ =>
      _oneloop env three =
      (claimed env "msg3" (Cur, "msg3" +:+ ":1,P") (Cur, "msg3" +:+ ":1,X");;
       for_files env ["msg1"; "msg2"];;
       mret (length ([] ++ "msg3" :: ["msg1"; "msg2"]))) w1
  | Raise (OSError en) =>
      if decide (en = ENOENT) then
        log w1 = log wl ∧ queued w1 = queued wl ∧
        _oneloop env three =
        (for_files env ["msg1"; "msg2"];;
         mret (length ([] ++ "msg3" :: ["msg1"; "msg2"]))) w1
      else
        _oneloop env three =
        (Raise (OSError en), add_log (claim_error (New, "msg3")) w1)
  | Raise (Exception _) => False
  end.
Proof.
  intros env wl.
  assert (os_listdir env New three =
          (Ok ([] ++ "msg3" :: ["msg1"; "msg2"]), wl)) as Hlist
    by (by vm_compute).
  split; [exact Hlist|]. split; [reflexivity|]. split; [by vm_compute|].
  exact (claim_rename parseaddr OWNER_PIPELINE site_bounces env listnames
           three wl [] "msg3" ["msg1"; "msg2"] wl Hlist eq_refl).
Defined.

(** Three files listed; msg3 is lost to another runner, msg1 goes to the
    inbound switchboard, msg2 is quarantined: the pass returns 3. *)
Lemma oneloop_count_witness :
  let env := racing 1 "msg3" in
  let rw := _oneloop env three in
  faultless env ∧
  rw.1 = Ok 3 ∧
  log rw.2 = [processed "msg1"; not_for_any_list (Cur, "msg2:1,X")].
Proof.
  intros env rw. split; [done|]. split; [|by vm_compute].
  generalize (oneloop_count parseaddr OWNER_PIPELINE site_bounces env
                listnames three).
  subst rw. unfold _oneloop.
  destruct (MaildirRunner._oneloop _ _ _ env listnames three) as [r w'].
  destruct (os_listdir env New three) as [r0 w0] eqn:E0.
  assert (r0 = Ok ["msg3"; "msg1"; "msg2"]) as ->.
  { apply (f_equal fst) in E0. by vm_compute in E0. }
  intros (_ & _ & _ & H). apply H. intros n. reflexivity.
Defined.

(** The file cannot be read and the rename to [:1,X] is refused: the
    error of the reading is logged, the pass goes on, the maildir is as
    it was. *)
Lemma failure_after_claim_witness :
  let env := faulty [(2, EIO); (3, EACCES)] in
  let w0 := (os_listdir env New post).2 in
  let w := (os_rename env (New, "msg1") (Cur, "msg1:1,P") w0).2 in
  let e := OSError (errno_of EIO) in
  let w1 := (process env "msg1" (Cur, "msg1:1,P") (Cur, "msg1:1,X") w).2 in
  os_rename env (New, "msg1") (Cur, "msg1" +:+ ":1,P") w0 = (Ok tt, w) ∧
  process env "msg1" (Cur, "msg1" +:+ ":1,P") (Cur, "msg1" +:+ ":1,X") w =
    (Raise e, w1) ∧
  let fs1 := interfere env (length (calls w1)) (fs w1) in
  let '(r, w2) :=
    os_rename env (Cur, "msg1" +:+ ":1,P") (Cur, "msg1" +:+ ":1,X")
      (add_log (processing_error "msg1" e) w1) in
  for_files env ("msg1" :: []) w0 = for_files env [] w2 ∧
  calls w2 =
    calls w1 ++ [Rename (Cur, "msg1" +:+ ":1,P") (Cur, "msg1" +:+ ":1,X")] ∧
  log w2 = log w1 ++ [processing_error "msg1" e] ∧
  queued w2 = queued w1 ∧
  match r with
  | Ok _ =>
      at_path (Cur, "msg1" +:+ ":1,X") (fs w2) =
        at_path (Cur, "msg1" +:+ ":1,P") fs1 ∧
      is_Some (at_path (Cur, "msg1" +:+ ":1,P") fs1) ∧
      (at_path (Cur, "msg1" +:+ ":1,X") fs1 ≠
         at_path (Cur, "msg1" +:+ ":1,P") fs1 →
       at_path (Cur, "msg1" +:+ ":1,P") (fs w2) = None)
  | Raise e' => fs w2 = fs1 ∧ ∃ en, e' = OSError en
  end.
Proof.
  intros env w0 w e w1.
  assert (os_rename env (New, "msg1") (Cur, "msg1" +:+ ":1,P") w0 = (Ok tt, w))
    as Hclaim by (by vm_compute).
  assert (process env "msg1" (Cur, "msg1" +:+ ":1,P")
            (Cur, "msg1" +:+ ":1,X") w = (Raise e, w1))
    as Hproc by (by vm_compute).
  split; [exact Hclaim|]. split; [exact Hproc|].
  exact (failure_after_claim parseaddr OWNER_PIPELINE site_bounces env
           listnames "msg1" [] w0 w e w1 Hclaim Hproc).
Defined.








End DemoFacts.

(** * Further properties *)

(** ** The shape of what the pattern matches *)

Module lre_shape.
Import lre lre_facts.

Lemma app_empty_r s : s +:+ "" = s.
Proof. induction s as [|c s IH]; [done|]. by rewrite app_String, IH. Qed.

Lemma has_app P a b : has P (a +:+ b) = has P a || has P b.
Proof.
  induction a as [|c a IH]; [by rewrite app_empty|].
  rewrite app_String. simpl. by rewrite IH, orb_assoc.
Qed.

Lemma has_lower P s :
  (∀ c, P (lower_ascii c) = P c) → has P (lower s) = has P s.
Proof. intros HP. induction s as [|c s IH]; simpl; [done|]. by rewrite HP, IH. Qed.

Lemma is_dash_lower_b c : is_dash (lower_ascii c) = is_dash c.
Proof. by destruct c as [[] [] [] [] [] [] [] []]. Qed.

Lemma token_plain t :
  lower t ∈ subq_tokens → has is_delim t = false ∧ has is_dash t = false.
Proof.
  rewrite <- (has_lower is_delim t), <- (has_lower is_dash t)
    by (apply is_delim_lower || apply is_dash_lower_b).
  generalize (lower t). apply Forall_forall. unfold subq_tokens.
  repeat (constructor; [by split|]). constructor.
Qed.

Lemma before_delim_app m d r :
  has is_delim m = false → is_delim d = true →
  before_delim (m +:+ String d r) = Some m.
Proof.
  intros Hm Hd. induction m as [|c m IH].
  - rewrite app_empty. simpl. by rewrite Hd.
  - rewrite app_String. simpl in *. apply orb_false_elim in Hm as [-> Hm].
    by rewrite IH.
Qed.

Lemma before_delim_split s p :
  before_delim s = Some p →
  has is_delim p = false ∧ ∃ d r, is_delim d = true ∧ s = p +:+ String d r.
Proof.
  revert p. induction s as [|c s IH]; intros p; simpl; [done|].
  destruct (is_delim c) eqn:Hc.
  - intros [= <-]. split; [done|]. exists c, s. by rewrite app_empty.
  - destruct (before_delim s) as [p'|]; [|done]. intros [= <-].
    destruct (IH p' eq_refl) as (Hp & d & r & Hd & ->).
    split; [by simpl; rewrite Hc|]. exists d, r. by rewrite app_String.
Qed.

Lemma literal_complete tok m r :
  lower m = lower tok → literal tok (m +:+ r) = Some (m, r).
Proof.
  revert m. induction tok as [|a tok IH]; intros [|c m]; simpl; try done.
  intros [= Hc Hm].
  rewrite bool_decide_eq_true_2 by done. by rewrite IH.
Qed.

(** What [alternatives] returns stands before a delimiter and is a token
    up to letter case. *)
Lemma alternatives_sound toks s m :
  alternatives toks s = Some m →
  ∃ d r, is_delim d = true ∧ s = m +:+ String d r.
Proof.
  induction toks as [|t toks IH]; simpl; [done|].
  destruct (literal t s) as [[m' [|c r]]|] eqn:E; try done.
  destruct (is_delim c) eqn:Hc; [|done].
  intros [= <-]. apply literal_split in E as [-> _]. by exists c, r.
Qed.

Lemma alternatives_complete toks t m d r :
  t ∈ toks → lower m = lower t → is_delim d = true →
  is_Some (alternatives toks (m +:+ String d r)).
Proof.
  intros Ht Hm Hd. induction toks as [|t' toks IH]; [by apply elem_of_nil in Ht|].
  simpl. destruct (decide (t' = t)) as [->|Hne].
  - rewrite (literal_complete t m _ Hm), Hd. by eexists.
  - apply elem_of_cons in Ht as [->|Ht]; [done|]. specialize (IH Ht).
    destruct (literal t' _) as [[m' [|c r']]|]; try done.
    destruct (is_delim c); [by eexists|done].
Qed.

Lemma alternatives_iff s m :
  alternatives subq_tokens s = Some m ↔
  lower m ∈ subq_tokens ∧ before_delim s = Some m.
Proof.
  split.
  - intros H. pose proof H as (t & Ht & Hm)%alternatives_token.
    rewrite (tokens_lower t Ht) in Hm. rewrite Hm. split; [done|].
    apply alternatives_sound in H as (d & r & Hd & ->).
    apply before_delim_app; [|done]. apply token_plain. by rewrite Hm.
  - intros [Ht Hb]. apply before_delim_split in Hb as (_ & d & r & Hd & ->).
    destruct (alternatives_complete subq_tokens (lower m) m d r)
      as [m' Hm']; [done|by rewrite lower_idemp|done|].
    rewrite Hm'. f_equal.
    pose proof Hm' as (t & Ht' & Hm2)%alternatives_token.
    rewrite (tokens_lower t Ht') in Hm2.
    apply alternatives_sound in Hm' as (d' & r' & Hd' & Heq).
    assert (before_delim (m +:+ String d r) = Some m) as H1.
    { apply before_delim_app; [|done]. by apply token_plain. }
    rewrite Heq in H1. rewrite before_delim_app in H1; [congruence| |done].
    apply token_plain. by rewrite Hm2.
Qed.

Lemma tail_iff s subq :
  tail s = Some subq ↔
  match subq with
  | Some t => lower t ∈ subq_tokens ∧ before_delim s = Some (String "-" t)
  | None => before_delim s = Some EmptyString
  end.
Proof.
  unfold tail. destruct s as [|c s];
    [destruct subq; simpl; intuition congruence|].
  cbn [before_delim].
  case_bool_decide as Hc.
  - subst c. change (is_delim "-") with false. cbv iota.
    pose proof (alternatives_iff s) as Halt.
    destruct (alternatives subq_tokens s) as [m|] eqn:E.
    + destruct (proj1 (Halt m) eq_refl) as [Hm Hb]. rewrite Hb. simpl.
      destruct subq as [t|]; split; try done.
      * by intros [= <-].
      * by intros [_ [= <-]].
    + destruct (before_delim s) as [p|] eqn:Ep; simpl;
        destruct subq as [t|]; split; try done.
      * intros [Ht [= ->]]. by pose proof (proj2 (Halt t) (conj Ht eq_refl)).
      * by intros [_ ?].
  - destruct (is_delim c) eqn:Hd.
    + destruct subq; split; try done. by intros [_ ?].
    + destruct subq as [t|]; split; try done.
      * intros [_ H]. destruct (before_delim s); simpl in H; [|done].
        injection H as H. congruence.
      * by destruct (before_delim s).
Qed.

Lemma tail_None s : tail s = None → before_delim s ≠ Some EmptyString.
Proof.
  intros H Hb. by rewrite (proj2 (tail_iff s None) Hb) in H.
Qed.

Lemma more_sound s l subq :
  more s = Some (l, subq) →
  before_delim s = Some (l +:+ subq_text subq) ∧
  ∀ t, subq = Some t → lower t ∈ subq_tokens.
Proof.
  revert l. induction s as [|c s IH]; intros l.
  - done.
  - unfold more; fold more.
    destruct (tail (String c s)) as [q|] eqn:E.
    + intros [= <- ->]. apply tail_iff in E. rewrite app_empty.
      destruct subq as [t|]; [destruct E as [Ht E]|]; split; try done.
      by intros ? [= <-].
    + destruct (is_delim c) eqn:Hd; [done|].
      destruct (more s) as [[l' q]|]; [|done]. intros [= <- ->].
      destruct (IH l' eq_refl) as [Hb Ht]. split; [|done].
      rewrite app_String. simpl. by rewrite Hd, Hb.
Qed.

Lemma more_total s p : before_delim s = Some p → is_Some (more s).
Proof.
  revert p. induction s as [|c s IH]; intros p; [done|].
  unfold more; fold more. destruct (tail (String c s)) eqn:E; [by eexists|].
  apply tail_None in E. simpl in *.
  destruct (is_delim c); [done|].
  destruct (before_delim s) as [p'|]; [|done]. intros _.
  destruct (IH p' eq_refl) as [[l q] ->]. by eexists.
Qed.

Lemma more_token_found s l t :
  lower t ∈ subq_tokens →
  before_delim s = Some (l +:+ String "-" t) →
  more s = Some (l, Some t).
Proof.
  intros Ht. revert s. induction l as [|c l IH]; intros s.
  - rewrite app_empty. intros Hb.
    destruct s as [|c s]; [done|]. unfold more; fold more.
    by rewrite (proj2 (tail_iff (String c s) (Some t)) (conj Ht Hb)).
  - rewrite app_String. intros Hb.
    destruct s as [|c' s]; [done|]. simpl in Hb.
    destruct (is_delim c') eqn:Hd; [done|].
    destruct (before_delim s) as [p|] eqn:Ep; [|done].
    injection Hb as -> ->.
    unfold more; fold more.
    destruct (tail (String c s)) as [q|] eqn:E.
    + exfalso. apply tail_iff in E. simpl in E. rewrite Hd, Ep in E.
      destruct q as [t'|]; [|done]. destruct E as [Ht' [= -> E]].
      apply token_plain in Ht' as [_ Hdash]. rewrite <- E in Hdash.
      rewrite has_app in Hdash. simpl in Hdash.
      by rewrite orb_true_r in Hdash.
    + rewrite Hd. by rewrite (IH s Ep).
Qed.

Lemma match_sound to l subq :
  match_ to = Some (l, subq) →
  l ≠ EmptyString ∧ before_delim to = Some (l +:+ subq_text subq) ∧
  ∀ t, subq = Some t → lower t ∈ subq_tokens.
Proof.
  destruct to as [|c s]; simpl; [done|].
  destruct (is_delim c) eqn:Hd; [done|].
  destruct (more s) as [[l' q]|] eqn:E; [|done]. intros [= <- ->].
  apply more_sound in E as [-> Ht]. by rewrite app_String.
Qed.

Lemma match_total to p :
  before_delim to = Some p → p ≠ EmptyString → is_Some (match_ to).
Proof.
  destruct to as [|c s]; simpl; [done|].
  destruct (is_delim c); [by intros [= <-]|].
  destruct (before_delim s) as [p'|] eqn:E; [|done]. intros _ _.
  destruct (more_total s p' E) as [[l q] ->]. by eexists.
Qed.

Lemma match_found to l t :
  l ≠ EmptyString → lower t ∈ subq_tokens →
  before_delim to = Some (l +:+ String "-" t) →
  match_ to = Some (l, Some t).
Proof.
  intros Hl Ht Hb. destruct l as [|c l]; [done|].
  destruct to as [|c' s]; [done|]. rewrite app_String in Hb. simpl in *.
  destruct (is_delim c'); [done|].
  destruct (before_delim s) as [p|] eqn:E; [|done]. injection Hb as -> ->.
  by rewrite (more_token_found s l t Ht E).
Qed.

(** X1.  The pattern finds a sub-queue exactly when the text before the first
    [+] or [@] is a non-empty listname, a dash and one of the nine
    tokens in any letter case; the groups are that listname and that
    token as written. *)
Theorem match_with_token to l t :
  match_ to = Some (l, Some t) ↔
  l ≠ EmptyString ∧ lower t ∈ subq_tokens ∧
  before_delim to = Some (l +:+ String "-" t).
Proof.
  split.
  - intros (Hl & Hb & Ht)%match_sound. split_and!; [done|by apply Ht|done].
  - intros (Hl & Ht & Hb). by apply match_found.
Qed.

(** X2.  The pattern matches without a sub-queue exactly when the text before
    the first [+] or [@] is not empty and is not a non-empty listname
    followed by a dash and a token; the listname is then all of that
    text. *)
Theorem match_without_token to l :
  match_ to = Some (l, None) ↔
  l ≠ EmptyString ∧ before_delim to = Some l ∧
  ∀ l' t, l' ≠ EmptyString → lower t ∈ subq_tokens →
    l ≠ l' +:+ String "-" t.
Proof.
  split.
  - intros H. pose proof H as (Hl & Hb & _)%match_sound.
    simpl in Hb. rewrite app_empty_r in Hb. split_and!; try done.
    intros l' t Hl' Ht ->.
    by rewrite (match_found to l' t) in H.
  - intros (Hl & Hb & Hno).
    destruct (match_total to l Hb Hl) as [[l' [t|]] Hm].
    + pose proof Hm as (Hl' & Hb' & Ht)%match_sound. simpl in Hb'.
      destruct (Hno l' t); [done|by apply Ht|congruence].
    + pose proof Hm as (_ & Hb' & _)%match_sound.
      simpl in Hb'. rewrite app_empty_r in Hb'. congruence.
Qed.

(** X3.  The pattern fails exactly on an address with no [+] or [@], or with
    one of them as its first character. *)
Theorem match_fails to :
  match_ to = None ↔
  before_delim to = None ∨ before_delim to = Some EmptyString.
Proof.
  split.
  - intros H. destruct (before_delim to) as [[|c p]|] eqn:E; [by right| |by left].
    destruct (match_total to (String c p) E) as [r Hr]; [done|congruence].
  - intros H. destruct (match_ to) as [[l q]|] eqn:E; [|done].
    apply match_sound in E as (Hl & Hb & _).
    destruct l as [|c l]; [done|]. rewrite app_String in Hb.
    destruct H as [H|H]; congruence.
Qed.

(** X4.  Two addresses that differ in letter case only are matched alike, and
    their groups differ in letter case only. *)
Theorem match_ignores_case a b :
  lower a = lower b →
  match match_ a, match_ b with
  | Some (l1, q1), Some (l2, q2) =>
      lower l1 = lower l2 ∧ lower <$> q1 = lower <$> q2
  | None, None => True
  | _, _ => False
  end.
Proof.
  intros H. pose proof (match_lower a) as Ha.
  pose proof (match_lower b) as Hb. rewrite H in Ha.
  destruct (match_ a) as [[l1 q1]|], (match_ b) as [[l2 q2]|];
    by simplify_eq.
Qed.

(** X5.  The pattern reads an address up to its first [+] or [@] and no
    further: two addresses that agree up to there are matched alike,
    whatever detail or domain follows. *)
Theorem match_reads_local_part a b :
  before_delim a = before_delim b → match_ a = match_ b.
Proof.
  intros H. destruct (match_ a) as [[l q]|] eqn:Ea.
  - pose proof Ea as (Hl & Hb & Ht)%match_sound. rewrite H in Hb.
    destruct q as [t|]; [symmetry; apply match_found; by auto|].
    simpl in Hb. rewrite app_empty_r in Hb.
    destruct (match_total b l Hb Hl) as [[l' [t'|]] Hm].
    + pose proof Hm as (Hl' & Hb' & Ht')%match_sound. rewrite <- H in Hb'.
      rewrite (match_found a l' t') in Ea; by auto.
    + pose proof Hm as (_ & Hb' & _)%match_sound.
      simpl in Hb'. rewrite app_empty_r in Hb'. congruence.
  - destruct (match_ b) as [[l q]|] eqn:Eb; [|done].
    apply match_sound in Eb as (Hl & Hb & _). rewrite <- H in Hb.
    destruct (match_total a _ Hb) as [r Hr]; [|congruence].
    destruct l; [done|]. by rewrite app_String.
Qed.

Lemma lower_fixed_app a b :
  lower (a +:+ b) = a +:+ b → lower a = a ∧ lower b = b.
Proof.
  rewrite lower_app. apply app_inj_len.
  induction b as [|c b IH]; simpl; congruence.
Qed.

End lre_shape.

Section LowerCase.

Variable OWNER_PIPELINE : list string.
Variable site_bounces : string.

(** X6.  For an address written in lower case that the pattern accepts, the
    selector always has a destination: the final [else] of the dispatch
    is not reached. *)
Theorem lower_case_address_selected to listname subq :
  lower to = to →
  lre.match_ to = Some (listname, subq) →
  is_Some (select OWNER_PIPELINE site_bounces listname subq).
Proof.
  intros Hlow (_ & Hb & Ht)%lre_shape.match_sound.
  destruct subq as [t|]; [|by eexists].
  apply select_token. specialize (Ht t eq_refl).
  apply lre_shape.before_delim_split in Hb as (_ & d & r & _ & Hto).
  rewrite Hto in Hlow.
  apply lre_shape.lower_fixed_app in Hlow as [Hlow _].
  apply lre_shape.lower_fixed_app in Hlow as [_ Hlow].
  simpl in Hlow. injection Hlow as Hlow. by rewrite <- Hlow.
Qed.

End LowerCase.

(** ** The headers the router reads *)

Lemma get_all_recipient_fields msg h :
  h ∈ recipient_headers →
  get_all msg h [] =
  (filter (λ kv : string * string, kv.1 = h) (recipient_fields msg)).*2.
Proof.
  intros Hh. rewrite get_all_values.
  assert (lower h = h) as ->.
  { revert h Hh. apply Forall_forall. unfold recipient_headers.
    repeat (constructor; [reflexivity|]). constructor. }
  unfold recipient_fields, Message in *. induction msg as [|[k v] msg IH]; [done|].
  rewrite !filter_cons. cbn [fst snd].
  destruct (decide (lower k = h)) as [Hk|Hk].
  - rewrite decide_True by by rewrite Hk.
    rewrite !fmap_cons. cbn [fst snd].
    rewrite filter_cons, decide_True by done. rewrite fmap_cons. cbn [snd].
    by rewrite IH.
  - case_decide; [|done].
    rewrite fmap_cons. cbn [fst snd]. by rewrite filter_cons, decide_False.
Qed.

(** X7.  Routing reads nothing of a message but its Delivered-To, Envelope-To
    and Apparently-To fields, whose names it takes in any letter case:
    two messages that agree on these fields give the router the same
    values, whatever their other fields (To, Cc, ...) are. *)
Theorem other_headers_not_read msg1 msg2 :
  recipient_fields msg1 = recipient_fields msg2 →
  header_values msg1 = header_values msg2.
Proof.
  intros H. rewrite !header_values_order.
  rewrite !get_all_recipient_fields, H; try done;
    unfold recipient_headers; rewrite !elem_of_cons; auto.
Qed.

(** ** A pass with nothing in the way *)

Lemma at_path_dir p fs f : at_path p fs = Some f → is_Some (entries p.1 fs).
Proof. unfold at_path. by destruct (entries p.1 fs). Qed.

Lemma fs_unlink_total p fs f :
  at_path p fs = Some f → ∃ fs', fs_unlink p fs = inr (tt, fs').
Proof.
  unfold fs_unlink, at_path. destruct (entries p.1 fs) as [m|]; [|done].
  simpl. intros ->. by eauto.
Qed.

Section CalmFacts.

Import MaildirRunner.

Variable parseaddr : string → string * string.
Variable OWNER_PIPELINE : list string.
Variable site_bounces : string.
Variable env : Env.
Variable listnames : list string.

Abbreviation process :=
  (process parseaddr OWNER_PIPELINE site_bounces env listnames).
Abbreviation one_file :=
  (one_file parseaddr OWNER_PIPELINE site_bounces env listnames).
Abbreviation for_files :=
  (for_files parseaddr OWNER_PIPELINE site_bounces env listnames).
Abbreviation _oneloop :=
  (_oneloop parseaddr OWNER_PIPELINE site_bounces env listnames).
Abbreviation claimed file :=
  (claimed parseaddr OWNER_PIPELINE site_bounces env listnames file
     (Cur, file +:+ ":1,P") (Cur, file +:+ ":1,X")).
Abbreviation dest :=
  (destination parseaddr OWNER_PIPELINE site_bounces listnames).
Abbreviation rep :=
  (report parseaddr OWNER_PIPELINE site_bounces listnames).

Hypothesis Hquiet : quiet env.
Hypothesis Hfaultless : faultless env.
Hypothesis Hreliable : reliable env.

Lemma lib_call_run c w :
  lib_call env c w =
  (Ok tt, mkWorld (fs w) (queued w) (log w) (calls w ++ [c])).
Proof. unfold lib_call, enter. by rewrite Hreliable, Hquiet. Qed.

(** A claimed file with nothing in the way: its message goes to a
    switchboard and the file is unlinked, or the file is renamed to its
    [:1,X] name; one entry is logged. *)
Lemma claimed_calm file w fv :
  at_path (Cur, file +:+ ":1,P") (fs w) = Some fv →
  ∃ w', claimed file w = (Ok tt, w') ∧
    queued w' = queued w ++ option_list (dest fv) ∧
    log w' = log w ++ [rep file fv] ∧
    match dest fv with
    | Some _ => fs_unlink (Cur, file +:+ ":1,P") (fs w) = inr (tt, fs w')
    | None =>
        fs_rename (Cur, file +:+ ":1,P") (Cur, file +:+ ":1,X") (fs w) =
        inr (tt, fs w')
    end.
Proof.
  intros Hat.
  destruct (fs_rename_total (Cur, file +:+ ":1,P") (Cur, file +:+ ":1,X")
              (fs w) fv Hat) as [fs2 Hfs2]; [by apply (at_path_dir _ _ _ Hat)|].
  destruct (fs_unlink_total _ _ _ Hat) as [fs3 Hfs3].
  rewrite claimed_eq. unfold MaildirRunner.process, load.
  rewrite !bind_eq, (os_call_run _ _ _ _ Hquiet Hfaultless).
  unfold fs_open. rewrite Hat. unfold destination, report.
  destruct (content fv) as [msg|e]; simpl.
  - destruct (route _ _ _) as [[listname subq]|].
    + destruct (select _ _ _ _) as [[queue msgdata]|].
      * unfold enqueue. rewrite !bind_eq, lib_call_run. simpl.
        rewrite bind_eq. unfold os_unlink. rewrite (os_call_run _ _ _ _ Hquiet Hfaultless).
        simpl. rewrite Hfs3. simpl.
        eexists. split; [done|]. simpl. by split_and!.
      * rewrite bind_eq. simpl. unfold os_rename.
        rewrite (os_call_run _ _ _ _ Hquiet Hfaultless). simpl. rewrite Hfs2.
        eexists. split; [done|]. simpl. rewrite app_nil_r.
        by split_and!.
    + rewrite bind_eq. simpl. unfold os_rename.
      rewrite (os_call_run _ _ _ _ Hquiet Hfaultless). simpl. rewrite Hfs2.
      eexists. split; [done|]. simpl. rewrite app_nil_r.
      by split_and!.
  - unfold os_rename.
    rewrite (os_call_run _ _ _ _ Hquiet Hfaultless). simpl. rewrite Hfs2.
    eexists. split; [done|]. simpl. rewrite app_nil_r.
    by split_and!.
Qed.

(** A file of new/ that is linked there only, with nothing in the way:
    it is claimed and handled, and leaves its three names but the
    [:1,X] name of a file set aside. *)
Lemma one_file_calm file w fv :
  at_path (New, file) (fs w) = Some fv → is_Some (cur (fs w)) →
  linked_once fv (fs w) →
  ∃ w', one_file file w = (Ok tt, w') ∧
    queued w' = queued w ++ option_list (dest fv) ∧
    log w' = log w ++ [rep file fv] ∧
    (∀ p, at_path p (fs w') =
       if decide (p = (Cur, file +:+ ":1,X")) then
         match dest fv with
         | None => Some fv
         | Some _ => at_path p (fs w)
         end
       else if decide (p ∈ paths_of file) then None else at_path p (fs w)) ∧
    (∀ d, is_Some (entries d (fs w')) ↔ is_Some (entries d (fs w))) ∧
    (∀ gv, linked_once gv (fs w) → linked_once gv (fs w')) ∧
    (is_Some (dest fv) → gone fv (fs w')).
Proof.
  intros Hat Hcur Hu.
  assert ((Cur, file +:+ ":1,P") ≠ (Cur, file +:+ ":1,X")) as HPX.
  { intros [= H]. by apply suffix_P_X in H. }
  assert (∀ p, p ≠ (New, file) → at_path p (fs w) ≠ Some fv) as Hnot.
  { intros p Hp H. apply Hp. by apply Hu. }
  destruct (fs_rename_total (New, file) (Cur, file +:+ ":1,P") (fs w) fv
              Hat Hcur) as [fs1 Hfs1].
  pose proof (fs_rename_ok _ _ _ _ Hfs1) as (_ & _ & _ & Hd1).
  pose proof (fs_rename_cases _ _ _ _ Hfs1) as (f1 & Hf1 & [[_ Hl]|[_ Hat1]]).
  { assert (f1 = fv) as -> by congruence. by apply Hnot in Hl. }
  assert (f1 = fv) as -> by congruence.
  rewrite one_file_eq. unfold os_rename at 1.
  rewrite (os_call_run _ _ _ _ Hquiet Hfaultless), Hfs1.
  destruct (claimed_calm file
    (mkWorld fs1 (queued w) (log w)
       (calls w ++ [Rename (New, file) (Cur, file +:+ ":1,P")])) fv)
    as (w' & -> & Hq & Hl & Hfs).
  { simpl. by rewrite Hat1, decide_True. }
  simpl in *.
  assert (∀ p, at_path p (fs w') =
       if decide (p = (Cur, file +:+ ":1,X")) then
         match dest fv with
         | None => Some fv
         | Some _ => at_path p (fs w)
         end
       else if decide (p ∈ paths_of file) then None else at_path p (fs w))
    as Hat'.
  { intros p. unfold paths_of. destruct (dest fv) as [item|].
    + apply fs_unlink_ok in Hfs as [Hat3 _]. rewrite Hat3, Hat1.
      repeat case_decide; subst; try done;
        repeat match goal with
        | H : _ ∈ _ :: _ |- _ => apply elem_of_cons in H as [H|H]
        | H : _ ∈ [] |- _ => by apply elem_of_nil in H
        | H : ¬ _ ∈ _ :: _ |- _ => rewrite !elem_of_cons in H
        end; try done; exfalso; tauto.
    + apply fs_rename_cases in Hfs as (f2 & Hf2 & [[_ Hl2]|[_ Hat2]]).
      { rewrite Hat1, decide_True in Hf2 by done. injection Hf2 as <-.
        rewrite Hat1, decide_False, decide_False in Hl2 by done.
        by apply Hnot in Hl2. }
      rewrite Hat1, decide_True in Hf2 by done. injection Hf2 as <-.
      rewrite Hat2, Hat1.
      repeat case_decide; subst; try done;
        repeat match goal with
        | H : _ ∈ _ :: _ |- _ => apply elem_of_cons in H as [H|H]
        | H : _ ∈ [] |- _ => by apply elem_of_nil in H
        | H : ¬ _ ∈ _ :: _ |- _ => rewrite !elem_of_cons in H
        end; try done; exfalso; tauto. }
  exists w'. split_and!; try done.
  - intros d. rewrite <- Hd1. destruct (dest fv).
    + by apply fs_unlink_ok in Hfs as [_ Hd3].
    + by apply fs_rename_ok in Hfs as (_ & _ & _ & Hd2).
  - intros gv Hgv. apply (linked_once_rename gv _ _ _ _ Hfs1) in Hgv.
    destruct (dest fv).
    + by apply (linked_once_unlink gv _ _ _ Hfs).
    + by apply (linked_once_rename gv _ _ _ _ Hfs).
  - intros [item Hitem] p. rewrite Hat', Hitem.
    repeat case_decide; subst; try done; apply Hnot; try done.
    intros ->. by pose proof (paths_of_new file).
Qed.

Lemma omap_agree {A B} (f g : A → option B) (l : list A) :
  (∀ x, x ∈ l → f x = g x) → omap f l = omap g l.
Proof.
  induction l as [|x l IH]; intros H; [done|]. csimpl.
  rewrite (H x) by by left. rewrite IH; [done|]. intros y Hy. apply H. by right.
Qed.

Lemma omap_fmap_list {A B C} (f : B → option C) (g : A → B) (l : list A) :
  omap f (g <$> l) = omap (λ x, f (g x)) l.
Proof. induction l as [|x l IH]; [done|]. csimpl. by rewrite IH. Qed.

Lemma new_path_of file g : (New, g) ∈ paths_of file → g = file.
Proof.
  unfold paths_of. rewrite !elem_of_cons, elem_of_nil.
  intros [[= ->]|[?|[?|[]]]]; done.
Qed.

Lemma omap_Some {A B} (f : A → B) (l : list A) :
  omap (λ x, Some (f x)) l = f <$> l.
Proof. induction l as [|x l IH]; [done|]. csimpl. by rewrite IH. Qed.

Lemma for_files_calm files w :
  NoDup files →
  (∀ file, file ∈ files → is_Some (at_path (New, file) (fs w))) →
  (∀ file fv, file ∈ files → at_path (New, file) (fs w) = Some fv →
     linked_once fv (fs w)) →
  is_Some (cur (fs w)) →
  ∃ w', for_files files w = (Ok tt, w') ∧
    queued w' =
      queued w ++ omap (λ file, at_path (New, file) (fs w) ≫= dest) files ∧
    log w' =
      log w ++ omap (λ file, rep file <$> at_path (New, file) (fs w)) files ∧
    (∀ file fv, file ∈ files → at_path (New, file) (fs w) = Some fv →
       at_path (New, file) (fs w') = None ∧
       at_path (Cur, file +:+ ":1,P") (fs w') = None ∧
       at_path (Cur, file +:+ ":1,X") (fs w') =
         match dest fv with
         | None => Some fv
         | Some _ => at_path (Cur, file +:+ ":1,X") (fs w)
         end) ∧
    (∀ p, (∀ file, file ∈ files → p ∉ paths_of file) →
       at_path p (fs w') = at_path p (fs w)) ∧
    (∀ d, is_Some (entries d (fs w')) ↔ is_Some (entries d (fs w))).
Proof.
  revert w. induction files as [|file files IH]; intros w Hnd Hin Hlinked Hcur.
  - exists w. simpl. rewrite !app_nil_r. split_and!; try done.
    intros file fv H. by apply elem_of_nil in H.
  - apply NoDup_cons in Hnd as [Hfile Hnd].
    destruct (Hin file) as [fv Hfv]; [by left|].
    destruct (one_file_calm file w fv Hfv Hcur)
      as (w1 & H1 & Hq1 & Hl1 & Hat1 & Hd1 & Hu1 & _).
    { apply (Hlinked file); [by left|done]. }
    assert (∀ p, p ∉ paths_of file → at_path p (fs w1) = at_path p (fs w))
      as Hframe1.
    { intros p Hp. rewrite Hat1, decide_False, decide_False; [done..|].
      intros ->. apply Hp, paths_of_X. }
    assert (∀ g, g ∈ files →
              at_path (New, g) (fs w1) = at_path (New, g) (fs w)) as Hnew1.
    { intros g Hg. apply Hframe1. intros ->%new_path_of. done. }
    destruct (IH w1) as (w' & H2 & Hq2 & Hl2 & Hat2 & Hframe2 & Hd2);
      [done| | |by apply (Hd1 Cur)|].
    { intros g Hg. rewrite Hnew1 by done. apply Hin. by right. }
    { intros g gv Hg Hgv. rewrite Hnew1 in Hgv by done.
      apply Hu1, (Hlinked g); [by right|done]. }
    assert (∀ p, p ∈ paths_of file → at_path p (fs w') = at_path p (fs w1))
      as Hown.
    { intros p Hp. apply Hframe2. intros g Hg.
      apply (paths_of_disjoint file g); [|done]. by intros ->. }
    exists w'. split_and!.
    + cbn [MaildirRunner.for_files]. by rewrite bind_eq, H1.
    + rewrite Hq2, Hq1, <- app_assoc. f_equal. simpl. rewrite Hfv. simpl.
      assert (omap (λ g, at_path (New, g) (fs w1) ≫= dest) files =
              omap (λ g, at_path (New, g) (fs w) ≫= dest) files) as ->.
      { apply omap_agree. intros g Hg. by rewrite Hnew1. }
      by destruct (dest fv).
    + rewrite Hl2, Hl1, <- app_assoc. f_equal. csimpl. rewrite Hfv. simpl.
      f_equal. apply omap_agree. intros g Hg. by rewrite Hnew1.
    + intros g gv [->|Hg]%elem_of_cons Hgv.
      * assert (gv = fv) as -> by congruence.
        split_and!.
        -- rewrite Hown, Hat1, decide_False, decide_True;
             [done|apply paths_of_new|done|apply paths_of_new].
        -- rewrite Hown, Hat1, decide_False, decide_True;
             [done|apply paths_of_P| |apply paths_of_P].
           intros [= H]. by apply suffix_P_X in H.
        -- rewrite Hown, Hat1, decide_True; [done..|apply paths_of_X].
      * rewrite <- Hnew1 in Hgv by done.
        destruct (Hat2 g gv Hg Hgv) as (-> & -> & ->).
        split_and!; try done. destruct (dest gv); [|done].
        apply Hframe1. apply (paths_of_disjoint g file); [|apply paths_of_X].
        by intros ->.
    + intros p Hp. rewrite Hframe2, Hframe1; [done| |].
      * apply Hp. by left.
      * intros g Hg. apply Hp. by right.
    + intros d. by rewrite Hd2.
Qed.

(** A pass with nothing in the way, on a maildir whose new/ holds the
    files [m], each linked there only. *)
Lemma oneloop_calm w m :
  new (fs w) = Some m → is_Some (cur (fs w)) →
  (∀ file fv, m !! file = Some fv → linked_once fv (fs w)) →
  ∃ w', _oneloop w = (Ok (size m), w') ∧
    queued w' = queued w ++ omap (λ nf, dest nf.2) (map_to_list m) ∧
    log w' = log w ++ ((λ nf, rep nf.1 nf.2) <$> map_to_list m) ∧
    (∀ file fv, m !! file = Some fv →
       at_path (New, file) (fs w') = None ∧
       at_path (Cur, file +:+ ":1,P") (fs w') = None ∧
       at_path (Cur, file +:+ ":1,X") (fs w') =
         match dest fv with
         | None => Some fv
         | Some _ => at_path (Cur, file +:+ ":1,X") (fs w)
         end) ∧
    (∀ p, (∀ file, is_Some (m !! file) → p ∉ paths_of file) →
       at_path p (fs w') = at_path p (fs w)) ∧
    (∀ d, is_Some (entries d (fs w')) ↔ is_Some (entries d (fs w))).
Proof.
  intros Hnew Hcur Hlinked.
  assert (∀ file, at_path (New, file) (fs w) = m !! file) as Hat.
  { intros file. unfold at_path. simpl. by rewrite Hnew. }
  assert (∀ file, file ∈ (map_to_list m).*1 ↔ is_Some (m !! file)) as Hfiles.
  { intros file. rewrite list_elem_of_fmap. split.
    - intros ([n f] & -> & H%elem_of_map_to_list). by eexists.
    - intros [f Hf]. exists (file, f). by rewrite elem_of_map_to_list. }
  rewrite oneloop_eq. unfold os_listdir.
  rewrite (os_call_run _ _ _ _ Hquiet Hfaultless). unfold fs_listdir.
  simpl. rewrite Hnew. rewrite bind_eq.
  destruct (for_files_calm (map_to_list m).*1
    (mkWorld (fs w) (queued w) (log w) (calls w ++ [Listdir New])))
    as (w' & -> & Hq & Hl & Hfate & Hframe & Hd); simpl in *.
  { apply NoDup_fst_map_to_list. }
  { intros file Hf. rewrite Hat. by apply Hfiles. }
  { intros file fv _ Hf. rewrite Hat in Hf. by apply (Hlinked file). }
  { done. }
  exists w'. rewrite length_fmap, length_map_to_list in *.
  split_and!; try done.
  - rewrite Hq. f_equal. rewrite omap_fmap_list. apply omap_agree.
    intros [n f] Hnf%elem_of_map_to_list. simpl. by rewrite Hat, Hnf.
  - rewrite Hl. f_equal. rewrite omap_fmap_list, <- omap_Some.
    apply omap_agree.
    intros [n f] Hnf%elem_of_map_to_list. simpl. by rewrite Hat, Hnf.
  - intros file fv Hf. apply Hfate; [apply Hfiles; by eexists|by rewrite Hat].
  - intros p Hp. apply Hframe. intros file Hf. by apply Hp, Hfiles.
Qed.

Lemma calm_new_empty w m w' :
  new (fs w) = Some m →
  (∀ file fv, m !! file = Some fv → at_path (New, file) (fs w') = None) →
  (∀ p, (∀ file, is_Some (m !! file) → p ∉ paths_of file) →
     at_path p (fs w') = at_path p (fs w)) →
  (∀ d, is_Some (entries d (fs w')) ↔ is_Some (entries d (fs w))) →
  new (fs w') = Some ∅.
Proof.
  intros Hnew Hfate Hframe Hd.
  destruct (proj2 (Hd New)) as [m' Hm']; [simpl; rewrite Hnew; by eexists|].
  simpl in Hm'. rewrite Hm'. f_equal. apply map_empty. intros file.
  assert (at_path (New, file) (fs w') = m' !! file) as <-.
  { unfold at_path. simpl. by rewrite Hm'. }
  destruct (m !! file) as [fv|] eqn:Hf; [by apply (Hfate file fv)|].
  rewrite Hframe.
  - unfold at_path. simpl. by rewrite Hnew.
  - intros g [gv Hg] ->%new_path_of. congruence.
Qed.

(** X10.  With no other process at work, no fault and no failing call into
    Mailman, a pass on a maildir with new/ and cur/, where every file of
    new/ is linked there only, returns the number of files of new/ and
    leaves new/ empty.  In the order of the listing, each file that has
    a destination gives the switchboards its one message, a file
    without destination gives none, and each file gives the log its one
    entry: the success, or why the file is set aside. *)
Theorem calm_pass_drains w m :
  new (fs w) = Some m → is_Some (cur (fs w)) →
  (∀ file fv, m !! file = Some fv → linked_once fv (fs w)) →
  let '(r, w') := _oneloop w in
  r = Ok (size m) ∧
  new (fs w') = Some ∅ ∧
  queued w' = queued w ++ omap (λ nf, dest nf.2) (map_to_list m) ∧
  log w' = log w ++ ((λ nf, rep nf.1 nf.2) <$> map_to_list m).
Proof.
  intros Hnew Hcur Hlinked.
  destruct (oneloop_calm w m Hnew Hcur Hlinked)
    as (w' & -> & Hq & Hl & Hfate & Hframe & Hd).
  split_and!; try done.
  apply (calm_new_empty w m); try done.
  intros file fv Hf. by destruct (Hfate file fv Hf).
Qed.

(** X12.  After a pass with no other process at work, no fault and no
    failing call into Mailman, on a maildir where every file of new/ is
    linked there only, a second pass finds nothing to do: it returns 0 and
    changes neither the maildir, nor the switchboards, nor the log.  No
    message is handed over twice. *)
Theorem second_pass_idle w m :
  new (fs w) = Some m → is_Some (cur (fs w)) →
  (∀ file fv, m !! file = Some fv → linked_once fv (fs w)) →
  let w1 := (_oneloop w).2 in
  let '(r, w2) := _oneloop w1 in
  r = Ok 0 ∧ fs w2 = fs w1 ∧ queued w2 = queued w1 ∧ log w2 = log w1.
Proof.
  intros Hnew Hcur Hlinked w1.
  pose proof (oneloop_calm w m Hnew Hcur Hlinked) as H.
  assert (new (fs w1) = Some ∅) as H1.
  { destruct H as (w' & E & _ & _ & Hfate & Hframe & Hd). subst w1.
    rewrite E. apply (calm_new_empty w m); try done.
    intros file fv Hf. by destruct (Hfate file fv Hf). }
  clearbody w1. rewrite oneloop_eq. unfold os_listdir.
  rewrite (os_call_run _ _ _ _ Hquiet Hfaultless). unfold fs_listdir.
  simpl. rewrite H1. by rewrite map_to_list_empty.
Qed.

Lemma quiet_workers name fv : workers env name fv.
Proof.
  intros n fs s Hs. rewrite Hquiet. exists s. by destruct s.
Qed.

Lemma quiet_keeps_cur : keeps_cur env.
Proof. intros n fs. by rewrite Hquiet. Qed.

(** X11.  In a pass with no other process at work, no fault and no
    failing call into Mailman, every file of new/ that was linked there
    only meets its fate: it is removed when it has a destination, and quarantined
    under its [:1,X] name when it has none. *)
Theorem calm_pass_fate w m name fv :
  new (fs w) = Some m → is_Some (cur (fs w)) →
  m !! name = Some fv → linked_once fv (fs w) →
  in_state name fv (fs (_oneloop w).2)
    (match dest fv with Some _ => removed | None => quarantined end).
Proof.
  intros Hnew Hcur Hm Hu.
  assert (at_path (New, name) (fs w) = Some fv) as Hat.
  { unfold at_path. simpl. by rewrite Hnew. }
  pose proof (quiet_alone env 0 name fv Hquiet) as Halone.
  assert (name ∈ (map_to_list m).*1) as Hin.
  { apply list_elem_of_fmap. exists (name, fv).
    by rewrite elem_of_map_to_list. }
  pose proof (NoDup_fst_map_to_list m) as Hnd.
  apply list_elem_of_split in Hin as (pre & post & Hsplit).
  rewrite oneloop_eq. unfold os_listdir.
  rewrite (os_call_run _ _ _ _ Hquiet Hfaultless). unfold fs_listdir.
  simpl. rewrite Hnew. rewrite Hsplit in *. clear Hsplit.
  apply NoDup_app in Hnd as (_ & Hpre & [Hpost _]%NoDup_cons).
  assert (name ∉ pre) as Hpre'.
  { intros H. apply (Hpre _ H). by left. }
  assert (∀ gs p, name ∉ gs → p ∈ paths_of name → p ∉ gs ≫= paths_of)
    as Hother.
  { intros gs p Hgs Hp (g & Hg & Hgin)%list_elem_of_bind.
    apply (paths_of_disjoint name g p); [by intros ->|done..]. }
  rewrite bind_eq, for_files_app, bind_eq.
  set (wl := mkWorld (fs w) (queued w) (log w) (calls w ++ [Listdir New])).
  (* the files before it *)
  pose proof (for_files_result parseaddr OWNER_PIPELINE site_bounces env
    listnames pre wl) as Hr0.
  destruct (confined_for_files parseaddr OWNER_PIPELINE site_bounces env
    listnames name fv 0 Halone pre wl (Nat.le_0_l _))
    as [_ (Hat0 & Hu0 & _)].
  destruct (drifting_for_files parseaddr OWNER_PIPELINE site_bounces env
    listnames name fv (quiet_workers name fv) quiet_keeps_cur pre Hpre' wl)
    as [_ Hcur0].
  destruct (for_files pre wl) as [[[]|e] wc].
  2: { destruct Hr0 as [?|(_ & _ & _ & _ & _ & _ & n & f & Hf)]; [done|].
       by rewrite Hfaultless in Hf. }
  simpl in Hat0, Hu0, Hcur0.
  (* the file *)
  cbn [MaildirRunner.for_files]. rewrite bind_eq.
  destruct (one_file_calm name wc fv)
    as (w1 & -> & _ & _ & Hat1 & _ & _ & Hgone); [| |by apply Hu0|].
  { rewrite Hat0; [done|apply paths_of_new|]. apply Hother; [done|].
    apply paths_of_new. }
  { by apply Hcur0. }
  (* the files after it *)
  destruct (confined_for_files parseaddr OWNER_PIPELINE site_bounces env
    listnames name fv 0 Halone post w1 (Nat.le_0_l _))
    as [_ (Hat2 & _ & Hg2)].
  destruct (for_files post w1) as [[[]|e] w2]; simpl in *;
    destruct (dest fv) as [item|]; simpl.
  - apply Hg2, Hgone. by eexists.
  - rewrite Hat2; [|apply paths_of_X|apply Hother; [done|apply paths_of_X]].
    by rewrite Hat1, decide_True.
  - apply Hg2, Hgone. by eexists.
  - rewrite Hat2; [|apply paths_of_X|apply Hother; [done|apply paths_of_X]].
    by rewrite Hat1, decide_True.
Qed.

End CalmFacts.

(** ** A pass among faults *)

Lemma fs_rename_no_target src dst fs :
  entries dst.1 fs = None → fs_rename src dst fs = inl ENOENT.
Proof.
  intros Hd. unfold fs_rename.
  destruct (entries src.1 fs) as [ms|] eqn:Es; [|done].
  destruct (ms !! src.2); [|done].
  rewrite decide_False by (unfold at_path; by rewrite Hd).
  rewrite entries_set_entries. case_decide as E; [congruence|].
  by rewrite Hd.
Qed.

Section QuietFacts.

Import MaildirRunner.

Variable parseaddr : string → string * string.
Variable OWNER_PIPELINE : list string.
Variable site_bounces : string.
Variable env : Env.
Variable listnames : list string.

Abbreviation process :=
  (process parseaddr OWNER_PIPELINE site_bounces env listnames).
Abbreviation one_file :=
  (one_file parseaddr OWNER_PIPELINE site_bounces env listnames).
Abbreviation for_files :=
  (for_files parseaddr OWNER_PIPELINE site_bounces env listnames).
Abbreviation _oneloop :=
  (_oneloop parseaddr OWNER_PIPELINE site_bounces env listnames).
Abbreviation claimed file :=
  (claimed parseaddr OWNER_PIPELINE site_bounces env listnames file
     (Cur, file +:+ ":1,P") (Cur, file +:+ ":1,X")).

Hypothesis Hquiet : quiet env.

Lemma os_call_at {A} c (op : FS → errno + (A * FS)) w :
  os_call env c op w =
  match os_fault env (length (calls w)) with
  | Some ft =>
      (Raise (OSError (errno_of ft)),
       mkWorld (fs w) (queued w) (log w) (calls w ++ [c]))
  | None =>
      match op (fs w) with
      | inl e => (Raise (OSError e),
                  mkWorld (fs w) (queued w) (log w) (calls w ++ [c]))
      | inr (a, fs') =>
          (Ok a, mkWorld fs' (queued w) (log w) (calls w ++ [c]))
      end
  end.
Proof.
  unfold os_call, enter. simpl. rewrite Hquiet.
  destruct (os_fault env _); [done|]. by destruct (op (fs w)) as [e|[a fs']].
Qed.

Lemma lib_call_at c w :
  lib_call env c w =
  (match lib_fault env (length (calls w)) with
   | Some e => Raise e
   | None => Ok tt
   end, mkWorld (fs w) (queued w) (log w) (calls w ++ [c])).
Proof.
  unfold lib_call, enter. simpl. rewrite Hquiet.
  by destruct (lib_fault env _).
Qed.

(** *** A maildir without cur/ *)

Lemma for_files_no_cur files w :
  faultless env → cur (fs w) = None →
  ∃ cs, for_files files w =
        (Ok tt, mkWorld (fs w) (queued w) (log w) (calls w ++ cs)).
Proof.
  intros Hf. revert w. induction files as [|file files IH]; intros w Hcur.
  - exists []. rewrite app_nil_r. by destruct w.
  - cbn [MaildirRunner.for_files]. rewrite bind_eq, one_file_eq.
    unfold os_rename. rewrite os_call_at, Hf.
    rewrite fs_rename_no_target by done. rewrite decide_True by done.
    destruct (IH (mkWorld (fs w) (queued w) (log w)
                    (calls w ++ [Rename (New, file) (Cur, file +:+ ":1,P")])))
      as [cs ->]; [done|].
    simpl. eexists. by rewrite <- app_assoc.
Qed.

(** X13.  When cur/ is missing every claim fails with [ENOENT], which the
    runner takes for a lost race: with no other process at work and no
    fault, the pass returns the number of files in new/ and has changed
    nothing in the maildir, logged nothing and enqueued nothing. *)
Theorem missing_cur_skips_all w :
  faultless env → cur (fs w) = None →
  let '(r, w') := _oneloop w in
  r = Ok (from_option size 0 (new (fs w))) ∧
  fs w' = fs w ∧ log w' = log w ∧ queued w' = queued w.
Proof.
  intros Hf Hcur. rewrite oneloop_eq. unfold os_listdir.
  rewrite os_call_at, Hf. unfold fs_listdir. simpl.
  destruct (new (fs w)) as [m|] eqn:Hnew; simpl; [|done].
  rewrite bind_eq.
  destruct (for_files_no_cur (map_to_list m).*1
              (mkWorld (fs w) (queued w) (log w) (calls w ++ [Listdir New]))
              Hf Hcur) as [cs ->].
  simpl. by rewrite length_fmap, length_map_to_list.
Qed.

(** *** A failing unlink *)

(** X14.  The message is enqueued before the file is unlinked, and a failure
    of the unlink is handled like any other: the message stays in the
    switchboard and the file is quarantined as well, leaving its
    [:1,P] name unless the [:1,X] name was a link to it already. *)
Theorem unlink_failure_keeps_message file w fv msg listname subq queue
    msgdata ft :
  let dstname := (Cur, file +:+ ":1,P") in
  let xdstname := (Cur, file +:+ ":1,X") in
  let n := length (calls w) in
  at_path dstname (fs w) = Some fv →
  content fv = Ok msg →
  route parseaddr listnames (header_values msg) = Some (listname, subq) →
  select OWNER_PIPELINE site_bounces listname subq = Some (queue, msgdata) →
  os_fault env n = None →
  lib_fault env (n + 1) = None →
  os_fault env (n + 2) = Some ft →
  os_fault env (n + 3) = None →
  ∃ w', claimed file w = (Ok tt, w') ∧
    queued w' = queued w ++ [(queue, msg, msgdata)] ∧
    log w' = log w ++ [processing_error file (OSError (errno_of ft))] ∧
    at_path xdstname (fs w') = Some fv ∧
    (at_path xdstname (fs w) ≠ Some fv → at_path dstname (fs w') = None) ∧
    calls w' = calls w ++ [Open dstname; Enqueue queue; Unlink dstname;
                           Rename dstname xdstname].
Proof.
  intros dstname xdstname n Hat Hc Hr Hs H0 H1 H2 H3.
  destruct (fs_rename_total dstname xdstname (fs w) fv Hat) as [fs2 Hfs2];
    [by apply (at_path_dir _ _ _ Hat)|].
  pose proof (fs_rename_ok _ _ _ _ Hfs2) as (f2 & Hf2 & Hat2 & _).
  assert (f2 = fv) as -> by congruence.
  assert (dstname ≠ xdstname) as HPX.
  { intros [= H]. by apply suffix_P_X in H. }
  rewrite claimed_eq. fold dstname xdstname.
  unfold MaildirRunner.process, load.
  rewrite !bind_eq, os_call_at. fold n. rewrite H0.
  unfold fs_open. rewrite Hat, Hc. simpl. rewrite Hr, Hs.
  unfold enqueue. rewrite !bind_eq, lib_call_at. simpl.
  rewrite List.length_app. simpl. fold n. rewrite H1. simpl.
  rewrite bind_eq. unfold os_unlink. rewrite os_call_at. simpl.
  rewrite !List.length_app. simpl. fold n.
  replace (n + 1 + 1) with (n + 2) by lia. rewrite H2.
  unfold os_rename. rewrite os_call_at. simpl.
  rewrite !List.length_app. simpl. fold n.
  replace (n + 1 + 1 + 1) with (n + 3) by lia. rewrite H3, Hfs2.
  eexists. split; [done|]. simpl. rewrite <- !app_assoc.
  split_and!; try done.
  - by rewrite Hat2, decide_True.
  - intros Hx. by rewrite Hat2, decide_False, decide_True, decide_False.
Qed.

End QuietFacts.

(** ** What a pass gives the switchboards *)

Lemma untouched_refl ps fs : untouched ps fs fs.
Proof. by split. Qed.

Lemma untouched_trans ps fs1 fs2 fs3 :
  untouched ps fs1 fs2 → untouched ps fs2 fs3 → untouched ps fs1 fs3.
Proof.
  intros [H1 D1] [H2 D2]. split.
  - intros p Hp. by rewrite H2, H1.
  - intros d. by rewrite D2.
Qed.

Lemma untouched_weaken ps qs fs fs' :
  (∀ p, p ∈ ps → p ∈ qs) → untouched ps fs fs' → untouched qs fs fs'.
Proof. intros Hsub [H D]. split; [|done]. intros p Hp. apply H. auto. Qed.

Section PassFacts.

Import MaildirRunner.

Variable parseaddr : string → string * string.
Variable OWNER_PIPELINE : list string.
Variable site_bounces : string.
Variable env : Env.
Variable listnames : list string.

Abbreviation process :=
  (process parseaddr OWNER_PIPELINE site_bounces env listnames).
Abbreviation one_file :=
  (one_file parseaddr OWNER_PIPELINE site_bounces env listnames).
Abbreviation for_files :=
  (for_files parseaddr OWNER_PIPELINE site_bounces env listnames).
Abbreviation _oneloop :=
  (_oneloop parseaddr OWNER_PIPELINE site_bounces env listnames).
Abbreviation claimed file :=
  (claimed parseaddr OWNER_PIPELINE site_bounces env listnames file
     (Cur, file +:+ ":1,P") (Cur, file +:+ ":1,X")).
Abbreviation routed :=
  (routed parseaddr OWNER_PIPELINE site_bounces listnames).

(** *** What reaches the switchboards *)

(** The body of the [try]: after the opening of the file, nothing
    reaches the switchboards, or one routed message does, handed over by
    the call that follows the opening. *)
Lemma process_step file w :
  let dstname := (Cur, file +:+ ":1,P") in
  let xdstname := (Cur, file +:+ ":1,X") in
  let '(r, w') := process file dstname xdstname w in
  ∃ cs q, calls w' = calls w ++ Open dstname :: cs ∧
    queued w' = queued w ++ q ∧
    ((q = [] ∧ Forall (λ c, handles file c ∨ is_enqueue c) cs) ∨
     ∃ queue msg msgdata,
       q = [(queue, msg, msgdata)] ∧ routed (queue, msg, msgdata) ∧
       cs = [Enqueue queue; Unlink dstname]).
Proof.
  intros dstname xdstname. unfold MaildirRunner.process, load.
  rewrite !bind_eq.
  destruct (os_call env (Open dstname) (fs_open dstname) w) as [[f|e] w1]
    eqn:E1; apply os_call_inv in E1 as (_ & Hq1 & Hc1 & _).
  2: { exists [], []. rewrite app_nil_r. split_and!; try done. by left. }
  assert (∀ entry,
    let '(r, w') := (syslog entry;; os_rename env dstname xdstname) w1 in
    ∃ cs q, calls w' = calls w ++ Open dstname :: cs ∧
      queued w' = queued w ++ q ∧
      ((q = [] ∧ Forall (λ c, handles file c ∨ is_enqueue c) cs) ∨
       ∃ queue msg msgdata,
         q = [(queue, msg, msgdata)] ∧ routed (queue, msg, msgdata) ∧
         cs = [Enqueue queue; Unlink dstname])) as Hquar.
  { intros entry. rewrite bind_eq. simpl.
    destruct (os_rename env dstname xdstname (add_log entry w1))
      as [r w2] eqn:E2.
    apply os_call_inv in E2 as (_ & Hq2 & Hc2 & _). simpl in *.
    exists [Rename dstname xdstname], [].
    rewrite Hc2, Hc1, Hq2, Hq1, <- app_assoc, app_nil_r.
    split_and!; try done. left. split; [done|].
    constructor; [|done]. left. by do 2 right. }
  destruct (content f) as [msg|e]; simpl.
  2: { exists [], []. rewrite app_nil_r. split_and!; try done. by left. }
  destruct (route _ _ _) as [[listname subq]|] eqn:Hr; [|apply Hquar].
  destruct (select _ _ _ _) as [[queue msgdata]|] eqn:Hs; [|apply Hquar].
  clear Hquar. unfold enqueue. rewrite !bind_eq.
  destruct (lib_call env (Enqueue queue) w1) as [[[]|e] w2] eqn:E2;
    apply lib_call_inv in E2 as (_ & Hq2 & Hc2 & _); simpl.
  2: { exists [Enqueue queue], [].
       rewrite Hc2, Hc1, Hq2, Hq1, <- app_assoc, app_nil_r.
       split_and!; try done. left. split; [done|].
       constructor; [|done]. by right. }
  rewrite bind_eq.
  assert (routed (queue, msg, msgdata)) as HQ.
  { exists listname, subq. split_and!; try done.
    - by apply route_Some in Hr as (i & fld & _ & (_ & _ & ?) & _).
    - pose proof (select_listname OWNER_PIPELINE site_bounces
        listname subq) as Hl. by rewrite Hs in Hl. }
  destruct (os_unlink env dstname _) as [[[]|e] w3] eqn:E3;
    apply os_call_inv in E3 as (_ & Hq3 & Hc3 & _); simpl in *;
    exists [Enqueue queue; Unlink dstname], [(queue, msg, msgdata)];
    rewrite Hc3, Hc2, Hc1, Hq3, Hq2, Hq1, <- !app_assoc;
    (split_and!; try done; right; by exists queue, msg, msgdata).
Qed.

(** The [try] statement: the handler adds its rename. *)
Lemma claimed_step file w :
  ∃ cs q, calls (claimed file w).2 = calls w ++ cs ∧
    Forall (λ c, handles file c ∨ is_enqueue c) cs ∧
    queued (claimed file w).2 = queued w ++ q ∧
    (q = [] ∨
     ∃ queue msg msgdata cs',
       q = [(queue, msg, msgdata)] ∧ routed (queue, msg, msgdata) ∧
       cs = Open (Cur, file +:+ ":1,P") :: Enqueue queue :: cs' ∧
       Forall (λ c, ¬ is_enqueue c) cs').
Proof.
  rewrite claimed_eq. pose proof (process_step file w) as H. simpl in H.
  destruct (process _ _ _ w) as [[[]|e] w1];
    destruct H as (cs & q & Hc & Hq & H).
  - simpl. exists (Open (Cur, file +:+ ":1,P") :: cs), q.
    split_and!; try done.
    + constructor; [left; by left|].
      destruct H as [[_ H]|(queue & msg & md & _ & _ & ->)]; [done|].
      constructor; [by right|]. constructor; [|done]. left. right. by left.
    + destruct H as [[-> _]|(queue & msg & md & -> & HQ & ->)]; [by left|].
      right. exists queue, msg, md, [Unlink (Cur, file +:+ ":1,P")].
      split_and!; try done. constructor; [|done]. by intros [].
  - destruct (os_rename env _ _ (add_log _ w1)) as [r w2] eqn:E.
    apply os_call_inv in E as (_ & Hq2 & Hc2 & _). simpl in *.
    exists (Open (Cur, file +:+ ":1,P") :: cs ++
            [Rename (Cur, file +:+ ":1,P") (Cur, file +:+ ":1,X")]), q.
    split_and!.
    + rewrite Hc2, Hc. by rewrite <- app_assoc.
    + constructor; [left; by left|]. apply Forall_app. split.
      * destruct H as [[_ H]|(queue & msg & md & _ & _ & ->)]; [done|].
        constructor; [by right|]. constructor; [|done]. left. right. by left.
      * constructor; [|done]. left. by do 2 right.
    + by rewrite Hq2.
    + destruct H as [[-> _]|(queue & msg & md & -> & HQ & ->)]; [by left|].
      right. exists queue, msg, md,
        [Unlink (Cur, file +:+ ":1,P");
         Rename (Cur, file +:+ ":1,P") (Cur, file +:+ ":1,X")].
      split_and!; try done. repeat constructor; by intros [].
Qed.

(** *** File by file *)

Lemma steps_one_file file : emits (step_of file) (one_file file).
Proof.
  unfold MaildirRunner.one_file, MaildirRunner.claim,
    MaildirRunner.claimed, MaildirRunner.process,
    MaildirRunner.quarantine, load, enqueue, os_rename, os_unlink.
  repeat (intros; lazymatch goal with
    | |- emits _ (_ ≫= _) => apply emits_bind
    | |- emits _ (try_except _ _) => apply emits_try
    | |- emits _ (os_call _ _ _) => apply emits_os_call; simpl; by auto
    | |- emits _ (lib_call _ _) => by apply emits_lib_call
    | |- emits _ (syslog _) => apply emits_syslog
    | |- emits _ (store _ _ _) => apply emits_store
    | |- emits _ (mret _) => apply emits_ret
    | |- emits _ (raise _) => apply emits_raise
    | |- emits _ (match ?x with _ => _ end) => destruct x
    | |- emits _ (if ?x then _ else _) => destruct x
    end).
Qed.

Lemma one_file_step file w : file_step routed file w (one_file file w).2.
Proof.
  rewrite one_file_eq.
  destruct (os_rename env (New, file) (Cur, file +:+ ":1,P") w)
    as [[[]|[en|cls]] w1] eqn:E;
    apply os_call_inv in E as (_ & Hq & Hc & _).
  - destruct (claimed_step file w1) as (cs & q & Hc1 & Hcs & Hq1 & H).
    exists cs, q. split_and!; try done.
    + rewrite Hc1, Hc. by rewrite <- app_assoc.
    + by rewrite Hq1, Hq.
  - exists [], []. rewrite app_nil_r.
    case_decide; simpl; split_and!; try done; by left.
  - exists [], []. rewrite app_nil_r. simpl. split_and!; try done. by left.
Qed.

Lemma for_files_steps files w :
  file_steps routed files w (for_files files w).2.
Proof.
  revert w. induction files as [|file files IH]; intros w.
  - by apply steps_end.
  - cbn [MaildirRunner.for_files]. rewrite bind_eq.
    pose proof (one_file_step file w) as H.
    destruct (one_file file w) as [[[]|e] w1]; simpl in *.
    + eapply steps_next; [done|apply IH].
    + eapply steps_next; [done|by apply steps_end].
Qed.

(** X8.  Whatever faults strike and whatever other processes do, a pass
    gives the switchboards nothing but messages routed to a list of the
    site, each with the switchboard and the metadata the selector gives
    for the address that routed it, and at most one message for each
    file it listed: after the listing, which gives the switchboards
    nothing, the pass is a chain of steps, one for each file of the
    listing in its order, up to the last file or to some file before
    it.  The step of a file begins with the claim of that file, and the
    switchboards receive nothing in it, or one such message, handed over
    by the one call to a switchboard of that step, right after the
    opening of the claimed file. *)
Theorem pass_enqueues_routed_only w :
  let '(r0, wl) := os_listdir env New w in
  calls wl = calls w ++ [Listdir New] ∧
  queued wl = queued w ∧
  file_steps routed (match r0 with Ok files => files | Raise _ => [] end)
    wl (_oneloop w).2.
Proof.
  rewrite oneloop_eq.
  destruct (os_listdir env New w) as [[files|[en|cls]] wl] eqn:E;
    apply os_call_inv in E as (_ & Hq & Hc & _); split_and!; try done.
  - rewrite bind_eq. pose proof (for_files_steps files wl) as H.
    by destruct (for_files files wl) as [[[]|e] w'].
  - apply steps_end; by case_decide.
  - by apply steps_end.
Qed.

End PassFacts.

(** ** What a pass leaves untouched *)

Section FrameFacts.

Import MaildirRunner.

Variable parseaddr : string → string * string.
Variable OWNER_PIPELINE : list string.
Variable site_bounces : string.
Variable env : Env.
Variable listnames : list string.

Abbreviation process :=
  (process parseaddr OWNER_PIPELINE site_bounces env listnames).
Abbreviation one_file :=
  (one_file parseaddr OWNER_PIPELINE site_bounces env listnames).
Abbreviation for_files :=
  (for_files parseaddr OWNER_PIPELINE site_bounces env listnames).
Abbreviation _oneloop :=
  (_oneloop parseaddr OWNER_PIPELINE site_bounces env listnames).
Abbreviation claimed file :=
  (claimed parseaddr OWNER_PIPELINE site_bounces env listnames file
     (Cur, file +:+ ":1,P") (Cur, file +:+ ":1,X")).

Hypothesis Hquiet : quiet env.

Lemma keeps_os_call {A} ps c (op : FS → errno + (A * FS)) :
  (∀ fs a fs', op fs = inr (a, fs') → untouched ps fs fs') →
  keeps ps (os_call env c op).
Proof.
  intros Hop w. destruct (os_call env c op w) as [r w'] eqn:E.
  apply os_call_inv in E as (_ & _ & _ & E). rewrite Hquiet in E. simpl.
  destruct r as [a|e].
  - destruct E as [_ E]. by apply Hop in E.
  - destruct E as [-> _]. apply untouched_refl.
Qed.

Lemma keeps_rename ps src dst :
  src ∈ ps → dst ∈ ps → keeps ps (os_rename env src dst).
Proof.
  intros Hs Hd. apply keeps_os_call.
  intros fs [] fs' (f & _ & Hat & Hdir)%fs_rename_ok. split; [|done].
  intros p Hp. rewrite Hat, !decide_False; [done|by intros ->..].
Qed.

Lemma keeps_unlink ps p : p ∈ ps → keeps ps (os_unlink env p).
Proof.
  intros Hp. apply keeps_os_call.
  intros fs [] fs' [Hat Hdir]%fs_unlink_ok. split; [|done].
  intros q Hq. rewrite Hat, decide_False; [done|by intros ->].
Qed.

Lemma keeps_open ps p : keeps ps (os_call env (Open p) (fs_open p)).
Proof.
  apply keeps_os_call. intros fs f fs' [-> _]%fs_open_ok.
  apply untouched_refl.
Qed.

Lemma keeps_listdir ps d : keeps ps (os_listdir env d).
Proof.
  apply keeps_os_call. intros fs files fs' (-> & _)%fs_listdir_ok.
  apply untouched_refl.
Qed.

Lemma keeps_lib_call ps c : keeps ps (lib_call env c).
Proof.
  intros w. destruct (lib_call env c w) as [r w'] eqn:E.
  apply lib_call_inv in E as (_ & _ & _ & E & _). simpl.
  rewrite E, Hquiet. apply untouched_refl.
Qed.

Lemma keeps_pure {A} ps (m : M A) :
  (∀ w, fs (m w).2 = fs w) → keeps ps m.
Proof. intros H w. rewrite H. apply untouched_refl. Qed.

Lemma keeps_bind {A B} ps (m : M A) (f : A → M B) :
  keeps ps m → (∀ a, keeps ps (f a)) → keeps ps (m ≫= f).
Proof.
  intros Hm Hf. unfold keeps.
  apply (step_bind (λ w w', untouched ps (fs w) (fs w'))); [|done|].
  - intros w1 w2 w3. apply untouched_trans.
  - intros a w. apply Hf.
Qed.

Lemma keeps_try {A} ps (m : M A) (h : exn → M A) :
  keeps ps m → (∀ e, keeps ps (h e)) → keeps ps (try_except m h).
Proof.
  intros Hm Hh. unfold keeps.
  apply (step_try (λ w w', untouched ps (fs w) (fs w'))); [|done|].
  - intros w1 w2 w3. apply untouched_trans.
  - intros e w. apply Hh.
Qed.

Lemma keeps_one_file file : keeps (paths_of file) (one_file file).
Proof.
  pose proof (paths_of_new file) as HN.
  pose proof (paths_of_P file) as HP. pose proof (paths_of_X file) as HX.
  unfold MaildirRunner.one_file, MaildirRunner.claim,
    MaildirRunner.claimed, MaildirRunner.process,
    MaildirRunner.quarantine, load, enqueue.
  repeat (intros; lazymatch goal with
    | |- keeps _ (_ ≫= _) => apply keeps_bind
    | |- keeps _ (try_except _ _) => apply keeps_try
    | |- keeps _ (os_rename _ _ _) => by apply keeps_rename
    | |- keeps _ (os_unlink _ _) => by apply keeps_unlink
    | |- keeps _ (os_call _ (Open _) _) => apply keeps_open
    | |- keeps _ (lib_call _ _) => apply keeps_lib_call
    | |- keeps _ (syslog _) => by apply keeps_pure
    | |- keeps _ (store _ _ _) => by apply keeps_pure
    | |- keeps _ (mret _) => by apply keeps_pure
    | |- keeps _ (raise _) => by apply keeps_pure
    | |- keeps _ (match ?x with _ => _ end) => destruct x
    | |- keeps _ (if ?x then _ else _) => destruct x
    end).
Qed.

Lemma keeps_for_files files : keeps (files ≫= paths_of) (for_files files).
Proof.
  induction files as [|file files IH]; cbn [MaildirRunner.for_files].
  - by apply keeps_pure.
  - apply keeps_bind.
    + intros w. eapply untouched_weaken; [|apply keeps_one_file].
      intros p Hp. apply list_elem_of_bind. exists file. split; [done|by left].
    + intros _ w. eapply untouched_weaken; [|apply IH].
      intros p (g & Hp & Hg)%list_elem_of_bind. apply list_elem_of_bind.
      exists g. split; [done|by right].
Qed.

(** X9.  With no other process at work, whatever faults strike, a pass
    changes the maildir nowhere but at the three paths of the files
    that were in new/ when it started, and it creates or removes no
    directory.  A file quarantined earlier, or any other file of cur/,
    stays as it is unless a file of new/ has its name. *)
Theorem pass_touches_listed_only w :
  let w' := (_oneloop w).2 in
  (∀ p, (∀ file, is_Some (at_path (New, file) (fs w)) → p ∉ paths_of file) →
        at_path p (fs w') = at_path p (fs w)) ∧
  (∀ d, is_Some (entries d (fs w')) ↔ is_Some (entries d (fs w))).
Proof.
  intros w'. subst w'. rewrite oneloop_eq.
  destruct (os_listdir env New w) as [[files|e] wl] eqn:E.
  - pose proof E as (_ & _ & _ & _ & E')%os_call_inv.
    rewrite Hquiet in E'. apply fs_listdir_ok in E' as (Hfs & _ & Hfiles).
    rewrite bind_eq. pose proof (keeps_for_files files wl) as Hk.
    assert (∀ p,
      (∀ file, is_Some (at_path (New, file) (fs w)) → p ∉ paths_of file) →
      p ∉ files ≫= paths_of) as Hout.
    { intros p Hp (file & Hin & Hf)%list_elem_of_bind.
      apply (Hp file); [|done]. by apply Hfiles. }
    destruct (for_files files wl) as [[[]|e0] w']; simpl in *;
      destruct Hk as [Hat Hd]; rewrite Hfs in *; (split; [|done]);
      intros p Hp; by apply Hat, Hout.
  - apply os_call_inv in E as (_ & _ & _ & Hfs & en & -> & _).
    rewrite Hquiet in Hfs. by case_decide; simpl; rewrite Hfs.
Qed.

End FrameFacts.

(** ** The calls of a pass *)

Section StepFacts.

Import MaildirRunner.

Variable parseaddr : string → string * string.
Variable OWNER_PIPELINE : list string.
Variable site_bounces : string.
Variable env : Env.
Variable listnames : list string.

Abbreviation one_file :=
  (one_file parseaddr OWNER_PIPELINE site_bounces env listnames).
Abbreviation for_files :=
  (for_files parseaddr OWNER_PIPELINE site_bounces env listnames).
Abbreviation _oneloop :=
  (_oneloop parseaddr OWNER_PIPELINE site_bounces env listnames).

Lemma steps_for_files files :
  emits (λ c, ∃ file, file ∈ files ∧ step_of file c) (for_files files).
Proof.
  induction files as [|file files IH]; cbn [MaildirRunner.for_files].
  - apply emits_ret.
  - apply emits_bind.
    + intros w. eapply grows_by_weaken; [|apply steps_one_file].
      intros c Hc. exists file. split; [by left|done].
    + intros _ w. eapply grows_by_weaken; [|apply IH].
      intros c (g & Hg & Hc). exists g. split; [by right|done].
Qed.

(** X18.  Whatever faults strike and whatever other processes do, the calls
    of a pass are the listing of new/ followed by calls of five kinds
    only, each for a file of the listing: the rename from new/ to the
    [:1,P] name, the opening of the [:1,P] name, the enqueueing, the
    unlink of the [:1,P] name, and the rename from the [:1,P] name to the
    [:1,X] name.  The runner reads and removes nothing in new/, moves
    nothing into new/ and creates no directory. *)
Theorem pass_calls w :
  let '(r0, _) := os_listdir env New w in
  ∃ cs, calls (_oneloop w).2 = calls w ++ Listdir New :: cs ∧
    Forall (λ c, ∃ file, step_of file c ∧
                   ∃ files, r0 = Ok files ∧ file ∈ files) cs.
Proof.
  rewrite oneloop_eq.
  destruct (os_listdir env New w) as [[files|e] wl] eqn:E.
  - apply os_call_inv in E as (_ & _ & Hc & _).
    destruct (emits_bind _ (for_files files) (λ _, mret (length files))
      (steps_for_files files) (λ _, emits_ret _ _) wl)
      as (cs & _ & _ & Hcs & HP & _).
    exists cs. split; [by rewrite Hcs, Hc, <- app_assoc|].
    eapply Forall_impl; [done|].
    intros c (g & Hg & Hstep). exists g. split; [done|]. by exists files.
  - apply os_call_inv in E as (_ & _ & Hc & _ & en & -> & _).
    exists []. split; [|done]. by case_decide.
Qed.

End StepFacts.

(** ** Initialisation and cleanup *)

Section InitMore.

Import MaildirRunner.

Variable env : Env.

(** X15.  The existence test and the creation of a directory are two calls.
    When new/ is absent at the test and another process (a second
    runner starting, say) creates it before [os.makedirs] runs, the
    creation raises [OSError] with [EEXIST] and the initialisation
    fails with it, logged. *)
Theorem init_fails_on_creation_race w :
  let n := length (calls w) in
  let fs1 := interfere env n (fs w) in
  let fs2 := interfere env (n + 1) fs1 in
  let fs3 := interfere env (n + 2) fs2 in
  lib_fault env n = None →
  os_fault env (n + 1) = None →
  os_fault env (n + 2) = None →
  new fs2 = None →
  is_Some (new fs3) →
  ∃ w',
    __init__ env w = (Raise (OSError EEXIST), w') ∧
    log w' = log w ++ [init_start; init_failed (OSError EEXIST)] ∧
    calls w' = calls w ++ [RunnerInit; Exists New; Makedirs New].
Proof.
  intros n fs1 fs2 fs3 H0 H1 H2 Hnone [m Hm].
  rewrite init_eq. unfold init_body, ensure_dir.
  rewrite !bind_eq. unfold lib_call, enter. simpl. fold n. rewrite H0.
  rewrite !bind_eq. unfold os_path_exists, enter. simpl.
  rewrite List.length_app. simpl. fold n. rewrite H1. fold fs1 fs2.
  rewrite Hnone. simpl.
  unfold os_makedirs, os_call, enter. simpl.
  rewrite !List.length_app. simpl. fold n.
  replace (n + 1 + 1) with (n + 2) by lia. rewrite H2.
  fold fs3. unfold fs_makedirs. simpl. rewrite Hm.
  eexists. split; [done|]. simpl. by rewrite <- !app_assoc.
Qed.

(** X16.  On a maildir that has both directories, with no other process at
    work and no failing call, the initialisation tests the two
    directories and creates nothing: the maildir is as it was. *)
Theorem init_on_existing_maildir w :
  let n := length (calls w) in
  quiet env →
  lib_fault env n = None →
  os_fault env (n + 1) = None →
  os_fault env (n + 2) = None →
  is_Some (new (fs w)) → is_Some (cur (fs w)) →
  __init__ env w =
  (Ok tt, mkWorld (fs w) (queued w) (log w ++ [init_start; init_complete])
            (calls w ++ [RunnerInit; Exists New; Exists Cur])).
Proof.
  intros n Hq H0 H1 H2 Hnew Hcur.
  rewrite init_eq. unfold init_body, ensure_dir.
  rewrite !bind_eq. unfold lib_call, enter. simpl. fold n. rewrite H0.
  rewrite !bind_eq. unfold os_path_exists, enter. simpl.
  rewrite !List.length_app. simpl. fold n. rewrite H1. rewrite !Hq.
  rewrite bool_decide_eq_true_2 by done. simpl.
  rewrite !bind_eq. simpl. rewrite !List.length_app. simpl. fold n.
  replace (n + 1 + 1) with (n + 2) by lia. rewrite H2. rewrite !Hq.
  rewrite bool_decide_eq_true_2 by done. simpl.
  unfold add_log. simpl. by rewrite <- !app_assoc.
Qed.

End InitMore.

Section CleanupFacts.

Context {S : Type}.
Variable super_cleanup : S → result unit * S.

(** X17.  [_cleanup] never raises: it runs the cleanup of the base class once,
    and when that raises it logs the error and goes on; the entry for
    the start comes first and the entry for the completion last, in
    every case. *)
Theorem cleanup_never_raises (s : S) (l : list cleanup_entry) :
  let '(r0, s') := super_cleanup s in
  _cleanup super_cleanup (s, l) =
  (Ok tt,
   (s', l ++ [cleanup_start] ++
        match r0 with
        | Ok _ => []
        | Raise e => [cleanup_failed e]
        end ++ [cleanup_complete])).
Proof.
  unfold _cleanup, mbind, CM_bind, cleanup_try, call_super, cleanup_syslog.
  simpl. destruct (super_cleanup s) as [[[]|e] s']; simpl;
    by rewrite <- ?app_assoc.
Qed.

End CleanupFacts.

(** ** The further properties on the example site *)

Module MoreFacts.
Import Demo Scenes.

(** A bounce with a VERP detail, and a request to subscribe. *)
Lemma match_with_token_witness :
  lre.match_ "mylist-bounces+joe=example.net@lists.example.com" =
    Some ("mylist", Some "bounces") ∧
  lre.match_ "My-List-Subscribe@lists.example.com" =
    Some ("My-List", Some "Subscribe").
Proof.
  split; apply lre_shape.match_with_token;
    (split_and!; [done|by apply (bool_decide_unpack _)|reflexivity]).
Defined.

(** A listname that only looks like one with a token. *)
Lemma match_without_token_witness :
  lre.match_ "mylist-joint@lists.example.com" = Some ("mylist-joint", None).
Proof.
  apply lre_shape.match_without_token. split_and!; [done|reflexivity|].
  intros l' t Hl' Ht Heq.
  pose proof (lre_shape.match_found
    "mylist-joint@lists.example.com" l' t Hl' Ht) as H.
  rewrite <- Heq in H. by specialize (H eq_refl).
Defined.

Lemma match_fails_witness :
  lre.match_ "postmaster" = None ∧ lre.match_ "@lists.example.com" = None.
Proof.
  split; apply lre_shape.match_fails; [by left|by right].
Defined.

Lemma match_ignores_case_witness :
  let a := "MyList-Join@Lists.Example.COM" in
  let b := "mylist-join@lists.example.com" in
  lower a = lower b ∧
  match lre.match_ a, lre.match_ b with
  | Some (l1, q1), Some (l2, q2) =>
      lower l1 = lower l2 ∧ lower <$> q1 = lower <$> q2
  | None, None => True
  | _, _ => False
  end.
Proof.
  intros a b. split; [reflexivity|].
  apply (lre_shape.match_ignores_case a b). reflexivity.
Defined.

Lemma match_reads_local_part_witness :
  let a := "mylist-bounces+joe=example.net@lists.example.com" in
  let b := "mylist-bounces@elsewhere.example" in
  before_delim a = before_delim b ∧ lre.match_ a = lre.match_ b.
Proof.
  intros a b. split; [reflexivity|].
  apply (lre_shape.match_reads_local_part a b). reflexivity.
Defined.

Lemma lower_case_address_selected_witness :
  let to := "mylist-owner@lists.example.com" in
  lower to = to ∧
  lre.match_ to = Some ("mylist", Some "owner") ∧
  is_Some (select OWNER_PIPELINE site_bounces "mylist" (Some "owner")).
Proof.
  intros to. split; [reflexivity|]. split; [reflexivity|].
  apply (lower_case_address_selected OWNER_PIPELINE site_bounces to);
    reflexivity.
Defined.

(** The same Delivered-To under another spelling of its name, among
    other headers that name other lists. *)
Lemma other_headers_not_read_witness :
  let msg1 := mail "mylist@lists.example.com" in
  let msg2 := [("To", "otherlist@lists.example.com");
               ("DELIVERED-TO", "mylist@lists.example.com");
               ("Cc", "mylist-owner@lists.example.com")] in
  recipient_fields msg1 = recipient_fields msg2 ∧
  header_values msg1 = header_values msg2.
Proof.
  intros msg1 msg2. split; [reflexivity|].
  apply (other_headers_not_read msg1 msg2). reflexivity.
Defined.

Lemma calm_reliable : reliable calm.
Proof. done. Qed.

(** The three files with nothing in the way: two messages enqueued, one
    file quarantined, new/ empty, 3 returned, three entries logged. *)
Lemma calm_pass_drains_witness :
  let m := default ∅ (new (fs three)) in
  quiet calm ∧ faultless calm ∧ reliable calm ∧
  new (fs three) = Some m ∧ is_Some (cur (fs three)) ∧
  (∀ file fv, m !! file = Some fv → linked_once fv (fs three)) ∧
  size m = 3 ∧
  let '(r, w') := _oneloop calm three in
  r = Ok (size m) ∧
  new (fs w') = Some ∅ ∧
  queued w' =
    queued three ++
    omap (λ nf, destination parseaddr OWNER_PIPELINE site_bounces listnames
                  nf.2) (map_to_list m) ∧
  log w' =
    log three ++
    ((λ nf, report parseaddr OWNER_PIPELINE site_bounces listnames
              nf.1 nf.2) <$> map_to_list m).
Proof.
  intros m.
  assert (∀ file fv, m !! file = Some fv → linked_once fv (fs three))
    as Hlinked.
  { intros file fv _. apply DemoFacts.maildir_linked_once. }
  split; [done|]. split; [done|]. split; [done|].
  split; [reflexivity|]. split; [by eexists|]. split; [exact Hlinked|].
  split; [by vm_compute|].
  apply (calm_pass_drains parseaddr OWNER_PIPELINE site_bounces calm
           listnames ltac:(done) ltac:(done) calm_reliable three m);
    [reflexivity|by eexists|exact Hlinked].
Defined.

(** msg2 is for no list: it ends quarantined. *)
Lemma calm_pass_fate_witness :
  let m := default ∅ (new (fs three)) in
  let fv := File 1 (Ok (mail "nobody@lists.example.com")) in
  m !! "msg2" = Some fv ∧ linked_once fv (fs three) ∧
  destination parseaddr OWNER_PIPELINE site_bounces listnames fv = None ∧
  in_state "msg2" fv (fs (_oneloop calm three).2)
    (match destination parseaddr OWNER_PIPELINE site_bounces listnames fv
     with Some _ => removed | None => quarantined end).
Proof.
  intros m fv.
  assert (m !! "msg2" = Some fv) as Hm by (by vm_compute).
  pose proof (DemoFacts.maildir_linked_once _ fv
                : linked_once fv (fs three)) as Hu.
  split; [exact Hm|]. split; [exact Hu|]. split; [by vm_compute|].
  apply (calm_pass_fate parseaddr OWNER_PIPELINE site_bounces calm
           listnames ltac:(done) ltac:(done) calm_reliable three m "msg2" fv);
    [reflexivity|by eexists|exact Hm|exact Hu].
Defined.

Lemma second_pass_idle_witness :
  let m := default ∅ (new (fs three)) in
  let w1 := (_oneloop calm three).2 in
  new (fs three) = Some m ∧ is_Some (cur (fs three)) ∧
  (∀ file fv, m !! file = Some fv → linked_once fv (fs three)) ∧
  let '(r, w2) := _oneloop calm w1 in
  r = Ok 0 ∧ fs w2 = fs w1 ∧ queued w2 = queued w1 ∧ log w2 = log w1.
Proof.
  intros m w1.
  assert (∀ file fv, m !! file = Some fv → linked_once fv (fs three))
    as Hlinked.
  { intros file fv _. apply DemoFacts.maildir_linked_once. }
  split; [reflexivity|]. split; [by eexists|]. split; [exact Hlinked|].
  apply (second_pass_idle parseaddr OWNER_PIPELINE site_bounces calm
           listnames ltac:(done) ltac:(done) calm_reliable three m);
    [reflexivity|by eexists|exact Hlinked].
Defined.

(** The three files in a maildir that lost its cur/: 3 is returned and
    nothing has happened. *)
Lemma missing_cur_skips_all_witness :
  quiet calm ∧ faultless calm ∧ cur (fs no_cur) = None ∧
  let '(r, w') := _oneloop calm no_cur in
  r = Ok (from_option size 0 (new (fs no_cur))) ∧
  fs w' = fs no_cur ∧ log w' = log no_cur ∧ queued w' = queued no_cur.
Proof.
  split; [done|]. split; [done|]. split; [reflexivity|].
  apply (missing_cur_skips_all parseaddr OWNER_PIPELINE site_bounces calm
           listnames ltac:(done) no_cur); [done|reflexivity].
Defined.

(** The post is enqueued, then the unlink meets an I/O error. *)
Lemma unlink_failure_keeps_message_witness :
  let env := faulty [(2, EIO)] in
  let msg := mail "mylist@lists.example.com" in
  let fv := File 0 (Ok msg) in
  let w := mkWorld (mkFS (Some ∅) (Some {[ "msg1:1,P" := fv ]})) [] [] [] in
  ∃ w', claimed env "msg1" (Cur, "msg1" +:+ ":1,P") (Cur, "msg1" +:+ ":1,X") w
        = (Ok tt, w') ∧
    queued w' = queued w ++ [(INQUEUE_DIR, msg,
                              <["tolist" := VInt 1]>
                                {[ "listname" := VStr "mylist" ]})] ∧
    log w' = log w ++ [processing_error "msg1" (OSError (errno_of EIO))] ∧
    at_path (Cur, "msg1" +:+ ":1,X") (fs w') = Some fv ∧
    at_path (Cur, "msg1" +:+ ":1,P") (fs w') = None ∧
    calls w' = calls w ++ [Open (Cur, "msg1" +:+ ":1,P"); Enqueue INQUEUE_DIR;
                           Unlink (Cur, "msg1" +:+ ":1,P");
                           Rename (Cur, "msg1" +:+ ":1,P")
                                  (Cur, "msg1" +:+ ":1,X")].
Proof.
  intros env msg fv w.
  destruct (unlink_failure_keeps_message parseaddr OWNER_PIPELINE
              site_bounces env listnames ltac:(done) "msg1" w fv msg
              "mylist" None INQUEUE_DIR
              (<["tolist" := VInt 1]> {[ "listname" := VStr "mylist" ]}) EIO)
    as (w' & H1 & H2 & H3 & H4 & H5 & H6); try reflexivity.
  exists w'. split_and!; try done. by apply H5.
Defined.

Lemma pass_touches_listed_only_witness :
  let old := File 7 (Ok (mail "mylist@lists.example.com")) in
  let w := mkWorld (mkFS (new (fs three)) (Some {[ "msg0:1,X" := old ]}))
             [] [] [] in
  quiet calm ∧
  at_path (Cur, "msg0:1,X") (fs (_oneloop calm w).2) = Some old.
Proof.
  intros old w. split; [done|].
  destruct (pass_touches_listed_only parseaddr OWNER_PIPELINE site_bounces
              calm listnames ltac:(done) w) as [H _].
  rewrite H; [reflexivity|].
  intros file Hf Hin.
  assert (file ∈ ["msg1"; "msg2"; "msg3"]) as Hfile.
  { destruct Hf as [f Hf]. unfold at_path in Hf. simpl in Hf.
    rewrite !elem_of_cons.
    apply lookup_insert_Some in Hf as [[<- _]|[_ Hf]]; [by auto|].
    apply lookup_insert_Some in Hf as [[<- _]|[_ Hf]]; [by auto|].
    apply lookup_insert_Some in Hf as [[<- _]|[_ Hf]]; [by auto|].
    by rewrite lookup_empty in Hf. }
  unfold paths_of in Hin.
  repeat match goal with
    | H : _ ∈ _ :: _ |- _ => apply elem_of_cons in H as [H|H]
    | H : _ ∈ [] |- _ => by apply elem_of_nil in H
    end; subst; done.
Defined.

(** new/ is missing; a second runner creates it between our test and
    our [os.makedirs]. *)
Lemma init_fails_on_creation_race_witness :
  let env := creating 2 New in
  ∃ w',
    MaildirRunner.__init__ env no_new = (Raise (OSError EEXIST), w') ∧
    log w' = log no_new ++ [init_start; init_failed (OSError EEXIST)] ∧
    calls w' = calls no_new ++ [RunnerInit; Exists New; Makedirs New].
Proof.
  intros env.
  apply (init_fails_on_creation_race env no_new);
    first [reflexivity|by eexists].
Defined.

Lemma init_on_existing_maildir_witness :
  quiet calm ∧
  MaildirRunner.__init__ calm post =
  (Ok tt, mkWorld (fs post) (queued post)
            (log post ++ [init_start; init_complete])
            (calls post ++ [RunnerInit; Exists New; Exists Cur])).
Proof.
  split; [done|].
  apply (init_on_existing_maildir calm post); first [done|by eexists].
Defined.

(** A base class whose cleanup raises: [_cleanup] returns all the
    same, with three log entries. *)
Lemma cleanup_never_raises_witness :
  _cleanup failing_super (0, []) =
  (Ok tt, (1, [cleanup_start;
               cleanup_failed (Exception "RuntimeError");
               cleanup_complete])).
Proof. exact (cleanup_never_raises failing_super 0 []). Defined.

(** The three files while another runner claims msg3. *)
Lemma pass_enqueues_routed_only_witness :
  let env := racing 1 "msg3" in
  let '(r0, wl) := os_listdir env New three in
  calls wl = calls three ++ [Listdir New] ∧
  queued wl = queued three ∧
  file_steps (routed parseaddr OWNER_PIPELINE site_bounces listnames)
    (match r0 with Ok files => files | Raise _ => [] end)
    wl (_oneloop env three).2.
Proof.
  exact (pass_enqueues_routed_only parseaddr OWNER_PIPELINE site_bounces
           (racing 1 "msg3") listnames three).
Defined.

Lemma pass_calls_witness :
  let env := racing 1 "msg3" in
  let '(r0, _) := os_listdir env New three in
  ∃ cs, calls (_oneloop env three).2 = calls three ++ Listdir New :: cs ∧
    Forall (λ c, ∃ file, step_of file c ∧
                   ∃ files, r0 = Ok files ∧ file ∈ files) cs.
Proof.
  exact (pass_calls parseaddr OWNER_PIPELINE site_bounces
           (racing 1 "msg3") listnames three).
Defined.

End MoreFacts.
